(** * node-lamarzocco: session and protocol layer

    A shallow embedding of the request-proof generator
    ([src/util/authentication.ts]), the STOMP frame codec
    ([src/util/websocket.ts]) and the token, command and reconnect logic of
    the cloud client ([src/clients/cloud.ts]), with the properties the
    specification states about them; then of the installation keys, the
    dashboard frames and the websocket session of the cloud client, the
    model names ([src/const.ts]) and the setters of the machine
    ([src/devices/thing.ts], [src/devices/machine.ts]), with properties read
    off the code. *)

From Stdlib Require Import ZArith Lia Ascii String.
From stdpp Require Import gmap list.

Local Open Scope Z_scope.

(** ** JavaScript values used by the client *)

Module JS.

(** A JavaScript string is a sequence of UTF-16 code units. *)
Abbreviation jsstring := (list Z).

(** A string literal of the source (ASCII only). *)
Definition lit (s : string) : jsstring :=
  (λ a, Z.of_N (N_of_ascii a)) <$> list_ascii_of_string s.

(** [ToInt32]: the operands and the result of the bitwise operators are
    signed 32-bit integers. *)
Definition to_int32 (x : Z) : Z := (x + 2 ^ 31) mod 2 ^ 32 - 2 ^ 31.

(** [a & b], [a | b], [a ^ b]. *)
Definition band (a b : Z) : Z := Z.land (to_int32 a) (to_int32 b).
Definition bor (a b : Z) : Z := Z.lor (to_int32 a) (to_int32 b).
Definition bxor (a b : Z) : Z := Z.lxor (to_int32 a) (to_int32 b).

(** [a << n] and [a >> n]: the shift count is taken modulo 32, a left shift
    wraps around at 32 bits, a right shift propagates the sign. *)
Definition shl (a n : Z) : Z := to_int32 (Z.shiftl (to_int32 a) (n mod 32)).
Definition sar (a n : Z) : Z := Z.shiftr (to_int32 a) (n mod 32).

(** [a % b] truncates towards zero. *)
Definition rem (a b : Z) : Z := Z.rem a b.

(** A [Buffer] is a sequence of octets. *)
Abbreviation Buffer := (list Z).

Definition is_byte (b : Z) : Prop := 0 ≤ b < 256.

(** [Buffer.from(data)]: a fresh buffer, every entry truncated to an octet. *)
Definition Buffer_from (data : list Z) : Buffer := (λ b, b mod 256) <$> data.

(** [buf[i]] read inside a bitwise expression: an index out of range reads
    [undefined], which the bitwise operators take as 0. *)
Definition Buffer_get (buf : Buffer) (i : Z) : Z :=
  if i <? 0 then 0 else default 0 (buf !! Z.to_nat i).

(** [buf[i] = v]: the value is truncated to an octet; an index out of range
    changes nothing. *)
Definition Buffer_set (buf : Buffer) (i v : Z) : Buffer :=
  if i <? 0 then buf else <[Z.to_nat i := v mod 256]> buf.

Definition is_high_surrogate (c : Z) : bool := (0xD800 <=? c) && (c <=? 0xDBFF).
Definition is_low_surrogate (c : Z) : bool := (0xDC00 <=? c) && (c <=? 0xDFFF).

(** A continuation octet of UTF-8 carrying six bits of the code point. *)
Definition utf8_cont (cp shift : Z) : Z :=
  Z.lor 0x80 (Z.land (Z.shiftr cp shift) 0x3F).

(** The UTF-8 octets of a code point below 0x110000. *)
Definition utf8_code_point (cp : Z) : list Z :=
  if cp <? 0x80 then [cp]
  else if cp <? 0x800 then
    [Z.lor 0xC0 (Z.land (Z.shiftr cp 6) 0x1F); utf8_cont cp 0]
  else if cp <? 0x10000 then
    [Z.lor 0xE0 (Z.land (Z.shiftr cp 12) 0x0F); utf8_cont cp 6; utf8_cont cp 0]
  else
    [Z.lor 0xF0 (Z.land (Z.shiftr cp 18) 0x07); utf8_cont cp 12;
     utf8_cont cp 6; utf8_cont cp 0].

(** [Buffer.from(s, "utf-8")]: a surrogate pair encodes one code point, a
    lone surrogate is replaced by U+FFFD. *)
Fixpoint utf8_encode (s : jsstring) : Buffer :=
  match s with
  | [] => []
  | c :: rest =>
    let c := c mod 65536 in
    if is_high_surrogate c then
      match rest with
      | d :: rest' =>
        let d := d mod 65536 in
        if is_low_surrogate d then
          utf8_code_point (0x10000 + (c - 0xD800) * 0x400 + (d - 0xDC00))
            ++ utf8_encode rest'
        else utf8_code_point 0xFFFD ++ utf8_encode rest
      | [] => utf8_code_point 0xFFFD
      end
    else if is_low_surrogate c then utf8_code_point 0xFFFD ++ utf8_encode rest
    else utf8_code_point c ++ utf8_encode rest
  end.

End JS.

(** ** SHA-256 (FIPS 180-4), as [crypto.createHash("sha256")] computes it *)

Module Sha256.

Definition add32 (x y : Z) : Z := (x + y) mod 2 ^ 32.
Definition rotr (n x : Z) : Z :=
  Z.lor (Z.shiftr x n) (Z.shiftl x (32 - n) mod 2 ^ 32).
Definition not32 (x : Z) : Z := 2 ^ 32 - 1 - x.

Definition Ch (x y z : Z) : Z := Z.lxor (Z.land x y) (Z.land (not32 x) z).
Definition Maj (x y z : Z) : Z :=
  Z.lxor (Z.lxor (Z.land x y) (Z.land x z)) (Z.land y z).
Definition Sigma0 (x : Z) : Z := Z.lxor (Z.lxor (rotr 2 x) (rotr 13 x)) (rotr 22 x).
Definition Sigma1 (x : Z) : Z := Z.lxor (Z.lxor (rotr 6 x) (rotr 11 x)) (rotr 25 x).
Definition sigma0 (x : Z) : Z := Z.lxor (Z.lxor (rotr 7 x) (rotr 18 x)) (Z.shiftr x 3).
Definition sigma1 (x : Z) : Z := Z.lxor (Z.lxor (rotr 17 x) (rotr 19 x)) (Z.shiftr x 10).

(** The largest [r] below [2 ^ bits] with [r ^ e ≤ n], found bit by bit. *)
Fixpoint iroot (e : Z) (bits : nat) (n r : Z) : Z :=
  match bits with
  | O => r
  | S b =>
    let r' := r + 2 ^ Z.of_nat b in
    iroot e b n (if r' ^ e <=? n then r' else r)
  end.

(** The first [n] primes at or after [k], by trial division. *)
Fixpoint primes_from (fuel n : nat) (k : Z) (acc : list Z) : list Z :=
  match fuel, n with
  | O, _ | _, O => reverse acc
  | S fuel', S n' =>
    if forallb (λ p, negb (k mod p =? 0)) acc
    then primes_from fuel' n' (k + 1) (k :: acc)
    else primes_from fuel' n (k + 1) acc
  end.

Definition primes64 : list Z := Eval vm_compute in primes_from 400 64 2 [].

(** The round constants: the first 32 bits of the fractional parts of the cube
    roots of the first 64 primes. *)
Definition K : list Z :=
  Eval vm_compute in (λ p, iroot 3 40 (p * 2 ^ 96) 0 mod 2 ^ 32) <$> primes64.

(** The initial hash value: the same of the square roots of the first 8. *)
Definition H_init : list Z :=
  Eval vm_compute in (λ p, iroot 2 40 (p * 2 ^ 64) 0 mod 2 ^ 32) <$> take 8 primes64.

Definition be32 (x : Z) : list Z :=
  [Z.shiftr x 24 mod 256; Z.shiftr x 16 mod 256; Z.shiftr x 8 mod 256; x mod 256].

Definition be64 (x : Z) : list Z := be32 (Z.shiftr x 32 mod 2 ^ 32) ++ be32 (x mod 2 ^ 32).

(** Padding: a one bit, zeros up to 56 modulo 64 octets, the bit length. *)
Definition pad (msg : list Z) : list Z :=
  let len := Z.of_nat (length msg) in
  msg ++ [0x80] ++ replicate (Z.to_nat ((55 - len) mod 64)) 0 ++ be64 (8 * len).

Fixpoint words (n : nat) (bytes : list Z) : list Z :=
  match n, bytes with
  | S n', b0 :: b1 :: b2 :: b3 :: rest =>
    (((b0 * 256 + b1) * 256 + b2) * 256 + b3) :: words n' rest
  | _, _ => []
  end.

Definition nth_word (l : list Z) (i : nat) : Z := default 0 (l !! i).

(** The message schedule, extended from 16 to 64 words. *)
Fixpoint schedule (n : nat) (w : list Z) : list Z :=
  match n with
  | O => w
  | S n' =>
    let t := length w in
    let x := add32 (add32 (sigma1 (nth_word w (t - 2))) (nth_word w (t - 7)))
                   (add32 (sigma0 (nth_word w (t - 15))) (nth_word w (t - 16))) in
    schedule n' (w ++ [x])
  end.

Record regs := Regs { ra : Z; rb : Z; rc : Z; rd : Z; re : Z; rf : Z; rg : Z; rh : Z }.

Definition round (s : regs) (kw : Z * Z) : regs :=
  let t1 := add32 (add32 (add32 (add32 (rh s) (Sigma1 (re s))) (Ch (re s) (rf s) (rg s)))
                         kw.1) kw.2 in
  let t2 := add32 (Sigma0 (ra s)) (Maj (ra s) (rb s) (rc s)) in
  Regs (add32 t1 t2) (ra s) (rb s) (rc s) (add32 (rd s) t1) (re s) (rf s) (rg s).

Definition compress (h : regs) (block : list Z) : regs :=
  let w := schedule 48 (words 16 block) in
  let s := foldl round h (zip K w) in
  Regs (add32 (ra h) (ra s)) (add32 (rb h) (rb s)) (add32 (rc h) (rc s))
       (add32 (rd h) (rd s)) (add32 (re h) (re s)) (add32 (rf h) (rf s))
       (add32 (rg h) (rg s)) (add32 (rh h) (rh s)).

Fixpoint blocks (n : nat) (h : regs) (bytes : list Z) : regs :=
  match n with
  | O => h
  | S n' => blocks n' (compress h (take 64 bytes)) (drop 64 bytes)
  end.

Definition init : regs :=
  Regs (nth_word H_init 0) (nth_word H_init 1) (nth_word H_init 2) (nth_word H_init 3)
       (nth_word H_init 4) (nth_word H_init 5) (nth_word H_init 6) (nth_word H_init 7).

(** [crypto.createHash("sha256").update(msg).digest()]: 32 octets. *)
Definition digest (msg : list Z) : list Z :=
  let p := pad msg in
  let h := blocks (length p / 64)%nat init p in
  be32 (ra h) ++ be32 (rb h) ++ be32 (rc h) ++ be32 (rd h) ++
  be32 (re h) ++ be32 (rf h) ++ be32 (rg h) ++ be32 (rh h).

End Sha256.

(** ** Base64, as [Buffer.prototype.toString("base64")] *)

Module Base64.

Definition alphabet : JS.jsstring :=
  JS.lit "ABCDEFGHIJKLMNOPQRSTUVWXYZabcdefghijklmnopqrstuvwxyz0123456789+/".

Definition digit (i : Z) : Z := default 0 (alphabet !! Z.to_nat i).

Definition pad_char : Z := 61.

Fixpoint encode_fuel (fuel : nat) (bytes : list Z) : JS.jsstring :=
  match fuel, bytes with
  | O, _ | _, [] => []
  | S _, [a] =>
    [digit (a / 4); digit (a mod 4 * 16); pad_char; pad_char]
  | S _, [a; b] =>
    [digit (a / 4); digit (a mod 4 * 16 + b / 16); digit (b mod 16 * 4); pad_char]
  | S fuel', a :: b :: c :: rest =>
    [digit (a / 4); digit (a mod 4 * 16 + b / 16);
     digit (b mod 16 * 4 + c / 64); digit (c mod 64)] ++ encode_fuel fuel' rest
  end.

Definition encode (bytes : list Z) : JS.jsstring := encode_fuel (length bytes) bytes.

End Base64.

(** ** Request proofs ([src/util/authentication.ts]) *)

(** What the client throws: a plain [Error], or one of the two exception
    classes of [src/exceptions], each with its message. *)
Inductive exn :=
  | Error (msg : JS.jsstring)
  | AuthFail (msg : JS.jsstring)
  | RequestNotSuccessful (msg : JS.jsstring).

(** The outcome of a call that may throw. *)
Inductive result (A : Type) :=
  | Ok (a : A)
  | Throw (e : exn).
Arguments Ok {A} a.
Arguments Throw {A} e.

Module Auth.

(** [b64]: the Base64 text of a buffer. *)
Definition b64 (data : JS.Buffer) : JS.jsstring := Base64.encode data.

(** The error [generateRequestProof] throws on a secret of the wrong length;
    the specification calls it [InvalidKeyMaterial]. *)
Definition InvalidKeyMaterial : exn := Error (JS.lit "secret must be 32 bytes").

(** One turn of the loop of [generateRequestProof] over [byteVal]. *)
Definition proof_step (work : JS.Buffer) (byteVal : Z) : JS.Buffer :=
  let idx := JS.rem byteVal 32 in
  let shiftIdx := JS.rem (idx + 1) 32 in
  let shiftAmount := JS.band (JS.Buffer_get work shiftIdx) 7 in
  let xorResult := JS.bxor byteVal (JS.Buffer_get work idx) in
  let rotated :=
    JS.band (JS.bor (JS.shl xorResult shiftAmount)
                    (JS.sar xorResult (8 - shiftAmount))) 0xff in
  JS.Buffer_set work idx rotated.

Definition generateRequestProof (baseString : JS.jsstring) (secret32 : JS.Buffer)
  : result JS.jsstring :=
  if negb (length secret32 =? 32)%nat then Throw InvalidKeyMaterial
  else
    let work := JS.Buffer_from secret32 in
    let baseStringBytes := JS.utf8_encode baseString in
    let work := foldl proof_step work baseStringBytes in
    let hash := Sha256.digest work in
    Ok (b64 hash).

(** [TOKEN_EXPIRATION]: one hour, in seconds. *)
Definition TOKEN_EXPIRATION : Z := 60 * 60.

(** [AccessToken]; [expiresAt] is a Unix time in seconds. *)
Record AccessToken := mkAccessToken {
  accessToken : JS.jsstring;
  refreshToken : JS.jsstring;
  expiresAt : Z;
}.

(** [createAccessToken], run when [Date.now()] reads [now_ms]. *)
Definition createAccessToken (now_ms : Z) (accessToken refreshToken : JS.jsstring)
  : AccessToken :=
  mkAccessToken accessToken refreshToken (now_ms / 1000 + TOKEN_EXPIRATION).

(** *** The algorithm as the specification words it *)

(** An 8-bit left rotation; a rotation by 0 is the identity. *)
Definition rotateLeft8 (x s : Z) : Z :=
  if s =? 0 then x else (x * 2 ^ s) mod 256 + x / 2 ^ (8 - s).

Definition reference_step (secret : list Z) (b : Z) : list Z :=
  let idx := b mod 32 in
  let shiftAmount := Z.land (secret !!! Z.to_nat ((idx + 1) mod 32)) 7 in
  <[Z.to_nat idx := rotateLeft8 (Z.lxor b (secret !!! Z.to_nat idx)) shiftAmount]> secret.

Definition reference_proof (message : JS.jsstring) (secret : list Z) : JS.jsstring :=
  Base64.encode (Sha256.digest (foldl reference_step secret (JS.utf8_encode message))).

(** The working buffer of the loop: 32 octets. *)
Definition proof_buffer (work : list Z) : Prop :=
  length work = 32%nat ∧ Forall JS.is_byte work.

(** The rotation expression of the source, on an octet and a shift below 8. *)
Definition rotated_expr (x s : Z) : Z :=
  JS.band (JS.bor (JS.shl x s) (JS.sar x (8 - s))) 0xff.

(** The secret of the examples: the octets 0, 1, ..., 31. *)
Definition sample_secret : list Z := seqZ 0 32.

(** [InstallationKey]. *)
Record InstallationKey := mkInstallationKey {
  secret : JS.Buffer;
  privateKey : JS.Buffer;
  installationId : JS.jsstring;
}.

(** [deriveSecretBytes]: the SHA-256 of
    [installationId.base64(pub).base64(sha256(installationId))]. *)
Definition deriveSecretBytes (installationId : JS.jsstring) (pubDerBytes : JS.Buffer)
  : JS.Buffer :=
  let pubB64 := b64 pubDerBytes in
  let instHash := Sha256.digest (JS.utf8_encode installationId) in
  let instHashB64 := b64 instHash in
  let triple :=
    installationId ++ JS.lit "." ++ pubB64 ++ JS.lit "." ++ instHashB64 in
  Sha256.digest (JS.utf8_encode triple).

(** [generateInstallationKey], given the key pair [crypto.generateKeyPairSync]
    drew: the PKCS#8 encoding of the private key and the SPKI encoding of the
    public key. *)
Definition generateInstallationKey (installationId : JS.jsstring)
    (privateKey pubBytes : JS.Buffer) : InstallationKey :=
  let secretBytes := deriveSecretBytes installationId pubBytes in
  mkInstallationKey secretBytes privateKey installationId.

(** [getBaseString], given the SPKI encoding [publicKeyDer] of the public key
    of the installation key. *)
Definition getBaseString (installationKey : InstallationKey) (publicKeyDer : JS.Buffer)
  : JS.jsstring :=
  let pubHash := Sha256.digest publicKeyDer in
  let pubHashB64 := b64 pubHash in
  installationId installationKey ++ JS.lit "." ++ pubHashB64.

End Auth.

(** ** Strings: the methods of [String.prototype] the codec uses *)

Module Str.

Definition LF : Z := 10.
Definition NUL : Z := 0.
Definition COLON : Z := 58.

(** [s.startsWith(sep)]. *)
Definition startsWith (s sep : JS.jsstring) : bool :=
  bool_decide (take (length sep) s = sep).

(** The first position at which [sep] occurs in [s]. *)
Fixpoint find (sep s : JS.jsstring) : option nat :=
  if startsWith s sep then Some 0%nat
  else match s with
       | [] => None
       | _ :: s' => S <$> find sep s'
       end.

(** [s.indexOf(sep)]: -1 when [sep] does not occur. *)
Definition indexOf (s sep : JS.jsstring) : Z :=
  match find sep s with
  | Some i => Z.of_nat i
  | None => -1
  end.

(** [s.substring(from, to)] and [s.substring(from)], for indices that are
    not negative. *)
Definition substring (s : JS.jsstring) (from to : Z) : JS.jsstring :=
  drop (Z.to_nat from) (take (Z.to_nat to) s).
Definition substring_from (s : JS.jsstring) (from : Z) : JS.jsstring :=
  drop (Z.to_nat from) s.

(** [s.endsWith(c)] for a one-unit string [c]. *)
Definition endsWith (s : JS.jsstring) (c : Z) : bool :=
  bool_decide (last s = Some c).

(** [s.slice(0, -1)]: all but the last unit. *)
Definition slice_but_last (s : JS.jsstring) : JS.jsstring :=
  take (length s - 1) s.

(** [fragments.join(sep)]. *)
Fixpoint join (sep : JS.jsstring) (fragments : list JS.jsstring) : JS.jsstring :=
  match fragments with
  | [] => []
  | [x] => x
  | x :: rest => x ++ sep ++ join sep rest
  end.

(** [s.split(sep)] for a separator that is not empty: the pieces between the
    occurrences of [sep], found from the left. Every turn consumes a unit at
    least, so [length s] turns are enough. *)
Fixpoint split_fuel (fuel : nat) (s sep : JS.jsstring) : list JS.jsstring :=
  match fuel with
  | O => [s]
  | S fuel' =>
    match find sep s with
    | None => [s]
    | Some i => take i s :: split_fuel fuel' (drop (i + length sep) s) sep
    end
  end.

Definition split (s sep : JS.jsstring) : list JS.jsstring :=
  split_fuel (length s) s sep.

(** [s.split(sep, limit)]: the first [limit] pieces; what follows them is
    dropped. *)
Definition split_limit (s sep : JS.jsstring) (limit : nat) : list JS.jsstring :=
  take limit (split s sep).

(** Whether a string counts as true in a condition: it is not empty. *)
Definition truthy (s : JS.jsstring) : bool :=
  match s with [] => false | _ => true end.

(** No blank line inside, and no line feed at the end. *)
Fixpoint blank_free (s : JS.jsstring) : bool :=
  match s with
  | [] => true
  | c :: s' =>
    if bool_decide (c = Str.LF) then
      match s' with
      | [] => false
      | d :: _ => negb (bool_decide (d = Str.LF)) && blank_free s'
      end
    else blank_free s'
  end.

(** A line of a frame: not empty, without a line feed. *)
Definition is_line (x : JS.jsstring) : Prop := x ≠ [] ∧ Str.LF ∉ x.

End Str.

(** ** The STOMP frame codec ([src/util/websocket.ts]) *)

Module Stomp.

(** [StompMessageType] of [src/const.ts], a string enumeration. *)
Inductive StompMessageType :=
  | CONNECT | CONNECTED | SUBSCRIBE | UNSUBSCRIBE | MESSAGE | ERROR.

Definition toString (t : StompMessageType) : JS.jsstring :=
  match t with
  | CONNECT => JS.lit "CONNECT"
  | CONNECTED => JS.lit "CONNECTED"
  | SUBSCRIBE => JS.lit "SUBSCRIBE"
  | UNSUBSCRIBE => JS.lit "UNSUBSCRIBE"
  | MESSAGE => JS.lit "MESSAGE"
  | ERROR => JS.lit "ERROR"
  end.

(** [encodeStompWsMessage]. [headers] is what [Object.entries] lists: the
    own properties of the object, every key once. [body] is [None] when the
    argument is left out. *)
Definition encodeStompWsMessage (msgType : StompMessageType)
    (headers : list (JS.jsstring * JS.jsstring)) (body : option JS.jsstring)
  : JS.jsstring :=
  let fragments :=
    [toString msgType] ++ ((λ kv, kv.1 ++ [Str.COLON] ++ kv.2) <$> headers) in
  let msg := Str.join [Str.LF] fragments in
  let msg := msg ++ [Str.LF; Str.LF] in
  let msg :=
    match body with
    | Some b => if Str.truthy b then msg ++ b else msg
    | None => msg
    end in
  msg ++ [Str.NUL].

(** What [decodeStompWsMessage] returns. [msgType] is the first line as it
    stands (the source casts it); [data] is [None] for [null]. *)
Record Frame := mkFrame {
  msgType : JS.jsstring;
  headers : gmap JS.jsstring JS.jsstring;
  data : option JS.jsstring;
}.

(** [headers[key] = value] on an object literal: the key [__proto__] is the
    accessor of [Object.prototype], which ignores a string. *)
Definition set_property (headers : gmap JS.jsstring JS.jsstring)
    (key value : JS.jsstring) : gmap JS.jsstring JS.jsstring :=
  if bool_decide (key = JS.lit "__proto__") then headers else <[key := value]> headers.

(** One turn of the loop over the header lines. *)
Definition decode_header_line (headers : gmap JS.jsstring JS.jsstring)
    (line : JS.jsstring) : gmap JS.jsstring JS.jsstring :=
  let colonIdx := Str.indexOf line [Str.COLON] in
  if 0 <? colonIdx then
    let key := Str.substring line 0 colonIdx in
    let value := Str.substring_from line (colonIdx + 1) in
    set_property headers key value
  else headers.

Definition decodeStompWsMessage (msg : JS.jsstring) : Frame :=
  let parts := Str.split_limit msg [Str.LF; Str.LF] 2 in
  let header := default [] (parts !! 0%nat) in
  let data := parts !! 1%nat in
  let metadata := Str.split header [Str.LF] in
  let msgType := default [] (metadata !! 0%nat) in
  let headers := foldl decode_header_line ∅ (drop 1 metadata) in
  (* data || null *)
  let processedData :=
    match data with
    | Some d => if Str.truthy d then Some d else None
    | None => None
    end in
  let processedData :=
    match processedData with
    | Some d => if Str.endsWith d Str.NUL then Some (Str.slice_but_last d) else Some d
    | None => None
    end in
  mkFrame msgType headers processedData.

(** The frame the round-trip law of the specification promises for
    [decode (encode t h b)]. *)
Definition round_trip_frame (t : StompMessageType)
    (h : list (JS.jsstring * JS.jsstring)) (b : option JS.jsstring) : Frame :=
  mkFrame (toString t) (list_to_map h)
          (match b with
           | Some body => if Str.truthy body then Some body else None
           | None => None
           end).

(** A header the line format carries unchanged: the key is not empty, holds
    no colon and no line feed and is not [__proto__]; the value holds no line
    feed. *)
Definition header_ok (kv : JS.jsstring * JS.jsstring) : Prop :=
  kv.1 ≠ [] ∧ (Str.LF ∉ kv.1) ∧ (Str.COLON ∉ kv.1) ∧ kv.1 ≠ JS.lit "__proto__"
  ∧ (Str.LF ∉ kv.2).

Definition header_line (kv : JS.jsstring * JS.jsstring) : JS.jsstring :=
  kv.1 ++ [Str.COLON] ++ kv.2.

(** The headers of the CONNECT frame of the specification's scenario. *)
Definition connect_headers : list (JS.jsstring * JS.jsstring) :=
  [(JS.lit "host", JS.lit "x"); (JS.lit "accept-version", JS.lit "1.2,1.1,1.0")].

(** What a header line gives for [key]: what follows [key] and a colon, when
    the line starts with them. *)
Definition header_value (key line : JS.jsstring) : option JS.jsstring :=
  if Str.startsWith line (key ++ [Str.COLON])
  then Some (drop (length key + 1) line)
  else None.

(** The body of a frame, from what follows its first blank line: [null] when
    nothing does, else that text less one closing NUL. *)
Definition frame_body (rest : JS.jsstring) : option JS.jsstring :=
  match rest with
  | [] => None
  | _ => Some (if bool_decide (last rest = Some Str.NUL)
               then take (length rest - 1) rest else rest)
  end.

(** A frame as the server sends one: a header given twice, a value with a
    colon in it, a line without a colon. *)
Definition sample_frame_lines : list JS.jsstring :=
  [JS.lit "destination:/ws/sn/AB123/dashboard"; JS.lit "receipt";
   JS.lit "message-id:7:1"; JS.lit "destination:/queue/other"].

End Stomp.

(** ** The cloud client: access tokens ([src/clients/cloud.ts]) *)

Module Cloud.

(** [TOKEN_TIME_TO_REFRESH] of [src/const.ts]: ten minutes, in seconds. *)
Definition TOKEN_TIME_TO_REFRESH : Z := 10 * 60.

Definition CUSTOMER_APP_URL : JS.jsstring :=
  JS.lit "https://lion.lamarzocco.io/api/customer-app".

(** The decimal digits of an integer that is not negative, as a template
    literal prints a status code. *)
Fixpoint digits (fuel : nat) (n : Z) (acc : JS.jsstring) : JS.jsstring :=
  match fuel with
  | O => acc
  | S fuel' =>
    let acc' := (48 + n mod 10) :: acc in
    if n <? 10 then acc' else digits fuel' (n / 10) acc'
  end.

Definition Number_toString (n : Z) : JS.jsstring :=
  if n <? 0 then 45 :: digits (Z.to_nat (- n)) (- n) [] else digits (S (Z.to_nat n)) n [].

(** The two token requests: where they are posted and what they carry. *)
Inductive Request :=
  | SignInRequest (username password : JS.jsstring)
  | RefreshRequest (username refreshToken : JS.jsstring).

Definition url (r : Request) : JS.jsstring :=
  match r with
  | SignInRequest _ _ => CUSTOMER_APP_URL ++ JS.lit "/auth/signin"
  | RefreshRequest _ _ => CUSTOMER_APP_URL ++ JS.lit "/auth/refreshtoken"
  end.

(** How [client.post] settles: a response with its status and the two fields
    read off its body, a rejection that is an axios error (with the status of
    its response, when it has one) or any other exception. *)
Inductive HttpOutcome :=
  | Responded (status : Z) (accessToken refreshToken : JS.jsstring)
  | AxiosError (status : option Z) (message : JS.jsstring)
  | OtherError (e : exn).

(** [isSuccess] of [src/util/generic.ts]. *)
Definition isSuccess (status : Z) : bool := (200 <=? status) && (status <? 300).

(** [asyncGetToken] once the request has settled, [Date.now()] reading
    [now_ms]. The exceptions thrown in the [try] block are no axios errors:
    the [catch] block throws them again. *)
Definition asyncGetToken (now_ms : Z) (settled : HttpOutcome) : result Auth.AccessToken :=
  match settled with
  | Responded status accessToken refreshToken =>
    if isSuccess status then Ok (Auth.createAccessToken now_ms accessToken refreshToken)
    else if status =? 401 then Throw (AuthFail (JS.lit "Invalid username or password"))
    else Throw (RequestNotSuccessful
                  (JS.lit "Request to auth endpoint failed with status code "
                   ++ Number_toString status))
  | AxiosError status message =>
    if bool_decide (status = Some 401)
    then Throw (AuthFail (JS.lit "Invalid username or password"))
    else Throw (RequestNotSuccessful
                  (JS.lit "Request auth to endpoint failed with error: " ++ message))
  | OtherError e => Throw e
  end.

(** The fields of [LaMarzoccoCloudClient] the token logic reads and writes. *)
Record Client := mkClient {
  username : JS.jsstring;
  password : JS.jsstring;
  accessToken : option Auth.AccessToken;
  accessTokenLock : bool;
}.

Definition set_lock (b : bool) (c : Client) : Client :=
  mkClient (username c) (password c) (accessToken c) b.
Definition set_token (t : Auth.AccessToken) (c : Client) : Client :=
  mkClient (username c) (password c) (Some t) (accessTokenLock c).

(** Where a call of [asyncGetAccessToken] stands: asleep in the lock loop,
    awaiting the token request it posted, or returned. *)
Inductive Phase :=
  | Sleeping
  | Awaiting (req : Request)
  | Returned (r : result JS.jsstring).

(** [asyncGetAccessToken] from the test of the lock loop to its next
    [await], [Math.floor(Date.now() / 1000)] reading [now]: the client, the
    phase reached and the requests posted on the way. The installation key
    is taken to be well formed, so that [generateExtraRequestHeaders] returns
    and the request is posted. *)
Definition attempt (now : Z) (c : Client) : Client * Phase * list Request :=
  if accessTokenLock c then (c, Sleeping, [])
  else
    let c := set_lock true c in
    match accessToken c with
    | None =>
      let req := SignInRequest (username c) (password c) in
      (c, Awaiting req, [req])
    | Some tok =>
      if Auth.expiresAt tok <? now then
        let req := SignInRequest (username c) (password c) in
        (c, Awaiting req, [req])
      else if Auth.expiresAt tok <? now + TOKEN_TIME_TO_REFRESH then
        let req := RefreshRequest (username c) (Auth.refreshToken tok) in
        (c, Awaiting req, [req])
      else (set_lock false c, Returned (Ok (Auth.accessToken tok)), [])
    end.

(** [asyncGetAccessToken] from the settling of its request to its return:
    the assignment when a token came, the [finally] block in both cases. *)
Definition resume (r : result Auth.AccessToken) (c : Client) : Client * Phase :=
  match r with
  | Ok tok => (set_lock false (set_token tok c), Returned (Ok (Auth.accessToken tok)))
  | Throw e => (set_lock false c, Returned (Throw e))
  end.

(** The client with the calls of [asyncGetAccessToken] made so far and the
    token requests posted so far, oldest first. *)
Record System := mkSystem {
  client : Client;
  callers : list Phase;
  posted : list Request;
}.

(** What the event loop runs next: a new call, the 100 ms timer of a sleeping
    call, or the settling of the request of a call. *)
Inductive Event :=
  | Call (now : Z)
  | Wake (i : nat) (now : Z)
  | Settle (i : nat) (now_ms : Z) (settled : HttpOutcome).

Definition step (s : System) (e : Event) : System :=
  match e with
  | Call now =>
    let '(c, ph, reqs) := attempt now (client s) in
    mkSystem c (callers s ++ [ph]) (posted s ++ reqs)
  | Wake i now =>
    match callers s !! i with
    | Some Sleeping =>
      let '(c, ph, reqs) := attempt now (client s) in
      mkSystem c (<[i := ph]> (callers s)) (posted s ++ reqs)
    | _ => s
    end
  | Settle i now_ms settled =>
    match callers s !! i with
    | Some (Awaiting _) =>
      let '(c, ph) := resume (asyncGetToken now_ms settled) (client s) in
      mkSystem c (<[i := ph]> (callers s)) (posted s)
    | _ => s
    end
  end.

Definition run (s : System) (events : list Event) : System := foldl step s events.

(** A new client: no token, the lock free, nothing called yet. *)
Definition init (username password : JS.jsstring) : System :=
  mkSystem (mkClient username password None false) [] [].

Definition awaiting (ph : Phase) : bool :=
  match ph with Awaiting _ => true | _ => false end.

(** The number of token requests in flight. *)
Fixpoint in_flight (phases : list Phase) : nat :=
  match phases with
  | [] => 0
  | ph :: rest => ((if awaiting ph then 1 else 0) + in_flight rest)%nat
  end.

Definition flight (ph : Phase) : nat := if awaiting ph then 1%nat else 0%nat.

(** The lock is held exactly while one request is in flight. *)
Definition lock_invariant (s : System) : Prop :=
  in_flight (callers s) = if accessTokenLock (client s) then 1%nat else 0%nat.

(** A token that needs neither a sign-in nor a refresh at second [now]. *)
Definition fresh_at (tok : Auth.AccessToken) (now : Z) : Prop :=
  now + 600 ≤ Auth.expiresAt tok.

(** Whether the policy posts a request at second [now]: no token is held,
    or the one held is expired or within ten minutes of expiring. *)
Definition needs_request (now : Z) (tok : option Auth.AccessToken) : bool :=
  match tok with
  | None => true
  | Some t => Auth.expiresAt t <? now + 600
  end.

(** The policy in the words of the specification: the request that is due at
    second [now] for the token the client holds, a sign-in when none is held
    or the one held has expired, a refresh with its refresh token when it
    expires within ten minutes, none otherwise. *)
Definition due_request (now : Z) (c : Client) : option Request :=
  match accessToken c with
  | None => Some (SignInRequest (username c) (password c))
  | Some tok =>
    if Auth.expiresAt tok <? now
    then Some (SignInRequest (username c) (password c))
    else if Auth.expiresAt tok <? now + 600
    then Some (RefreshRequest (username c) (Auth.refreshToken tok))
    else None
  end.

(** What the policy has a caller do that holds the lock: await the request
    that is due, or return the access token held. *)
Definition policy_phase (now : Z) (c : Client) : Phase :=
  match due_request now c with
  | Some req => Awaiting req
  | None =>
    Returned (Ok (match accessToken c with
                  | Some tok => Auth.accessToken tok
                  | None => []
                  end))
  end.

(** The client after a caller that found the lock free has gone by the
    policy: the lock is held while a request is awaited. *)
Definition policy_client (now : Z) (c : Client) : Client :=
  match due_request now c with
  | Some _ => set_lock true c
  | None => c
  end.

(** A client holding a token issued at second 1000. *)
Definition sample_client : Client :=
  mkClient (JS.lit "user") (JS.lit "secret")
           (Some (Auth.createAccessToken 1000000 (JS.lit "access") (JS.lit "refresh")))
           false.

End Cloud.

(** ** The cloud client: commands and their confirmation *)

Module Commands.

(** [PENDING_COMMAND_TIMEOUT] of [src/const.ts], in milliseconds. *)
Definition PENDING_COMMAND_TIMEOUT : Z := 10000.

(** [CommandStatus.SUCCESS]. *)
Definition SUCCESS : JS.jsstring := JS.lit "Success".

(** [CommandResponse]; the status is the string the server sent. *)
Record CommandResponse := mkCommandResponse {
  id : JS.jsstring;
  status : JS.jsstring;
  errorCode : option JS.jsstring;
}.

(** A timeout set by [executeCommand]: when it is due, and the [cr.id] its
    callback closes over. *)
Record Timeout := mkTimeout {
  due : Z;
  cmd_id : JS.jsstring;
}.

(** What the commands share. The [n]-th call of [executeCommand] owns promise
    [n] and timeout [n]; [pendingCommands] maps an id to the call whose
    [resolve] closure is stored under it; [resolutions] lists, for every
    promise, the values its [resolve] function was called with, in order
    (the promise takes the first). *)
Record State := mkState {
  connected : bool;
  pendingCommands : gmap JS.jsstring nat;
  timeouts : gmap nat Timeout;
  resolutions : gmap nat (list bool);
  calls : nat;
}.

Definition resolve_calls (s : State) (n : nat) : list bool :=
  default [] (resolutions s !! n).

(** [resolve(value)] of promise [n]. *)
Definition resolve (n : nat) (value : bool) (s : State) : State :=
  mkState (connected s) (pendingCommands s) (timeouts s)
          (<[n := resolve_calls s n ++ [value]]> (resolutions s)) (calls s).

(** [clearTimeout] of timeout [n]. *)
Definition clearTimeout (n : nat) (s : State) : State :=
  mkState (connected s) (pendingCommands s) (delete n (timeouts s))
          (resolutions s) (calls s).

(** [this.pendingCommands.delete(id)]. *)
Definition pending_delete (id : JS.jsstring) (s : State) : State :=
  mkState (connected s) (delete id (pendingCommands s)) (timeouts s)
          (resolutions s) (calls s).

(** The [resolve] closure call [n] stores in [pendingCommands]. *)
Definition pending_resolve (n : nat) (result : CommandResponse) (s : State) : State :=
  let s := clearTimeout n s in
  if bool_decide (status result = SUCCESS) then resolve n true s
  else resolve n false s.

(** The callback of timeout [n], closing over [id]. *)
Definition timeout_callback (n : nat) (id : JS.jsstring) (s : State) : State :=
  let s := pending_delete id s in
  resolve n false s.

(** [executeCommand] from the answer [cr] of the POST on, [Date.now()]
    reading [now]. Without a connected websocket the call returns [true];
    otherwise it sets its timeout and stores its closure. *)
Definition executeCommand (now : Z) (cr : CommandResponse) (s : State) : State :=
  let n := calls s in
  let s := mkState (connected s) (pendingCommands s) (timeouts s)
                   (resolutions s) (S n) in
  if negb (connected s) then resolve n true s
  else
    mkState (connected s)
            (<[id cr := n]> (pendingCommands s))
            (<[n := mkTimeout (now + PENDING_COMMAND_TIMEOUT) (id cr)]> (timeouts s))
            (resolutions s) (calls s).

(** One turn of the loop of [parseWebsocketMessage] over [config.commands]. *)
Definition notify_command (s : State) (command : CommandResponse) : State :=
  match pendingCommands s !! id command with
  | Some n => pending_delete (id command) (pending_resolve n command s)
  | None => s
  end.

Definition parseWebsocketMessage (commands : list CommandResponse) (s : State)
  : State :=
  foldl notify_command s commands.

(** What the event loop runs, and when: a call of [executeCommand] resuming
    with the answer of its POST, a MESSAGE frame with the commands its body
    lists, a timeout, the websocket opening or closing. *)
Inductive Event :=
  | Issue (now : Z) (cr : CommandResponse)
  | Message (now : Z) (commands : list CommandResponse)
  | Elapse (now : Z) (n : nat)
  | Socket (now : Z) (up : bool).

(** A timeout runs once, when armed and due. *)
Definition step (s : State) (e : Event) : State :=
  match e with
  | Issue now cr => executeCommand now cr s
  | Message _ commands => parseWebsocketMessage commands s
  | Elapse now n =>
    match timeouts s !! n with
    | Some t =>
      if due t <=? now then timeout_callback n (cmd_id t) (clearTimeout n s) else s
    | None => s
    end
  | Socket _ up =>
    mkState up (pendingCommands s) (timeouts s) (resolutions s) (calls s)
  end.

Definition run (s : State) (events : list Event) : State := foldl step s events.

Definition init : State := mkState false ∅ ∅ ∅ 0.

(** What holds of the commands whatever the event loop has run: a stored
    closure has its timeout armed, closing over the id it is stored under; an
    armed timeout belongs to a call made, whose promise nothing resolved yet;
    no promise was resolved twice; the calls to come have resolved nothing. *)
Record wf (s : State) : Prop := mkWf {
  wf_pending : ∀ i n, pendingCommands s !! i = Some n →
                      ∃ d, timeouts s !! n = Some (mkTimeout d i);
  wf_armed : ∀ n t, timeouts s !! n = Some t →
                    (n < calls s)%nat ∧ resolve_calls s n = [];
  wf_once : ∀ n, (length (resolve_calls s n) ≤ 1)%nat;
  wf_fresh : ∀ n, (calls s ≤ n)%nat → resolve_calls s n = [];
}.

(** Call [n] waits under [i] with its timeout due at [d], and no other
    armed timeout closes over [i]. *)
Definition registered (s : State) (i : JS.jsstring) (n : nat) (d : Z) : Prop :=
  pendingCommands s !! i = Some n
  ∧ timeouts s !! n = Some (mkTimeout d i)
  ∧ resolve_calls s n = []
  ∧ ∀ m t, timeouts s !! m = Some t → cmd_id t = i → m = n.

(** An event that leaves the command under [i] waiting: a call answered
    with another id, a frame that does not list [i], a timeout other than
    [n], or [n] itself before it is due. *)
Definition quiet (i : JS.jsstring) (n : nat) (d : Z) (e : Event) : Prop :=
  match e with
  | Issue _ cr => id cr ≠ i
  | Message _ commands => Forall (λ c, id c ≠ i) commands
  | Elapse now m => m = n → now < d
  | Socket _ _ => True
  end.

(** The command of the examples and the history before it: the websocket
    opens at time 0. *)
Definition sample_ack : CommandResponse :=
  mkCommandResponse (JS.lit "cmd-1") (JS.lit "Pending") None.

Definition sample_confirmation : CommandResponse :=
  mkCommandResponse (JS.lit "cmd-1") (JS.lit "Success") None.

End Commands.

(** ** Dashboard frames ([src/clients/cloud.ts], [src/models/general.ts]) *)

Module Receive.

Section Outputs.

(** The [output] object of a widget. The client stores the object and hands
    it on as it is: the same object is reached from the widget and from the
    table built below. *)
Context {Output : Type}.

(** [Widget]: [output] is [None] when the field is [null] or left out. *)
Record Widget := mkWidget {
  code : JS.jsstring;
  output : option Output;
}.

(** The object that starts as [{}] and is filled by
    [config[widget.code] = widget.output]: its own properties and its
    prototype, [None] for [Object.prototype]. *)
Record ConfigObject := mkConfigObject {
  own : gmap JS.jsstring Output;
  proto : option Output;
}.

Definition empty_object : ConfigObject := mkConfigObject ∅ None.

(** [config[key] = value] for an object [value]: under the key [__proto__]
    the accessor of [Object.prototype] makes [value] the prototype and no
    property is made. *)
Definition set_output (o : ConfigObject) (key : JS.jsstring) (value : Output)
  : ConfigObject :=
  if bool_decide (key = JS.lit "__proto__") then mkConfigObject (own o) (Some value)
  else mkConfigObject (<[key := value]> (own o)) (proto o).

(** One turn of the loop over the widgets. *)
Definition widget_step (o : ConfigObject) (widget : Widget) : ConfigObject :=
  if Str.truthy (code widget) then
    match output widget with
    | Some out => set_output o (code widget) out
    | None => o
    end
  else o.

Definition widgets_config (widgets : list Widget) : ConfigObject :=
  foldl widget_step empty_object widgets.

(** [ThingDashboardWebsocketConfig], with the fields the client reads or
    writes; a field is [None] when the body leaves it out. *)
Record ThingDashboardWebsocketConfig := mkConfig {
  widgets : option (list Widget);
  config : option ConfigObject;
  commands : option (list Commands.CommandResponse);
}.

(** What a widget gives for [key]: its output, when it carries the key. *)
Definition output_under (key : JS.jsstring) (widget : Widget) : option Output :=
  if bool_decide (code widget = key) then output widget else None.

(** The transformation of the widgets array, as [parseWebsocketMessage] and
    [getThingDashboard] both write it. *)
Definition transform_widgets (c : ThingDashboardWebsocketConfig)
  : ThingDashboardWebsocketConfig :=
  match widgets c with
  | Some ws => mkConfig (widgets c) (Some (widgets_config ws)) (commands c)
  | None => c
  end.

End Outputs.

Arguments Widget : clear implicits.
Arguments ConfigObject : clear implicits.
Arguments ThingDashboardWebsocketConfig : clear implicits.

(** The elements a [for ... of] loop takes from a string: its code points,
    a high surrogate with the low one that follows it making one. *)
Fixpoint code_points (s : JS.jsstring) : list JS.jsstring :=
  match s with
  | [] => []
  | c :: rest =>
    match rest with
    | d :: rest' =>
      if (55296 <=? c) && (c <=? 56319) && (56320 <=? d) && (d <=? 57343)
      then [c; d] :: code_points rest'
      else [c] :: code_points rest
    | [] => [[c]]
    end
  end.

Section Bodies.

(** The numbers of a body; the client does no arithmetic on them. *)
Context {number : Type}.

(** What [JSON.parse] returns. An object keeps its members as the text
    lists them. *)
#[warnings="-register-all"] Inductive value :=
  | JNull
  | JBool (b : bool)
  | JNumber (x : number)
  | JString (s : JS.jsstring)
  | JArray (items : list value)
  | JObject (members : list (JS.jsstring * value)).

(** What is thrown on the way. *)
Inductive error := SyntaxError | TypeError.

(** [v.name] on a value that is not [null], for the names the client reads
    ([widgets], [commands], [code], [output], [id], [status]), which no
    prototype has: the member of an object, the last one when the text
    gives the name more than once, and [undefined] on anything else. *)
Definition field (v : value) (name : JS.jsstring) : option value :=
  match v with
  | JObject members =>
    last (omap (λ kv : JS.jsstring * value,
                  if bool_decide (kv.1 = name) then Some kv.2 else None) members)
  | _ => None
  end.

(** Whether a number counts as true in a condition (it is not zero), the
    property key a value that is no string is turned into, [None] when that
    throws, and [JSON.parse], [None] when the text is no JSON. *)
Variable number_truthy : number → bool.
Variable other_key : value → option JS.jsstring.
Variable JSON_parse : JS.jsstring → option value.

(** Whether what was read counts as true in a condition. *)
Definition truthy (v : option value) : bool :=
  match v with
  | None | Some JNull => false
  | Some (JBool b) => b
  | Some (JNumber x) => number_truthy x
  | Some (JString s) => Str.truthy s
  | Some (JArray _) | Some (JObject _) => true
  end.

Definition to_key (v : value) : option JS.jsstring :=
  match v with
  | JString s => Some s
  | _ => other_key v
  end.

(** [config.config[key] = output]: under [__proto__] an object becomes the
    prototype and anything else is ignored. *)
Definition assign (o : ConfigObject value) (key : JS.jsstring) (output : value)
  : ConfigObject value :=
  match output with
  | JArray _ | JObject _ => set_output o key output
  | _ =>
    if bool_decide (key = JS.lit "__proto__") then o
    else mkConfigObject (<[key := output]> (own o)) (proto o)
  end.

(** One turn of the loop over [config.widgets]; [None] when it throws. *)
Definition widget_turn (o : ConfigObject value) (widget : value)
  : option (ConfigObject value) :=
  match widget with
  | JNull => None
  | _ =>
    if truthy (field widget (JS.lit "code")) && truthy (field widget (JS.lit "output"))
    then
      match field widget (JS.lit "code"), field widget (JS.lit "output") with
      | Some code, Some output =>
        match to_key code with
        | Some key => Some (assign o key output)
        | None => None
        end
      | _, _ => Some o
      end
    else Some o
  end.

Fixpoint widgets_loop (o : ConfigObject value) (items : list value)
  : option (ConfigObject value) :=
  match items with
  | [] => Some o
  | widget :: rest =>
    match widget_turn o widget with
    | Some o' => widgets_loop o' rest
    | None => None
    end
  end.

(** The table [config.config] is given: none when [config.widgets] is no
    array. The outer [None] is for a loop that throws. *)
Definition widgets_table (config : value) : option (option (ConfigObject value)) :=
  match field config (JS.lit "widgets") with
  | Some (JArray items) =>
    match widgets_loop empty_object items with
    | Some o => Some (Some o)
    | None => None
    end
  | _ => Some None
  end.

(** What [config.commands || []] gives the loop to go through; [None] when
    the value is true in a condition and cannot be iterated. *)
Definition iterated (commands : option value) : option (list value) :=
  if truthy commands then
    match commands with
    | Some (JArray items) => Some items
    | Some (JString s) => Some (JString <$> code_points s)
    | _ => None
    end
  else Some [].

(** The status the [resolve] closure compares with [Success]: one that is
    no string is not [Success], and is read as the empty string. *)
Definition status_text (command : value) : JS.jsstring :=
  match field command (JS.lit "status") with
  | Some (JString t) => t
  | _ => []
  end.

(** What the loop makes of an element of [config.commands]: reading [id]
    off [null] throws; an [id] that is no string is no key of the pending
    map, whose keys are strings; otherwise the element is matched as a
    [CommandResponse]. *)
Inductive Reading :=
  | Throws
  | Skipped
  | Entry (c : Commands.CommandResponse).

Definition read_command (command : value) : Reading :=
  match command with
  | JNull => Throws
  | _ =>
    match field command (JS.lit "id") with
    | Some (JString i) => Entry (Commands.mkCommandResponse i (status_text command) None)
    | _ => Skipped
    end
  end.

(** The loop over the commands: the commands reached, and whether it came
    to its end. *)
Fixpoint commands_loop (s : Commands.State) (items : list value)
  : Commands.State * bool :=
  match items with
  | [] => (s, true)
  | command :: rest =>
    match read_command command with
    | Throws => (s, false)
    | Skipped => commands_loop s rest
    | Entry c => commands_loop (Commands.notify_command s c) rest
    end
  end.

(** What [notificationCallback] is handed: the object parsed, and the table
    its [config] field was given, when it was given one. *)
Record Notification := mkNotification {
  parsed : value;
  table : option (ConfigObject value);
}.

(** The client as the frames of the websocket change it: the commands, and
    what was handed to [notificationCallback], oldest first. *)
Record Client := mkClient {
  commands_state : Commands.State;
  notified : list Notification;
}.

(** [parseWebsocketMessage]: the client it leaves and what it threw, if it
    did; [callback] tells whether a [notificationCallback] was given. *)
Definition parseWebsocketMessage (message : option JS.jsstring) (callback : bool)
    (s : Client) : Client * option error :=
  match message with
  | None => (s, None)
  | Some text =>
    if negb (Str.truthy text) then (s, None)
    else
      match JSON_parse text with
      | None => (s, Some SyntaxError)
      | Some JNull => (s, Some TypeError)
      | Some config =>
        match widgets_table config with
        | None => (s, Some TypeError)
        | Some given =>
          match iterated (field config (JS.lit "commands")) with
          | None => (s, Some TypeError)
          | Some items =>
            let reached := commands_loop (commands_state s) items in
            if reached.2
            then (mkClient reached.1
                           (if callback
                            then notified s ++ [mkNotification config given]
                            else notified s),
                  None)
            else (mkClient reached.1 (notified s), Some TypeError)
          end
        end
      end
  end.


(** The elements before the first [null], and the commands matched among
    them. *)
Fixpoint before_null (items : list value) : list value :=
  match items with
  | [] => []
  | JNull :: _ => []
  | item :: rest => item :: before_null rest
  end.

Definition entry (command : value) : option Commands.CommandResponse :=
  match read_command command with
  | Entry c => Some c
  | _ => None
  end.

Definition reached (items : list value) : list Commands.CommandResponse :=
  omap entry (before_null items).



End Bodies.

Arguments value : clear implicits.
Arguments Notification : clear implicits.
Arguments Client : clear implicits.









End Receive.

(** ** The websocket session ([setupWebsocketConnection],
    [src/models/general.ts]) *)

Module Session.

Definition BASE_URL : JS.jsstring := JS.lit "lion.lamarzocco.io".

(** [ws.readyState]. *)
Inductive ReadyState := CONNECTING | OPEN | CLOSING | CLOSED.

(** The socket as the client drives it: its state, and the frames handed to
    [ws.send] while it was open, oldest first. *)
Record WebSocket := mkWebSocket {
  readyState : ReadyState;
  sent : list JS.jsstring;
}.

(** [ws.send(msg)] from a handler that runs on an open socket; a socket
    that is closing or closed sends nothing. *)
Definition send (msg : JS.jsstring) (ws : WebSocket) : WebSocket :=
  match readyState ws with
  | OPEN => mkWebSocket OPEN (sent ws ++ [msg])
  | _ => ws
  end.

(** [ws.close()]: on an open socket the closing handshake starts. *)
Definition close (ws : WebSocket) : WebSocket :=
  match readyState ws with
  | OPEN => mkWebSocket CLOSING (sent ws)
  | _ => ws
  end.

(** The CONNECT and SUBSCRIBE frames of [setupWebsocketConnection]. *)
Definition connectMsg (accessToken : JS.jsstring) : JS.jsstring :=
  Stomp.encodeStompWsMessage Stomp.CONNECT
    [(JS.lit "host", BASE_URL);
     (JS.lit "accept-version", JS.lit "1.2,1.1,1.0");
     (JS.lit "heart-beat", JS.lit "0,0");
     (JS.lit "Authorization", JS.lit "Bearer " ++ accessToken)]
    None.

Definition subscribe_headers (serialNumber subscriptionId : JS.jsstring)
  : list (JS.jsstring * JS.jsstring) :=
  [(JS.lit "destination", JS.lit "/ws/sn/" ++ serialNumber ++ JS.lit "/dashboard");
   (JS.lit "ack", JS.lit "auto");
   (JS.lit "id", subscriptionId);
   (JS.lit "content-length", JS.lit "0")].

Definition subscribeMsg (serialNumber subscriptionId : JS.jsstring) : JS.jsstring :=
  Stomp.encodeStompWsMessage Stomp.SUBSCRIBE
    (subscribe_headers serialNumber subscriptionId) None.

Definition disconnectMsg (subscriptionId : JS.jsstring) : JS.jsstring :=
  Stomp.encodeStompWsMessage Stomp.UNSUBSCRIBE [(JS.lit "id", subscriptionId)] None.

(** The closure [disconnectWebsocket], which holds the socket and the
    subscription id. *)
Definition disconnectWebsocket (subscriptionId : JS.jsstring) (ws : WebSocket)
  : WebSocket :=
  match readyState ws with
  | OPEN => close (send (disconnectMsg subscriptionId) ws)
  | _ => ws
  end.

(** [WebSocketDetails]: whether it was given a socket, and the subscription
    id its disconnect callback closes over, when it was given one. *)
Record WebSocketDetails := mkWebSocketDetails {
  has_ws : bool;
  disconnectCallback : option JS.jsstring;
}.

(** [new WebSocketDetails()]. *)
Definition no_websocket : WebSocketDetails := mkWebSocketDetails false None.

(** The getter [connected] and the method [disconnect], on the socket the
    details hold. *)
Definition connected (details : WebSocketDetails) (ws : WebSocket) : bool :=
  if has_ws details then
    match readyState ws with OPEN => true | _ => false end
  else false.

Definition disconnect (details : WebSocketDetails) (ws : WebSocket) : WebSocket :=
  match disconnectCallback details with
  | Some subscriptionId => disconnectWebsocket subscriptionId ws
  | None => ws
  end.

(** [setupWebsocketConnection] once the token is there and the handlers are
    set: the socket, [this.websocket], whether [messageHandler] is still a
    listener and whether the promise has been resolved. *)
Record Setup := mkSetup {
  socket : WebSocket;
  websocket : WebSocketDetails;
  listening : bool;
  resolved : bool;
}.

(** The handler of the open event. *)
Definition on_open (accessToken : JS.jsstring) (s : Setup) : Setup :=
  mkSetup (send (connectMsg accessToken) (mkWebSocket OPEN (sent (socket s))))
          (websocket s) (listening s) (resolved s).

(** [messageHandler] on the frame [data], [randomUUID()] returning
    [subscriptionId]. *)
Definition messageHandler (serialNumber subscriptionId data : JS.jsstring) (s : Setup)
  : Setup :=
  if negb (listening s) then s
  else if bool_decide (Stomp.msgType (Stomp.decodeStompWsMessage data)
                       = Stomp.toString Stomp.CONNECTED)
  then mkSetup (send (subscribeMsg serialNumber subscriptionId) (socket s))
               (mkWebSocketDetails true (Some subscriptionId)) false true
  else s.

(** The setup on a socket that connects, before the client had a
    websocket. *)
Definition setup : Setup :=
  mkSetup (mkWebSocket CONNECTING []) no_websocket true false.

(** [setupWebsocketConnection] from its call on. The socket was made by
    the caller and connects meanwhile; the handlers are set only once
    [asyncGetAccessToken] has returned, and [handlers] holds the token they
    close over from then on. An event that finds no listener is lost; an
    error event that finds none is thrown by the emitter, an exception
    nothing catches. When [asyncGetAccessToken] throws, the executor, an
    async function, stops there: nothing is set, the promise of the setup is
    left as it is, and the promise of the executor is rejected with no
    handler on it. *)
Record Connecting := mkConnecting {
  awaiting_token : bool;
  handlers : option JS.jsstring;
  progress : Setup;
  rejected : bool;
  uncaught : bool;
  unhandled_rejection : bool;
}.

(** The hooks of the process the client runs in: a listener of
    [unhandledRejection], a listener of [uncaughtException]. *)
Record Host := mkHost {
  on_unhandledRejection : bool;
  on_uncaughtException : bool;
}.

(** Node from version 15 on, with its default settings: no hooks. *)
Definition default_host : Host := mkHost false false.

(** Whether the process has ended. A rejection without a handler goes to
    the [unhandledRejection] hook; without that hook it is raised as an
    exception nothing catches, and such an exception ends the process unless
    the [uncaughtException] hook is set. *)
Definition ended (host : Host) (c : Connecting) : bool :=
  (unhandled_rejection c && negb (on_unhandledRejection host)
   && negb (on_uncaughtException host))
  || (uncaught c && negb (on_uncaughtException host)).

Inductive SocketEvent :=
  | TokenReturned (accessToken : JS.jsstring)
  | TokenThrown
  | Opened
  | Received (subscriptionId data : JS.jsstring)
  | Errored.

Definition connecting : Connecting :=
  mkConnecting true None setup false false false.

Definition socket_step (host : Host) (serialNumber : JS.jsstring) (c : Connecting)
    (e : SocketEvent) : Connecting :=
  if ended host c then c
  else
    match e with
    | TokenReturned accessToken =>
      if awaiting_token c
      then mkConnecting false (Some accessToken) (progress c) (rejected c)
                        (uncaught c) (unhandled_rejection c)
      else c
    | TokenThrown =>
      if awaiting_token c
      then mkConnecting false None (progress c) (rejected c) (uncaught c) true
      else c
    | Opened =>
      match readyState (socket (progress c)) with
      | CONNECTING =>
        let p := progress c in
        let opened :=
          match handlers c with
          | Some accessToken => on_open accessToken p
          | None => mkSetup (mkWebSocket OPEN (sent (socket p))) (websocket p)
                            (listening p) (resolved p)
          end in
        mkConnecting (awaiting_token c) (handlers c) opened (rejected c)
                     (uncaught c) (unhandled_rejection c)
      | _ => c
      end
    | Received subscriptionId data =>
      match handlers c with
      | Some _ =>
        mkConnecting (awaiting_token c) (handlers c)
                     (messageHandler serialNumber subscriptionId data (progress c))
                     (rejected c) (uncaught c) (unhandled_rejection c)
      | None => c
      end
    | Errored =>
      match handlers c with
      | Some _ =>
        mkConnecting (awaiting_token c) (handlers c) (progress c)
                     (rejected c || negb (resolved (progress c))) (uncaught c)
                     (unhandled_rejection c)
      | None =>
        mkConnecting (awaiting_token c) None (progress c) (rejected c) true
                     (unhandled_rejection c)
      end
    end.

Definition socket_run (host : Host) (serialNumber : JS.jsstring) (c : Connecting)
    (events : list SocketEvent) : Connecting :=
  foldl (socket_step host serialNumber) c events.

(** No frame of type CONNECTED is received. *)
Definition no_CONNECTED (e : SocketEvent) : Prop :=
  match e with
  | Received _ data =>
    Stomp.msgType (Stomp.decodeStompWsMessage data) ≠ Stomp.toString Stomp.CONNECTED
  | _ => True
  end.

Definition is_error (e : SocketEvent) : bool :=
  match e with Errored => true | _ => false end.

(** What holds once the socket has opened with no listener set: nothing was
    sent, the setup is not resolved and the handshake handler still
    listens. *)
Definition silent (c : Connecting) : Prop :=
  readyState (socket (progress c)) = OPEN
  ∧ sent (socket (progress c)) = []
  ∧ resolved (progress c) = false
  ∧ listening (progress c) = true.

End Session.

(** ** The cloud client: the reconnect loop of [websocketConnect] *)

Module Reconnect.

(** How one connection goes: an error event before the CONNECTED frame
    ([setupWebsocketConnection] rejects); a handshake that completes, the
    socket closing later; a socket that closes before CONNECTED with no
    error event ([setupWebsocketConnection] never settles). *)
Inductive Connection :=
  | HandshakeFails
  | ClosesAfterHandshake
  | HandshakeHangs.

(** What the loop does, in order. *)
Inductive Action :=
  | NewWebSocket
  | ConnectCallback
  | DisconnectCallback
  | LogConnectionError
  | Sleep (ms : Z).

(** How the run ends: the function returns, waits for ever, or is still in
    its loop when the connections listed have all ended. *)
Inductive Ending :=
  | Returns
  | Hangs
  | Loops.

(** [websocketConnect] against the connections of [script], with or without
    the two callbacks. [autoReconnect] is a parameter the body never
    assigns. *)
Fixpoint websocketConnect (connectCallback disconnectCallback autoReconnect : bool)
    (script : list Connection) : list Action * Ending :=
  if negb autoReconnect then ([], Returns)
  else
    match script with
    | [] => ([], Loops)
    | conn :: rest =>
      let next := websocketConnect connectCallback disconnectCallback autoReconnect rest in
      match conn with
      | ClosesAfterHandshake =>
        ([NewWebSocket]
           ++ (if connectCallback then [ConnectCallback] else [])
           ++ (if disconnectCallback then [DisconnectCallback] else [])
           ++ next.1,
         next.2)
      | HandshakeFails =>
        if negb autoReconnect then ([NewWebSocket; LogConnectionError], Returns)
        else ([NewWebSocket; LogConnectionError; Sleep 5000] ++ next.1, next.2)
      | HandshakeHangs => ([NewWebSocket], Hangs)
      end
    end.

(** The connections a run gets to: those up to the first whose handshake
    hangs, that one included. *)
Fixpoint attempted (script : list Connection) : list Connection :=
  match script with
  | [] => []
  | HandshakeHangs :: _ => [HandshakeHangs]
  | conn :: rest => conn :: attempted rest
  end.

Definition fails (conn : Connection) : bool :=
  match conn with HandshakeFails => true | _ => false end.
Definition completes (conn : Connection) : bool :=
  match conn with ClosesAfterHandshake => true | _ => false end.

Definition count {A : Type} (p : A → bool) (l : list A) : nat :=
  length (List.filter p l).

(** The sleeps of a run, in order, and its other actions. *)
Definition sleeps (actions : list Action) : list Z :=
  omap (λ a, match a with Sleep ms => Some ms | _ => None end) actions.
Definition opens (a : Action) : bool :=
  match a with NewWebSocket => true | _ => false end.
Definition connects (a : Action) : bool :=
  match a with ConnectCallback => true | _ => false end.
Definition disconnects (a : Action) : bool :=
  match a with DisconnectCallback => true | _ => false end.

End Reconnect.

(** ** Model codes and names ([src/const.ts]) *)

Module Const.

Inductive ModelCode :=
  | LINEA_MINI | LINEA_MICRA | LINEA_MINI_R | GS3 | GS3_MP | GS3_AV
  | PICO_GRINDER | SWAN_GRINDER.

(** The string of a [ModelCode]. *)
Definition code (m : ModelCode) : JS.jsstring :=
  match m with
  | LINEA_MINI => JS.lit "LINEAMINI"
  | LINEA_MICRA => JS.lit "LINEAMICRA"
  | LINEA_MINI_R => JS.lit "LINEAMINIR"
  | GS3 => JS.lit "GS3"
  | GS3_MP => JS.lit "GS3MP"
  | GS3_AV => JS.lit "GS3AV"
  | PICO_GRINDER => JS.lit "PICOGRINDER"
  | SWAN_GRINDER => JS.lit "SWANGRINDER"
  end.

(** The string of the [ModelName] of the same model. *)
Definition name (m : ModelCode) : JS.jsstring :=
  match m with
  | LINEA_MINI => JS.lit "Linea Mini"
  | LINEA_MICRA => JS.lit "Linea Micra"
  | LINEA_MINI_R => JS.lit "Linea Mini R"
  | GS3 => JS.lit "GS3"
  | GS3_MP => JS.lit "GS3 MP"
  | GS3_AV => JS.lit "GS3 AV"
  | PICO_GRINDER => JS.lit "Pico"
  | SWAN_GRINDER => JS.lit "Swan"
  end.

Definition models : list ModelCode :=
  [LINEA_MINI; LINEA_MICRA; LINEA_MINI_R; GS3; GS3_MP; GS3_AV;
   PICO_GRINDER; SWAN_GRINDER].

(** A text of ASCII units. *)
Definition ascii (s : JS.jsstring) : Prop := Forall (λ c, 0 ≤ c < 128) s.

(** [s.toUpperCase()] on a text of ASCII units: the small letters are
    raised. *)
Definition upper (c : Z) : Z := if (97 <=? c) && (c <=? 122) then c - 32 else c.
Definition toUpperCase (s : JS.jsstring) : JS.jsstring := upper <$> s.

(** The units the class [\s] matches. *)
Definition is_space (c : Z) : bool :=
  ((9 <=? c) && (c <=? 13)) || (c =? 32) || (c =? 160) || (c =? 5760)
  || ((8192 <=? c) && (c <=? 8202)) || (c =? 8232) || (c =? 8233)
  || (c =? 8239) || (c =? 8287) || (c =? 12288) || (c =? 65279).

(** [s.replace(/\s/g, "")]. *)
Definition remove_spaces (s : JS.jsstring) : JS.jsstring :=
  List.filter (λ c, negb (is_space c)) s.

(** The own properties of [mapping], each with the model it names. *)
Definition mapping : list (JS.jsstring * ModelCode) :=
  [(JS.lit "GS3MP", GS3_MP);
   (JS.lit "GS3AV", GS3_AV);
   (JS.lit "LINEAMINI2023", LINEA_MINI_R);
   (JS.lit "LINEAMICRA", LINEA_MICRA);
   (JS.lit "LINEAMINI", LINEA_MINI);
   (JS.lit "MICRA", LINEA_MICRA);
   (JS.lit "PICOGRINDER", PICO_GRINDER);
   (JS.lit "SWANGRINDER", SWAN_GRINDER)].

Fixpoint assoc (key : JS.jsstring) (l : list (JS.jsstring * ModelCode))
  : option ModelCode :=
  match l with
  | [] => None
  | (k, m) :: rest => if bool_decide (k = key) then Some m else assoc key rest
  end.

(** [modelNameFromString], on a text of ASCII units; the result is the
    model whose [ModelName] is returned. The names [mapping] inherits from
    [Object.prototype] all hold small letters, which [key] has none of. *)
Definition modelNameFromString (text : JS.jsstring) : result ModelCode :=
  let key := remove_spaces (toUpperCase text) in
  match assoc key mapping with
  | Some m => Ok m
  | None => Throw (Error (JS.lit "Invalid model name: " ++ text))
  end.

End Const.

(** ** Devices ([src/devices/thing.ts], [src/devices/machine.ts]) *)

Module Device.

(** Objects are reached by reference: a [loc] names an object of the heap,
    and two references to one object are one [loc]. *)
Definition loc : Type := nat.

Section Numbers.

(** The numbers the device layer stores and hands on; it does no arithmetic
    on them. *)
Context {number : Type}.

Inductive Value :=
  | VUndefined
  | VNull
  | VBool (b : bool)
  | VString (s : JS.jsstring)
  | VNumber (x : number)
  | VRef (l : loc).

(** The objects [JSON.parse] made: their own properties. Their prototype is
    [Object.prototype], which has none of the names read below. *)
Definition Heap : Type := gmap loc (gmap JS.jsstring Value).

Definition fields (h : Heap) (l : loc) : gmap JS.jsstring Value :=
  default ∅ (h !! l).

(** What a method of the device layer throws: one of its own exceptions, a
    [TypeError] of the language, or what the cloud client threw. *)
Inductive thrown :=
  | CloudOnlyFunctionality
  | UnsupportedModel (msg : JS.jsstring)
  | TypeError
  | Rethrown (e : exn).

Inductive completion (A : Type) :=
  | Return (a : A)
  | Raise (t : thrown).
Arguments Return {A} a.
Arguments Raise {A} t.

(** The widget types the machine reads. *)
Inductive WidgetType :=
  | CM_MACHINE_STATUS
  | CM_COFFEE_BOILER
  | CM_STEAM_BOILER_LEVEL
  | CM_STEAM_BOILER_TEMPERATURE
  | CM_BREW_BY_WEIGHT_DOSES.

Definition widget_code (w : WidgetType) : JS.jsstring :=
  match w with
  | CM_MACHINE_STATUS => JS.lit "CMMachineStatus"
  | CM_COFFEE_BOILER => JS.lit "CMCoffeeBoiler"
  | CM_STEAM_BOILER_LEVEL => JS.lit "CMSteamBoilerLevel"
  | CM_STEAM_BOILER_TEMPERATURE => JS.lit "CMSteamBoilerTemperature"
  | CM_BREW_BY_WEIGHT_DOSES => JS.lit "CMBrewByWeightDoses"
  end.

Inductive SteamTargetLevel := LEVEL_1 | LEVEL_2 | LEVEL_3.

Definition level_string (l : SteamTargetLevel) : JS.jsstring :=
  match l with
  | LEVEL_1 => JS.lit "Level1"
  | LEVEL_2 => JS.lit "Level2"
  | LEVEL_3 => JS.lit "Level3"
  end.

Inductive DoseMode := CONTINUOUS | PULSES_TYPE | DOSE_1 | DOSE_2.

(** [MachineMode.BREWING_MODE] and [MachineMode.STANDBY]. *)
Definition machine_mode (enabled : bool) : JS.jsstring :=
  if enabled then JS.lit "BrewingMode" else JS.lit "StandBy".

(** [ThingDashboardConfig], with the fields the device layer reads or
    writes; [{}] has none of them. *)
Record ThingDashboardConfig := mkDashboard {
  modelCode : option JS.jsstring;
  widgets : option (list (Receive.Widget loc));
  config : option (Receive.ConfigObject loc);
}.

Definition empty_dashboard : ThingDashboardConfig := mkDashboard None None None.

(** [getThingDashboard] of the cloud client, from the answer of the request
    on. *)
Definition getThingDashboard (answer : ThingDashboardConfig) : ThingDashboardConfig :=
  match widgets answer with
  | Some ws => mkDashboard (modelCode answer) (widgets answer)
                           (Some (Receive.widgets_config ws))
  | None => answer
  end.

(** [LaMarzoccoMachine]: whether it was given a cloud client, and its
    dashboard. *)
Record LaMarzoccoMachine := mkMachine {
  cloudClient : bool;
  dashboard : ThingDashboardConfig;
}.

(** The constructor. *)
Definition new_machine (client : bool) : LaMarzoccoMachine :=
  mkMachine client empty_dashboard.

(** The methods of the cloud client the machine calls, with their
    arguments after the serial number. *)
Inductive CloudCall :=
  | CallSetPower (enabled : bool)
  | CallSetSteam (enabled : bool)
  | CallSetSteamTargetLevel (level : SteamTargetLevel)
  | CallSetCoffeeTargetTemperature (temperature : number)
  | CallSetSteamTargetTemperature (temperature : number)
  | CallChangeBrewByWeightDoseMode (mode : DoseMode)
  | CallSetBrewByWeightDose (dose1 dose2 : Value).

(** [getDashboard], the call of the cloud client answering [fetched]. *)
Definition getDashboard (fetched : result ThingDashboardConfig)
    (m : LaMarzoccoMachine) : completion unit * LaMarzoccoMachine :=
  if negb (cloudClient m) then (Raise CloudOnlyFunctionality, m)
  else
    match fetched with
    | Throw e => (Raise (Rethrown e), m)
    | Ok answer => (Return tt, mkMachine (cloudClient m) (getThingDashboard answer))
    end.

(** [websocketDashboardUpdateReceived], up to the call of the user's
    callback. *)
Definition websocketDashboardUpdateReceived
    (update : Receive.ThingDashboardWebsocketConfig loc) (m : LaMarzoccoMachine)
  : LaMarzoccoMachine :=
  mkMachine (cloudClient m)
            (mkDashboard (modelCode (dashboard m)) (Receive.widgets update)
                         (Receive.config update)).

(** [checkModelSupported]. *)
Definition checkModelSupported (d : ThingDashboardConfig)
    (supportedModels : list Const.ModelCode) : completion unit :=
  if bool_decide (modelCode d ∈ (λ m, Some (Const.code m)) <$> supportedModels)
  then Return tt
  else
    let supportedNames := Str.join (JS.lit ", ") (Const.code <$> supportedModels) in
    Raise (UnsupportedModel
             (JS.lit "This functionality is only supported on: "
              ++ supportedNames ++ JS.lit ".")).

(** [key in o], for the table [o] and a widget type [key]: an own property,
    or one of the prototype. *)
Definition has_property (h : Heap) (o : Receive.ConfigObject loc) (key : WidgetType)
  : bool :=
  match Receive.own o !! widget_code key with
  | Some _ => true
  | None =>
    match Receive.proto o with
    | Some p => bool_decide (is_Some (fields h p !! widget_code key))
    | None => false
    end
  end.

(** [o[key]]. *)
Definition get_property (h : Heap) (o : Receive.ConfigObject loc) (key : WidgetType)
  : Value :=
  match Receive.own o !! widget_code key with
  | Some l => VRef l
  | None =>
    match Receive.proto o with
    | Some p => default VUndefined (fields h p !! widget_code key)
    | None => VUndefined
    end
  end.

(** [target.field = value], in the strict mode a module is in: on an object
    the property is set; on anything else the assignment throws. *)
Definition set_field (h : Heap) (target : Value) (field : JS.jsstring) (value : Value)
  : completion Heap :=
  match target with
  | VRef l => Return (<[l := <[field := value]> (fields h l)]> h)
  | _ => Raise TypeError
  end.

(** [target.field], for a field [Object.prototype] and the prototypes of the
    primitive values do not have. *)
Definition get_field (h : Heap) (target : Value) (field : JS.jsstring)
  : completion Value :=
  match target with
  | VRef l => Return (default VUndefined (fields h l !! field))
  | VUndefined | VNull => Raise TypeError
  | _ => Return VUndefined
  end.

(** The block the setters share:
    [if (key in this.dashboard.config) { this.dashboard.config[key].field = value }].
    The operator [in] throws on a table that is [undefined]. *)
Definition update_widget (h : Heap) (d : ThingDashboardConfig) (key : WidgetType)
    (field : JS.jsstring) (value : Value) : completion Heap :=
  match config d with
  | None => Raise TypeError
  | Some o =>
    if has_property h o key then set_field h (get_property h o key) field value
    else Return h
  end.

(** [setPower], the call of the cloud client answering [answer]: what the
    method returns or throws, the heap it leaves and the calls it made. *)
Definition setPower (enabled : bool) (answer : result bool) (m : LaMarzoccoMachine)
    (h : Heap) : completion bool * Heap * list CloudCall :=
  if negb (cloudClient m) then (Raise CloudOnlyFunctionality, h, [])
  else
    let made := [CallSetPower enabled] in
    match answer with
    | Throw e => (Raise (Rethrown e), h, made)
    | Ok result =>
      if result then
        match update_widget h (dashboard m) CM_MACHINE_STATUS (JS.lit "mode")
                            (VString (machine_mode enabled)) with
        | Return h' => (Return result, h', made)
        | Raise t => (Raise t, h, made)
        end
      else (Return result, h, made)
    end.

Definition setSteam (enabled : bool) (answer : result bool) (m : LaMarzoccoMachine)
    (h : Heap) : completion bool * Heap * list CloudCall :=
  if negb (cloudClient m) then (Raise CloudOnlyFunctionality, h, [])
  else
    let made := [CallSetSteam enabled] in
    match answer with
    | Throw e => (Raise (Rethrown e), h, made)
    | Ok result =>
      if result then
        match update_widget h (dashboard m) CM_STEAM_BOILER_LEVEL (JS.lit "enabled")
                            (VBool enabled) with
        | Return h1 =>
          match update_widget h1 (dashboard m) CM_STEAM_BOILER_TEMPERATURE
                              (JS.lit "enabled") (VBool enabled) with
          | Return h2 => (Return result, h2, made)
          | Raise t => (Raise t, h1, made)
          end
        | Raise t => (Raise t, h, made)
        end
      else (Return result, h, made)
    end.

Definition setSteamLevel (level : SteamTargetLevel) (answer : result bool)
    (m : LaMarzoccoMachine) (h : Heap) : completion bool * Heap * list CloudCall :=
  match checkModelSupported (dashboard m) [Const.LINEA_MICRA; Const.LINEA_MINI_R] with
  | Raise t => (Raise t, h, [])
  | Return _ =>
    if negb (cloudClient m) then (Raise CloudOnlyFunctionality, h, [])
    else
      let made := [CallSetSteamTargetLevel level] in
      match answer with
      | Throw e => (Raise (Rethrown e), h, made)
      | Ok result =>
        if result then
          match update_widget h (dashboard m) CM_STEAM_BOILER_LEVEL
                              (JS.lit "targetLevel") (VString (level_string level)) with
          | Return h' => (Return result, h', made)
          | Raise t => (Raise t, h, made)
          end
        else (Return result, h, made)
      end
  end.

Definition setCoffeeTargetTemperature (temperature : number) (answer : result bool)
    (m : LaMarzoccoMachine) (h : Heap) : completion bool * Heap * list CloudCall :=
  if negb (cloudClient m) then (Raise CloudOnlyFunctionality, h, [])
  else
    let made := [CallSetCoffeeTargetTemperature temperature] in
    match answer with
    | Throw e => (Raise (Rethrown e), h, made)
    | Ok result =>
      if result then
        match update_widget h (dashboard m) CM_COFFEE_BOILER
                            (JS.lit "targetTemperature") (VNumber temperature) with
        | Return h' => (Return result, h', made)
        | Raise t => (Raise t, h, made)
        end
      else (Return result, h, made)
    end.

Definition setSteamTargetTemperature (temperature : number) (answer : result bool)
    (m : LaMarzoccoMachine) (h : Heap) : completion bool * Heap * list CloudCall :=
  match checkModelSupported (dashboard m) [Const.GS3; Const.GS3_AV; Const.GS3_MP] with
  | Raise t => (Raise t, h, [])
  | Return _ =>
    if negb (cloudClient m) then (Raise CloudOnlyFunctionality, h, [])
    else
      let made := [CallSetSteamTargetTemperature temperature] in
      match answer with
      | Throw e => (Raise (Rethrown e), h, made)
      | Ok result =>
        if result then
          match update_widget h (dashboard m) CM_STEAM_BOILER_TEMPERATURE
                              (JS.lit "targetTemperature") (VNumber temperature) with
          | Return h' => (Return result, h', made)
          | Raise t => (Raise t, h, made)
          end
        else (Return result, h, made)
      end
  end.

(** [return await this.cloudClient...]. *)
Definition awaited (answer : result bool) : completion bool :=
  match answer with
  | Ok result => Return result
  | Throw e => Raise (Rethrown e)
  end.

Definition setBrewByWeightDoseMode (mode : DoseMode) (answer : result bool)
    (m : LaMarzoccoMachine) (h : Heap) : completion bool * Heap * list CloudCall :=
  match checkModelSupported (dashboard m) [Const.LINEA_MINI; Const.LINEA_MINI_R] with
  | Raise t => (Raise t, h, [])
  | Return _ =>
    if negb (cloudClient m) then (Raise CloudOnlyFunctionality, h, [])
    else (awaited answer, h, [CallChangeBrewByWeightDoseMode mode])
  end.

(** [brewByWeight.doses.<which>.dose]. *)
Definition stored_dose (h : Heap) (brewByWeight : Value) (which : JS.jsstring)
  : completion Value :=
  match get_field h brewByWeight (JS.lit "doses") with
  | Raise t => Raise t
  | Return doses =>
    match get_field h doses which with
    | Raise t => Raise t
    | Return entry => get_field h entry (JS.lit "dose")
    end
  end.

Definition setBrewByWeightDose (dose : DoseMode) (value : number)
    (answer : result bool) (m : LaMarzoccoMachine) (h : Heap)
  : completion bool * Heap * list CloudCall :=
  match checkModelSupported (dashboard m) [Const.LINEA_MINI; Const.LINEA_MINI_R] with
  | Raise t => (Raise t, h, [])
  | Return _ =>
    if negb (cloudClient m) then (Raise CloudOnlyFunctionality, h, [])
    else
      match config (dashboard m) with
      | None => (Raise TypeError, h, [])
      | Some o =>
        if negb (has_property h o CM_BREW_BY_WEIGHT_DOSES) then (Return false, h, [])
        else
          let brewByWeight := get_property h o CM_BREW_BY_WEIGHT_DOSES in
          match dose with
          | DOSE_1 =>
            match stored_dose h brewByWeight (JS.lit "dose2") with
            | Raise t => (Raise t, h, [])
            | Return dose2 =>
              (awaited answer, h, [CallSetBrewByWeightDose (VNumber value) dose2])
            end
          | DOSE_2 =>
            match stored_dose h brewByWeight (JS.lit "dose1") with
            | Raise t => (Raise t, h, [])
            | Return dose1 =>
              (awaited answer, h, [CallSetBrewByWeightDose dose1 (VNumber value)])
            end
          | _ => (Return false, h, [])
          end
      end
  end.

(** What the setters keep to, [answer] being what the call of the cloud
    client answers and [h] the heap before: at most one call is made; the
    method returns [true], or changes an object, only after a call that
    answered [true]; and what a call threw is thrown on as it is. *)
Definition reports_the_cloud (answer : result bool) (h : Heap)
    (out : completion bool * Heap * list CloudCall) : Prop :=
  (length out.2 ≤ 1)%nat
  ∧ (out.1.1 = Return true → answer = Ok true ∧ out.2 ≠ [])
  ∧ (out.1.2 ≠ h → answer = Ok true ∧ out.2 ≠ [])
  ∧ (∀ e, answer = Throw e → out.2 ≠ [] → out.1.1 = Raise (Rethrown e)).

End Numbers.

Arguments Value : clear implicits.
Arguments Heap : clear implicits.
Arguments CloudCall : clear implicits.
Arguments Return {A} a.
Arguments Raise {A} t.

(** The dashboard of the examples: a machine status given twice, the second
    time without an output, and a coffee boiler; temperatures in tenths of a
    degree. *)
Definition sample_widgets : list (Receive.Widget loc) :=
  [Receive.mkWidget (JS.lit "CMMachineStatus") (Some 1%nat);
   Receive.mkWidget (JS.lit "CMCoffeeBoiler") (Some 2%nat);
   Receive.mkWidget (JS.lit "CMMachineStatus") None].

Definition sample_heap : Heap Z :=
  {[ 1%nat := {[ JS.lit "mode" := VString (JS.lit "StandBy") ]};
     2%nat := {[ JS.lit "targetTemperature" := VNumber 930 ]} ]}.

Definition sample_fetched : ThingDashboardConfig :=
  mkDashboard (Some (JS.lit "LINEAMICRA")) (Some sample_widgets) None.

Definition sample_pushed : Receive.ThingDashboardWebsocketConfig loc :=
  Receive.mkConfig (Some sample_widgets) None None.

End Device.

(** * Properties *)

Example sha256_empty :
  Base64.encode (Sha256.digest []) = JS.lit "47DEQpj8HBSa+/TImW+5JCeuQeRkm5NMpJWZG3hSuFU=".
Proof. vm_compute. reflexivity. Qed.

Example sha256_abc :
  Base64.encode (Sha256.digest (JS.utf8_encode (JS.lit "abc")))
  = JS.lit "ungWv48Bz+pBQUDeXa4iI7ADYaOWF3qctBD/YfIAFa0=".
Proof. vm_compute. reflexivity. Qed.

Example sha256_two_blocks :
  Base64.encode (Sha256.digest (JS.utf8_encode
    (JS.lit "abcdbcdecdefdefgefghfghighijhijkijkljklmklmnlmnomnopnopq")))
  = JS.lit "JI1qYdIGOLjlwCaTDD5gOaM85Flk/yFn9uzt1BnbBsE=".
Proof. vm_compute. reflexivity. Qed.

(** The UTF-8 octets of a string with two-, three- and four-octet code
    points, the last held as a surrogate pair. *)
Example utf8_encode_sample :
  JS.utf8_encode [0x63; 0x61; 0x66; 0xE9; 0x20; 0x20AC; 0x20; 0xD83D; 0xDE00]
  = [99; 97; 102; 195; 169; 32; 226; 130; 172; 32; 240; 159; 152; 128].
Proof. vm_compute. reflexivity. Qed.

(** Two proofs computed by the source on the secret 0, 1, ..., 31. *)
Example generateRequestProof_ascii :
  Auth.generateRequestProof (JS.lit "installation.nonce.1700000000000") Auth.sample_secret
  = Ok (JS.lit "+dorOLiMeJBfMBH8Jks2nJnh9zCN9W3lDST07YiCPyc=").
Proof. vm_compute. reflexivity. Qed.

Example generateRequestProof_unicode :
  Auth.generateRequestProof
    [0x63; 0x61; 0x66; 0xE9; 0x20; 0x20AC; 0x20; 0xD83D; 0xDE00] Auth.sample_secret
  = Ok (JS.lit "cOf0NUNhWTLqFcI+uqRdK6P/j7REGHIlHM8QSHOaJVs=").
Proof. vm_compute. reflexivity. Qed.

(** ** Bit-level facts about octets *)

Section Octets.

Import Auth.

Lemma to_int32_small (x : Z) : - 2 ^ 31 ≤ x < 2 ^ 31 → JS.to_int32 x = x.
Proof.
  intros Hx. unfold JS.to_int32.
  rewrite Z.mod_small by lia. lia.
Qed.

Lemma lor_below_pow2 (a b n : Z) :
  0 ≤ n → 0 ≤ a < 2 ^ n → 0 ≤ b < 2 ^ n → 0 ≤ Z.lor a b < 2 ^ n.
Proof.
  intros Hn Ha Hb. split; [apply Z.lor_nonneg; lia|].
  destruct (Z.eq_dec (Z.lor a b) 0) as [->|Hne]; [lia|].
  assert (0 < Z.lor a b) by (pose proof (Z.lor_nonneg a b); lia).
  assert (0 < n).
  { destruct (Z.eq_dec n 0) as [->|]; [|lia].
    assert (a = 0) as -> by lia. assert (b = 0) as -> by lia. done. }
  apply Z.log2_lt_pow2; [done|].
  rewrite Z.log2_lor by lia.
  apply Z.max_lub_lt.
  - destruct (Z.eq_dec a 0) as [->|]; [simpl; lia|]. apply Z.log2_lt_pow2; lia.
  - destruct (Z.eq_dec b 0) as [->|]; [simpl; lia|]. apply Z.log2_lt_pow2; lia.
Qed.

Lemma lxor_below_pow2 (a b n : Z) :
  0 ≤ n → 0 ≤ a < 2 ^ n → 0 ≤ b < 2 ^ n → 0 ≤ Z.lxor a b < 2 ^ n.
Proof.
  intros Hn Ha Hb. split; [apply Z.lxor_nonneg; lia|].
  destruct (Z.eq_dec (Z.lxor a b) 0) as [->|Hne]; [lia|].
  assert (0 ≤ Z.lxor a b) by (apply Z.lxor_nonneg; lia).
  assert (0 < n).
  { destruct (Z.eq_dec n 0) as [->|]; [|lia].
    assert (a = 0) as -> by lia. assert (b = 0) as -> by lia. done. }
  apply Z.log2_lt_pow2; [lia|].
  eapply Z.le_lt_trans; [apply Z.log2_lxor; lia|].
  apply Z.max_lub_lt.
  - destruct (Z.eq_dec a 0) as [->|]; [simpl; lia|]. apply Z.log2_lt_pow2; lia.
  - destruct (Z.eq_dec b 0) as [->|]; [simpl; lia|]. apply Z.log2_lt_pow2; lia.
Qed.

Lemma land_ones_below (a k : Z) : 0 ≤ k → 0 ≤ Z.land a (Z.ones k) < 2 ^ k.
Proof. intros Hk. rewrite Z.land_ones by done. apply Z.mod_pos_bound. lia. Qed.

Lemma bxor_octets (a b : Z) :
  JS.is_byte a → JS.is_byte b → JS.bxor a b = Z.lxor a b ∧ JS.is_byte (Z.lxor a b).
Proof.
  unfold JS.is_byte, JS.bxor. intros Ha Hb.
  rewrite !to_int32_small by lia. split; [done|].
  apply (lxor_below_pow2 a b 8); lia.
Qed.

Lemma band7_octet (w : Z) :
  JS.is_byte w → JS.band w 7 = Z.land w 7 ∧ 0 ≤ Z.land w 7 < 8.
Proof.
  unfold JS.is_byte, JS.band. intros Hw.
  rewrite !to_int32_small by lia. split; [done|].
  apply (land_ones_below w 3). lia.
Qed.

Lemma rotated_expr_table :
  forallb (λ x, forallb (λ s, rotated_expr x s =? Auth.rotateLeft8 x s) (seqZ 0 8))
          (seqZ 0 256) = true.
Proof. vm_compute. reflexivity. Qed.

Lemma rotated_expr_rotateLeft8 (x s : Z) :
  JS.is_byte x → 0 ≤ s < 8 → rotated_expr x s = Auth.rotateLeft8 x s.
Proof.
  intros Hx Hs.
  pose proof rotated_expr_table as Ht.
  rewrite forallb_forall in Ht.
  specialize (Ht x). rewrite forallb_forall in Ht.
  apply Z.eqb_eq, Ht.
  - apply list_elem_of_In, elem_of_seqZ. unfold JS.is_byte in Hx. lia.
  - apply list_elem_of_In, elem_of_seqZ. lia.
Qed.

(** The reference rotation moves bit [i - s] (modulo 8) to bit [i]. *)
Lemma rotateLeft8_table :
  forallb (λ x, forallb (λ s, forallb (λ i,
      Bool.eqb (Z.testbit (Auth.rotateLeft8 x s) i) (Z.testbit x ((i - s) mod 8)))
    (seqZ 0 8)) (seqZ 0 8)) (seqZ 0 256) = true.
Proof. vm_compute. reflexivity. Qed.

Lemma rotateLeft8_octet_table :
  forallb (λ x, forallb (λ s, (0 <=? Auth.rotateLeft8 x s) && (Auth.rotateLeft8 x s <? 256))
    (seqZ 0 8)) (seqZ 0 256) = true.
Proof. vm_compute. reflexivity. Qed.

Lemma rotateLeft8_octet (x s : Z) :
  JS.is_byte x → 0 ≤ s < 8 → JS.is_byte (Auth.rotateLeft8 x s).
Proof.
  intros Hx Hs.
  pose proof rotateLeft8_octet_table as Ht.
  rewrite forallb_forall in Ht.
  specialize (Ht x). rewrite forallb_forall in Ht.
  specialize (Ht (ltac:(apply list_elem_of_In, elem_of_seqZ; unfold JS.is_byte in Hx; lia)) s
                 (ltac:(apply list_elem_of_In, elem_of_seqZ; lia))).
  apply andb_true_iff in Ht as [H1 H2]. unfold JS.is_byte. lia.
Qed.

End Octets.

Lemma rotateLeft8_testbit (x s i : Z) :
  JS.is_byte x → 0 ≤ s < 8 → 0 ≤ i < 8 →
  Z.testbit (Auth.rotateLeft8 x s) i = Z.testbit x ((i - s) mod 8).
Proof.
  intros Hx Hs Hi.
  pose proof rotateLeft8_table as Ht.
  rewrite forallb_forall in Ht. specialize (Ht x).
  rewrite forallb_forall in Ht. specialize (Ht
    (ltac:(apply list_elem_of_In, elem_of_seqZ; unfold JS.is_byte in Hx; lia)) s).
  rewrite forallb_forall in Ht. specialize (Ht
    (ltac:(apply list_elem_of_In, elem_of_seqZ; lia)) i
    (ltac:(apply list_elem_of_In, elem_of_seqZ; lia))).
  by apply Bool.eqb_prop in Ht.
Qed.

(** ** UTF-8 output is made of octets *)

Section Utf8.

Lemma masked_lead_octet (lead x k : Z) :
  0 ≤ k ≤ 8 → 0 ≤ lead < 256 → JS.is_byte (Z.lor lead (Z.land x (Z.ones k))).
Proof.
  intros Hk Hl. apply (lor_below_pow2 _ _ 8); [lia|lia|].
  pose proof (land_ones_below x k ltac:(lia)) as Hb.
  assert (2 ^ k ≤ 2 ^ 8) by (apply Z.pow_le_mono_r; lia). lia.
Qed.

Lemma utf8_cont_octet (cp shift : Z) : JS.is_byte (JS.utf8_cont cp shift).
Proof. unfold JS.utf8_cont. apply (masked_lead_octet 0x80 _ 6); lia. Qed.

Lemma utf8_code_point_octets (cp : Z) :
  0 ≤ cp → Forall JS.is_byte (JS.utf8_code_point cp).
Proof.
  intros Hcp. unfold JS.utf8_code_point.
  repeat case_match; repeat apply Forall_cons_2; try apply Forall_nil_2;
    try apply utf8_cont_octet.
  - unfold JS.is_byte. lia.
  - apply (masked_lead_octet 0xC0 _ 5); lia.
  - apply (masked_lead_octet 0xE0 _ 4); lia.
  - apply (masked_lead_octet 0xF0 _ 3); lia.
Qed.

Lemma utf8_encode_octets (s : JS.jsstring) : Forall JS.is_byte (JS.utf8_encode s).
Proof.
  induction s as [s IH] using (induction_ltof1 _ (@length Z)).
  unfold ltof in IH.
  destruct s as [|c rest]; [constructor|].
  cbn [JS.utf8_encode].
  assert (0 ≤ c mod 65536 < 65536) as Hc by (apply Z.mod_pos_bound; lia).
  destruct (JS.is_high_surrogate (c mod 65536)) eqn:Hhi.
  - destruct rest as [|d rest']; [apply utf8_code_point_octets; lia|].
    assert (0 ≤ d mod 65536 < 65536) as Hd by (apply Z.mod_pos_bound; lia).
    destruct (JS.is_low_surrogate (d mod 65536)) eqn:Hlo.
    + apply Forall_app. split; [|apply IH; simpl; lia].
      apply utf8_code_point_octets.
      unfold JS.is_high_surrogate, JS.is_low_surrogate in *. lia.
    + apply Forall_app. split; [apply utf8_code_point_octets; lia|].
      apply (IH (d :: rest')). simpl. lia.
  - destruct (JS.is_low_surrogate (c mod 65536));
      (apply Forall_app; split; [apply utf8_code_point_octets; lia|apply IH; simpl; lia]).
Qed.

End Utf8.

(** ** The request proof (C1, C8) *)

Section RequestProof.

Import Auth.

Lemma Buffer_get_in_range (work : list Z) (i : Z) :
  Forall JS.is_byte work → 0 ≤ i < Z.of_nat (length work) →
  JS.Buffer_get work i = work !!! Z.to_nat i ∧ JS.is_byte (work !!! Z.to_nat i).
Proof.
  intros Hall Hi. unfold JS.Buffer_get.
  destruct (Z.ltb_spec i 0) as [|_]; [lia|].
  assert (Z.to_nat i < length work)%nat as Hlt by lia.
  apply list_lookup_lookup_total_lt in Hlt as Hlk. rewrite Hlk. simpl.
  split; [done|].
  rewrite Forall_lookup in Hall. by apply (Hall (Z.to_nat i)).
Qed.

Lemma rem32_octet (b : Z) : 0 ≤ b → JS.rem b 32 = b mod 32 ∧ 0 ≤ b mod 32 < 32.
Proof.
  intros Hb. unfold JS.rem. rewrite Z.rem_mod_nonneg by lia.
  split; [done|]. apply Z.mod_pos_bound. lia.
Qed.

(** On a 32-octet buffer one turn of the loop is one step of the reference. *)
Lemma proof_step_reference (work : list Z) (b : Z) :
  proof_buffer work → JS.is_byte b →
  Auth.proof_step work b = Auth.reference_step work b.
Proof.
  intros [Hlen Hall] Hb. unfold Auth.proof_step, Auth.reference_step.
  destruct (rem32_octet b ltac:(unfold JS.is_byte in Hb; lia)) as [-> Hidx].
  destruct (rem32_octet (b mod 32 + 1) ltac:(lia)) as [-> Hsh].
  destruct (Buffer_get_in_range work ((b mod 32 + 1) mod 32) Hall ltac:(lia)) as [-> Hw1].
  destruct (Buffer_get_in_range work (b mod 32) Hall ltac:(lia)) as [-> Hw0].
  destruct (band7_octet _ Hw1) as [-> Hs].
  destruct (bxor_octets _ _ Hb Hw0) as [-> Hx].
  fold (rotated_expr (Z.lxor b (work !!! Z.to_nat (b mod 32)))
          (Z.land (work !!! Z.to_nat ((b mod 32 + 1) mod 32)) 7)).
  rewrite rotated_expr_rotateLeft8 by done.
  unfold JS.Buffer_set. destruct (Z.ltb_spec (b mod 32) 0) as [|_]; [lia|].
  pose proof (rotateLeft8_octet _ _ Hx Hs) as Hr. unfold JS.is_byte in Hr.
  by rewrite (Z.mod_small (Auth.rotateLeft8 _ _)) by lia.
Qed.

Lemma reference_step_buffer (work : list Z) (b : Z) :
  proof_buffer work → JS.is_byte b → proof_buffer (Auth.reference_step work b).
Proof.
  intros [Hlen Hall] Hb. unfold Auth.reference_step. split.
  - by rewrite length_insert.
  - assert (0 ≤ b mod 32 < 32) as Hidx by (apply Z.mod_pos_bound; lia).
    assert (0 ≤ (b mod 32 + 1) mod 32 < 32) as Hsh by (apply Z.mod_pos_bound; lia).
    destruct (Buffer_get_in_range work ((b mod 32 + 1) mod 32) Hall ltac:(lia)) as [_ Hw1].
    destruct (Buffer_get_in_range work (b mod 32) Hall ltac:(lia)) as [_ Hw0].
    apply Forall_insert; [done|].
    apply rotateLeft8_octet.
    + by apply bxor_octets.
    + by apply band7_octet.
Qed.

Lemma proof_loop_reference (bytes work : list Z) :
  proof_buffer work → Forall JS.is_byte bytes →
  foldl Auth.proof_step work bytes = foldl Auth.reference_step work bytes.
Proof.
  intros Hwork Hbytes. revert work Hwork.
  induction Hbytes as [|b bytes Hb _ IH]; intros work Hwork; [done|].
  simpl. rewrite proof_step_reference by done.
  apply IH. by apply reference_step_buffer.
Qed.

Lemma Buffer_from_octets (data : list Z) :
  Forall JS.is_byte data → JS.Buffer_from data = data.
Proof.
  unfold JS.Buffer_from. induction 1 as [|b data Hb _ IH]; [done|].
  unfold JS.is_byte in Hb. csimpl. rewrite IH. by rewrite Z.mod_small by lia.
Qed.

(** C1. For every message and every secret of 32 octets, the proof function
    returns the Base64 text of the SHA-256 of the buffer the reference
    algorithm leaves: for each UTF-8 octet [b] of the message in order,
    [secret[b mod 32]] becomes the 8-bit left rotation of
    [b XOR secret[b mod 32]] by [secret[(b mod 32 + 1) mod 32] & 7], a rotation
    by 0 being the identity. Two calls on identical inputs return the same
    proof. *)
Theorem generateRequestProof_reference (message : JS.jsstring) (secret : list Z) :
  length secret = 32%nat → Forall JS.is_byte secret →
  Auth.generateRequestProof message secret = Ok (Auth.reference_proof message secret)
  ∧ (∀ x, Auth.rotateLeft8 x 0 = x)
  ∧ (∀ message' secret', message' = message → secret' = secret →
       Auth.generateRequestProof message' secret'
       = Auth.generateRequestProof message secret).
Proof.
  intros Hlen Hall. split; [|split].
  - unfold Auth.generateRequestProof, Auth.reference_proof, Auth.b64.
    rewrite Hlen. simpl negb. cbv iota.
    rewrite Buffer_from_octets by done.
    rewrite proof_loop_reference; [done|by split|apply utf8_encode_octets].
  - done.
  - by intros ?? -> ->.
Qed.

Lemma generateRequestProof_reference_witness :
  Auth.generateRequestProof (JS.lit "installation.nonce.1700000000000") sample_secret
  = Ok (Auth.reference_proof (JS.lit "installation.nonce.1700000000000") sample_secret).
Proof.
  refine (proj1 (generateRequestProof_reference _ sample_secret _ _)).
  - reflexivity.
  - unfold sample_secret. apply Forall_forall. intros x Hx.
    apply elem_of_seqZ in Hx. unfold JS.is_byte. lia.
Defined.

(** C8. The proof function throws its key-material error exactly when the
    secret is not 32 octets long: it throws it for every other length and
    returns a proof for every secret of 32. *)
Theorem generateRequestProof_secret_length (message : JS.jsstring) (secret : list Z) :
  (length secret ≠ 32%nat ↔
     Auth.generateRequestProof message secret = Throw Auth.InvalidKeyMaterial)
  ∧ (length secret = 32%nat ↔
     ∃ proof, Auth.generateRequestProof message secret = Ok proof).
Proof.
  unfold Auth.generateRequestProof.
  destruct (Nat.eqb_spec (length secret) 32) as [Heq|Hne]; simpl.
  - split; split; try done; eauto.
  - split; split; try done. by intros [? ?].
Qed.

End RequestProof.

(** ** Searching and splitting strings *)

Section Strings.

Import Str.

Implicit Types s h r : JS.jsstring.

Lemma find_cons (sep s : JS.jsstring) (c : Z) :
  Str.find sep (c :: s)
  = if Str.startsWith (c :: s) sep then Some 0%nat else S <$> Str.find sep s.
Proof. done. Qed.

Lemma startsWith_unit (c x : Z) s :
  Str.startsWith (x :: s) [c] = bool_decide (x = c).
Proof.
  unfold Str.startsWith. simpl. rewrite take_0.
  apply bool_decide_ext. split; congruence.
Qed.

(** A one-unit separator is found right after a prefix that is free of it. *)
Lemma find_unit_app (c : Z) h r :
  c ∉ h → Str.find [c] (h ++ c :: r) = Some (length h).
Proof.
  induction h as [|x h IH]; intros Hnotin; simpl app.
  - rewrite find_cons, startsWith_unit. by rewrite bool_decide_eq_true_2.
  - apply not_elem_of_cons in Hnotin as [Hne Hh].
    rewrite find_cons, startsWith_unit.
    rewrite bool_decide_eq_false_2 by congruence.
    rewrite IH by done. done.
Qed.

Lemma find_unit_none (c : Z) h : c ∉ h → Str.find [c] h = None.
Proof.
  induction h as [|x h IH]; intros Hnotin; [done|].
  apply not_elem_of_cons in Hnotin as [Hne Hh].
  rewrite find_cons, startsWith_unit.
  rewrite bool_decide_eq_false_2 by congruence.
  by rewrite IH.
Qed.

Lemma startsWith_blank (x : Z) s :
  Str.startsWith (x :: s) [Str.LF; Str.LF]
  = bool_decide (x = Str.LF) && bool_decide (head s = Some Str.LF).
Proof.
  unfold Str.startsWith. destruct s as [|y s]; simpl.
  - rewrite andb_false_r. by apply bool_decide_eq_false_2.
  - rewrite take_0. destruct (decide (x = Str.LF)) as [->|Hx].
    + rewrite (bool_decide_eq_true_2 (Str.LF = Str.LF)) by done. simpl.
      apply bool_decide_ext. split; congruence.
    + rewrite (bool_decide_eq_false_2 (x = Str.LF)) by done. simpl.
      apply bool_decide_eq_false_2. congruence.
Qed.

(** The blank line that ends a blank-free prefix is the first one. *)
Lemma find_blank_app h r :
  blank_free h = true →
  Str.find [Str.LF; Str.LF] (h ++ Str.LF :: Str.LF :: r) = Some (length h).
Proof.
  induction h as [|x h IH]; intros Hfree; simpl app.
  - done.
  - rewrite find_cons, startsWith_blank. simpl in Hfree.
    destruct (decide (x = Str.LF)) as [->|Hx].
    + rewrite (bool_decide_eq_true_2 (Str.LF = Str.LF)) in * by done.
      destruct h as [|y h]; [done|].
      apply andb_true_iff in Hfree as [Hy Hfree].
      apply negb_true_iff, bool_decide_eq_false in Hy.
      specialize (IH Hfree). cbn [head app] in *.
      rewrite (bool_decide_eq_false_2 (Some y = Some Str.LF)) by congruence.
      cbn [andb]. by rewrite IH.
    + rewrite (bool_decide_eq_false_2 (x = Str.LF)) in * by done.
      cbn [andb]. by rewrite (IH Hfree).
Qed.

(** A terminator added to a body brings no blank line. *)
Lemma find_blank_snoc_NUL s :
  Str.find [Str.LF; Str.LF] s = None →
  Str.find [Str.LF; Str.LF] (s ++ [Str.NUL]) = None.
Proof.
  induction s as [|x s IH]; intros Hnone; [done|].
  rewrite find_cons in Hnone. simpl app. rewrite find_cons.
  rewrite startsWith_blank in *.
  destruct (bool_decide (x = Str.LF) && bool_decide (head s = Some Str.LF)) eqn:Hhere;
    [done|].
  destruct (Str.find [Str.LF; Str.LF] s) eqn:Hs; [done|].
  rewrite IH by done.
  assert (bool_decide (x = Str.LF) && bool_decide (head (s ++ [Str.NUL]) = Some Str.LF)
          = false) as ->; [|done].
  destruct s as [|y s]; [|done].
  apply andb_false_iff. right. by apply bool_decide_eq_false_2.
Qed.

Lemma blank_free_unit_free h : Str.LF ∉ h → blank_free h = true.
Proof.
  induction h as [|x h IH]; intros Hnotin; [done|].
  apply not_elem_of_cons in Hnotin as [Hne Hh]. simpl.
  rewrite bool_decide_eq_false_2 by congruence. by apply IH.
Qed.

Lemma blank_free_line h r :
  Str.LF ∉ h → head r ≠ Some Str.LF → r ≠ [] → blank_free r = true →
  blank_free (h ++ Str.LF :: r) = true.
Proof.
  intros Hnotin Hhead Hne Hr.
  induction h as [|x h IH]; simpl.
  - destruct r as [|y r]; [done|]. simpl in Hhead.
    rewrite (bool_decide_eq_false_2 (y = Str.LF)) by congruence. by rewrite Hr.
  - apply not_elem_of_cons in Hnotin as [Hx Hh].
    rewrite bool_decide_eq_false_2 by congruence. by apply IH.
Qed.

Lemma join_lines_head (x : JS.jsstring) (rest : list JS.jsstring) :
  is_line x →
  Str.join [Str.LF] (x :: rest) ≠ [] ∧ head (Str.join [Str.LF] (x :: rest)) ≠ Some Str.LF.
Proof.
  intros [Hne Hfree]. destruct x as [|c x]; [done|].
  apply not_elem_of_cons in Hfree as [Hc _].
  destruct rest; simpl; split; congruence.
Qed.

Lemma join_lines_blank_free (frags : list JS.jsstring) :
  Forall is_line frags → blank_free (Str.join [Str.LF] frags) = true.
Proof.
  induction 1 as [|x rest Hx Hrest IH]; [done|].
  destruct rest as [|y rest].
  - simpl. apply blank_free_unit_free, Hx.
  - change (Str.join [Str.LF] (x :: y :: rest))
      with (x ++ Str.LF :: Str.join [Str.LF] (y :: rest)).
    apply Forall_cons in Hrest as [Hy Hrest'].
    destruct (join_lines_head y rest Hy) as [Hne Hhead].
    apply blank_free_line; [apply Hx|done|done|done].
Qed.

(** Splitting at line feeds gives back the lines that were joined. *)
Lemma split_join_lines (frags : list JS.jsstring) (fuel : nat) :
  frags ≠ [] → Forall (λ x, Str.LF ∉ x) frags →
  (length (Str.join [Str.LF] frags) ≤ fuel)%nat →
  Str.split_fuel fuel (Str.join [Str.LF] frags) [Str.LF] = frags.
Proof.
  intros Hne Hall. revert fuel.
  induction Hall as [|x rest Hx Hrest IH]; [done|]. intros fuel Hfuel.
  destruct rest as [|y rest].
  - simpl. destruct fuel; [done|]. simpl. by rewrite find_unit_none.
  - change (Str.join [Str.LF] (x :: y :: rest))
      with (x ++ Str.LF :: Str.join [Str.LF] (y :: rest)) in *.
    rewrite length_app in Hfuel. cbn [length] in Hfuel.
    destruct fuel as [|fuel]; [lia|].
    simpl Str.split_fuel. rewrite find_unit_app by done.
    rewrite take_app_length.
    rewrite (cons_middle Str.LF x), app_assoc.
    rewrite (drop_app_length' (x ++ [Str.LF])) by (by rewrite length_app).
    f_equal. apply IH; [done|lia].
Qed.

(** [length s] turns are enough: more fuel changes nothing. *)
Lemma find_bound (sep s : JS.jsstring) (i : nat) :
  Str.find sep s = Some i → (i + length sep ≤ length s)%nat.
Proof.
  revert i. induction s as [|c s IH]; intros i.
  - simpl. unfold Str.startsWith. case_bool_decide as Hsep; [|done].
    intros [= <-]. rewrite <- Hsep, length_take. simpl. lia.
  - rewrite find_cons. unfold Str.startsWith. case_bool_decide as Hsep.
    + intros [= <-]. rewrite <- Hsep, length_take. lia.
    + destruct (Str.find sep s) as [j|]; [|done].
      intros [= <-]. specialize (IH j eq_refl). simpl. lia.
Qed.

Lemma split_fuel_enough (sep s : JS.jsstring) (fuel1 fuel2 : nat) :
  sep ≠ [] → (length s ≤ fuel1)%nat → (length s ≤ fuel2)%nat →
  Str.split_fuel fuel1 s sep = Str.split_fuel fuel2 s sep.
Proof.
  intros Hsep. revert s fuel2.
  assert (∀ fuel, Str.split_fuel fuel [] sep = [[]]) as Hnil.
  { intros [|fuel]; [done|]. simpl. unfold Str.startsWith.
    rewrite bool_decide_eq_false_2; [done|]. by destruct sep. }
  induction fuel1 as [|fuel1 IH]; intros s fuel2 H1 H2.
  - destruct s; [|simpl in H1; lia]. by rewrite !Hnil.
  - destruct fuel2 as [|fuel2].
    { destruct s; [|simpl in H2; lia]. by rewrite !Hnil. }
    simpl. destruct (Str.find sep s) as [i|] eqn:Hfind; [|done].
    apply find_bound in Hfind. f_equal.
    assert (0 < length sep)%nat by (destruct sep; [done|simpl; lia]).
    apply IH; rewrite length_drop; lia.
Qed.

End Strings.

(** ** The frame codec (C2) *)

Section Codec.

Import Str Stomp.

Lemma toString_line (t : StompMessageType) : is_line (toString t).
Proof.
  destruct t;
    (split; [by vm_compute|apply (bool_decide_unpack _); vm_compute; exact I]).
Qed.

Lemma header_line_is_line (kv : JS.jsstring * JS.jsstring) :
  header_ok kv → is_line (header_line kv).
Proof.
  intros (Hne & Hlf & _ & _ & Hv). unfold header_line. split.
  - destruct (kv.1); [done|]. done.
  - rewrite !not_elem_of_app. split; [done|split; [|done]].
    apply not_elem_of_cons. split; [done|]. apply not_elem_of_nil.
Qed.

Lemma decode_header_line_ok (m : gmap JS.jsstring JS.jsstring)
    (kv : JS.jsstring * JS.jsstring) :
  header_ok kv → decode_header_line m (header_line kv) = <[kv.1 := kv.2]> m.
Proof.
  intros (Hne & _ & Hcolon & Hproto & _).
  unfold decode_header_line, header_line, Str.indexOf.
  cbn [app]. rewrite find_unit_app by done.
  assert (0 < Z.of_nat (length kv.1)) as Hpos.
  { destruct (kv.1); [done|]. simpl. lia. }
  destruct (Z.ltb_spec 0 (Z.of_nat (length kv.1))) as [_|]; [|lia].
  unfold Str.substring, Str.substring_from, set_property.
  rewrite Nat2Z.id. change (Z.to_nat 0) with 0%nat. rewrite drop_0.
  rewrite take_app_length.
  rewrite bool_decide_eq_false_2 by done.
  rewrite (cons_middle Str.COLON), app_assoc.
  by rewrite (drop_app_length' (kv.1 ++ [Str.COLON]))
    by (rewrite length_app; simpl; lia).
Qed.

Lemma decode_header_lines (h : list (JS.jsstring * JS.jsstring))
    (m : gmap JS.jsstring JS.jsstring) :
  Forall header_ok h → NoDup h.*1 →
  foldl decode_header_line m (header_line <$> h) = list_to_map h ∪ m.
Proof.
  intros Hok. revert m.
  induction Hok as [|kv h Hkv _ IH]; intros m Hnodup.
  - simpl. by rewrite (left_id_L ∅ (∪)).
  - rewrite fmap_cons in Hnodup. apply NoDup_cons in Hnodup as [Hfresh Hnodup].
    csimpl. rewrite decode_header_line_ok by done.
    rewrite IH by done.
    rewrite <- insert_union_l. symmetry.
    apply insert_union_r. by apply not_elem_of_list_to_map_1.
Qed.

Lemma slice_but_last_snoc (s : JS.jsstring) (c : Z) :
  Str.slice_but_last (s ++ [c]) = s.
Proof.
  unfold Str.slice_but_last. rewrite length_app. simpl.
  replace (length s + 1 - 1)%nat with (length s) by lia.
  apply take_app_length.
Qed.

Lemma endsWith_snoc (s : JS.jsstring) (c : Z) : Str.endsWith (s ++ [c]) c = true.
Proof. unfold Str.endsWith. apply bool_decide_eq_true_2, last_snoc. Qed.

(** The two pieces [split("\n\n", 2)] cuts a frame into: the header block
    and what follows the first blank line, when that holds no other. *)
Lemma split_blank_frame (block rest : JS.jsstring) :
  blank_free block = true → Str.find [Str.LF; Str.LF] rest = None →
  Str.split_limit (block ++ [Str.LF; Str.LF] ++ rest) [Str.LF; Str.LF] 2
  = [block; rest].
Proof.
  intros Hblock Hrest. unfold Str.split_limit, Str.split.
  rewrite length_app. cbn [app length].
  replace (length block + S (S (length rest)))%nat
    with (S (length block + S (length rest))) by lia.
  cbn [Str.split_fuel]. rewrite find_blank_app by done.
  rewrite take_app_length.
  change (block ++ Str.LF :: Str.LF :: rest)
    with (block ++ [Str.LF; Str.LF] ++ rest).
  rewrite app_assoc.
  rewrite (drop_app_length' (block ++ [Str.LF; Str.LF]))
    by (by rewrite length_app).
  destruct (length block + S (length rest))%nat; simpl; [done|].
  by rewrite Hrest.
Qed.

(** C2, as the code has it. For every frame type, every list of headers
    with distinct keys that are not empty, hold no colon and no line feed and
    are not [__proto__], with values that hold no line feed, and every body
    that is not empty and holds no blank line, decoding the encoded frame
    gives back the type name, the same key-to-value mapping and the body. *)
Theorem decode_encode_round_trip (t : StompMessageType)
    (h : list (JS.jsstring * JS.jsstring)) (body : JS.jsstring) :
  NoDup h.*1 → Forall header_ok h →
  body ≠ [] → Str.find [Str.LF; Str.LF] body = None →
  decodeStompWsMessage (encodeStompWsMessage t h (Some body))
  = mkFrame (toString t) (list_to_map h) (Some body).
Proof.
  intros Hnodup Hok Hbody Hblank.
  assert (Forall is_line (toString t :: (header_line <$> h))) as Hlines.
  { apply Forall_cons. split; [apply toString_line|].
    apply Forall_fmap. eapply Forall_impl; [exact Hok|].
    intros kv Hkv. by apply header_line_is_line. }
  unfold encodeStompWsMessage, decodeStompWsMessage.
  assert (Str.truthy body = true) as -> by (by destruct body).
  cbn zeta.
  change ([toString t] ++ ((λ kv, kv.1 ++ [Str.COLON] ++ kv.2) <$> h))
    with (toString t :: (header_line <$> h)).
  set (block := Str.join [Str.LF] (toString t :: (header_line <$> h))).
  rewrite <- !app_assoc.
  rewrite split_blank_frame;
    [|by apply join_lines_blank_free|by apply find_blank_snoc_NUL].
  cbn [lookup list_lookup default]. unfold id.
  assert (Str.split block [Str.LF] = toString t :: (header_line <$> h)) as ->.
  { unfold Str.split, block. apply split_join_lines; [done| |done].
    eapply Forall_impl; [exact Hlines|]. by intros x [_ ?]. }
  cbn [lookup list_lookup default]. unfold id.
  change (drop 1 (toString t :: (header_line <$> h))) with (header_line <$> h).
  rewrite decode_header_lines by done.
  rewrite (right_id_L ∅ (∪)).
  assert (Str.truthy (body ++ [Str.NUL]) = true) as -> by (by destruct body).
  by rewrite endsWith_snoc, slice_but_last_snoc.
Qed.

Lemma decode_encode_round_trip_witness :
  decodeStompWsMessage
    (encodeStompWsMessage MESSAGE connect_headers (Some (JS.lit "{}")))
  = mkFrame (toString MESSAGE) (list_to_map connect_headers) (Some (JS.lit "{}")).
Proof.
  apply (decode_encode_round_trip MESSAGE connect_headers (JS.lit "{}")).
  - apply (bool_decide_unpack _). vm_compute. exact I.
  - repeat apply Forall_cons_2; try apply Forall_nil_2;
      (apply (bool_decide_unpack _); vm_compute; exact I).
  - done.
  - reflexivity.
Defined.

(** Where the round-trip law as the specification states it fails: the
    scenario frame without a body decodes to the empty string and not to
    [null]; a colon in a key moves to the value; a blank line cuts the body. *)
Lemma round_trip_counterexample :
  data (decodeStompWsMessage (encodeStompWsMessage CONNECT connect_headers None))
    = Some []
  ∧ decodeStompWsMessage (encodeStompWsMessage CONNECT connect_headers None)
    ≠ round_trip_frame CONNECT connect_headers None
  ∧ decodeStompWsMessage
      (encodeStompWsMessage MESSAGE [(JS.lit "a:b", JS.lit "c")] (Some (JS.lit "x")))
    ≠ round_trip_frame MESSAGE [(JS.lit "a:b", JS.lit "c")] (Some (JS.lit "x"))
  ∧ decodeStompWsMessage
      (encodeStompWsMessage MESSAGE [] (Some [120; Str.LF; Str.LF; 121]))
    ≠ round_trip_frame MESSAGE [] (Some [120; Str.LF; Str.LF; 121]).
Proof.
  split; [reflexivity|]. split; [|split].
  - intros Heq. apply (f_equal data) in Heq. vm_compute in Heq. discriminate.
  - intros Heq. apply (f_equal (λ f, headers f !! JS.lit "a")) in Heq.
    vm_compute in Heq. discriminate.
  - intros Heq. apply (f_equal data) in Heq. vm_compute in Heq. discriminate.
Qed.

End Codec.

(** ** Access tokens (C3, C9, C10) *)

Section AccessTokens.

Import Cloud.

Lemma set_lock_release (c : Client) :
  accessTokenLock c = false → set_lock false (set_lock true c) = c.
Proof. destruct c as [u p t l]. simpl. by intros ->. Qed.

(** The three outcomes of the policy, with the lock free. *)
Lemma attempt_sign_in (now : Z) (c : Client) :
  accessTokenLock c = false →
  match accessToken c with
  | None => True
  | Some tok => Auth.expiresAt tok < now
  end →
  attempt now c
  = (set_lock true c, Awaiting (SignInRequest (username c) (password c)),
     [SignInRequest (username c) (password c)]).
Proof.
  intros Hlock Hexp. unfold attempt. rewrite Hlock.
  change (accessToken (set_lock true c)) with (accessToken c).
  destruct (accessToken c) as [tok|]; [|done].
  by destruct (Z.ltb_spec (Auth.expiresAt tok) now); [|lia].
Qed.

Lemma attempt_refresh (now : Z) (c : Client) (tok : Auth.AccessToken) :
  accessTokenLock c = false → accessToken c = Some tok →
  now ≤ Auth.expiresAt tok < now + 600 →
  attempt now c
  = (set_lock true c, Awaiting (RefreshRequest (username c) (Auth.refreshToken tok)),
     [RefreshRequest (username c) (Auth.refreshToken tok)]).
Proof.
  intros Hlock Htok Hexp. unfold attempt. rewrite Hlock.
  change (accessToken (set_lock true c)) with (accessToken c). rewrite Htok.
  change TOKEN_TIME_TO_REFRESH with 600.
  destruct (Z.ltb_spec (Auth.expiresAt tok) now); [lia|].
  by destruct (Z.ltb_spec (Auth.expiresAt tok) (now + 600)); [|lia].
Qed.

Lemma attempt_reuse (now : Z) (c : Client) (tok : Auth.AccessToken) :
  accessTokenLock c = false → accessToken c = Some tok →
  now + 600 ≤ Auth.expiresAt tok →
  attempt now c = (c, Returned (Ok (Auth.accessToken tok)), []).
Proof.
  intros Hlock Htok Hexp. unfold attempt. rewrite Hlock.
  change (accessToken (set_lock true c)) with (accessToken c). rewrite Htok.
  change TOKEN_TIME_TO_REFRESH with 600.
  destruct (Z.ltb_spec (Auth.expiresAt tok) now); [lia|].
  destruct (Z.ltb_spec (Auth.expiresAt tok) (now + 600)); [lia|].
  by rewrite set_lock_release.
Qed.

(** C3. When [asyncGetAccessToken] holds the lock and reads the time [now]:
    with no token, or a token whose [expiresAt] is before [now], it posts a
    sign-in and no refresh; with a token still valid whose [expiresAt] is
    before [now + 600] it posts a refresh carrying the stored refresh token;
    otherwise it returns the token it holds, posts nothing and leaves the
    client as it was. *)
Theorem asyncGetAccessToken_policy (now : Z) (c : Client) :
  accessTokenLock c = false →
  let signin := SignInRequest (username c) (password c) in
  match accessToken c with
  | None => attempt now c = (set_lock true c, Awaiting signin, [signin])
  | Some tok =>
    (Auth.expiresAt tok < now →
       attempt now c = (set_lock true c, Awaiting signin, [signin]))
    ∧ (now ≤ Auth.expiresAt tok < now + 600 →
       let refresh := RefreshRequest (username c) (Auth.refreshToken tok) in
       attempt now c = (set_lock true c, Awaiting refresh, [refresh]))
    ∧ (now + 600 ≤ Auth.expiresAt tok →
       attempt now c = (c, Returned (Ok (Auth.accessToken tok)), []))
  end.
Proof.
  intros Hlock signin.
  destruct (accessToken c) as [tok|] eqn:Htok.
  - split; [|split]; intros Hexp.
    + apply attempt_sign_in; [done|]. by rewrite Htok.
    + by apply attempt_refresh.
    + by apply attempt_reuse.
  - apply attempt_sign_in; [done|]. by rewrite Htok.
Qed.

Lemma asyncGetAccessToken_policy_witness :
  attempt 4100 sample_client
  = (set_lock true sample_client,
     Awaiting (RefreshRequest (JS.lit "user") (JS.lit "refresh")),
     [RefreshRequest (JS.lit "user") (JS.lit "refresh")]).
Proof.
  refine (proj1 (proj2 (asyncGetAccessToken_policy 4100 sample_client _)) _).
  - reflexivity.
  - vm_compute. split; [discriminate|reflexivity].
Defined.

(** C9. A token made by [createAccessToken] expires 3600 seconds after the
    second it was made in, whatever the strings it carries; every token a
    sign-in or a refresh yields is made so, from the time the response is
    handled, and is the one the client then stores. *)
Theorem access_token_expires_after_one_hour (now_ms : Z) :
  (∀ access refresh,
     Auth.expiresAt (Auth.createAccessToken now_ms access refresh)
     = now_ms / 1000 + 3600)
  ∧ (∀ settled tok,
       asyncGetToken now_ms settled = Ok tok →
       Auth.expiresAt tok = now_ms / 1000 + 3600)
  ∧ (∀ s i req settled tok,
       callers s !! i = Some (Awaiting req) →
       asyncGetToken now_ms settled = Ok tok →
       accessToken (client (step s (Settle i now_ms settled))) = Some tok).
Proof.
  split; [done|]. split.
  - intros settled tok. unfold asyncGetToken.
    destruct settled as [status a r|status msg|e]; repeat case_match; try done.
    by intros [= <-].
  - intros s i req settled tok Hi Hok. simpl. by rewrite Hi, Hok.
Qed.

(** C10. When the request a call of [asyncGetAccessToken] awaits fails, the
    call throws what the request threw, the stored token is the one held
    before, the lock is free, and the next call is not put to sleep. *)
Theorem failed_request_releases_lock (s : System) (i : nat) (req : Request)
    (now_ms : Z) (settled : HttpOutcome) (e : exn) :
  callers s !! i = Some (Awaiting req) →
  asyncGetToken now_ms settled = Throw e →
  let s' := step s (Settle i now_ms settled) in
  accessToken (client s') = accessToken (client s)
  ∧ accessTokenLock (client s') = false
  ∧ callers s' !! i = Some (Returned (Throw e))
  ∧ ∀ now, ∃ ph, callers (step s' (Call now)) = callers s' ++ [ph] ∧ ph ≠ Sleeping.
Proof.
  intros Hi Hthrow. simpl. rewrite Hi, Hthrow. simpl.
  split; [done|]. split; [done|]. split.
  - apply list_lookup_insert_eq. by eapply lookup_lt_Some.
  - intros now. unfold attempt. simpl.
    destruct (accessToken (client s)) as [tok|];
      repeat case_match; simplify_eq; (eexists; split; [reflexivity|done]).
Qed.

Lemma failed_request_releases_lock_witness :
  let s := run (init (JS.lit "user") (JS.lit "secret")) [Call 10] in
  let s' := step s (Settle 0 11000 (AxiosError (Some 401) (JS.lit "Unauthorized"))) in
  accessToken (client s') = accessToken (client s)
  ∧ accessTokenLock (client s') = false
  ∧ callers s' !! 0%nat
    = Some (Returned (Throw (AuthFail (JS.lit "Invalid username or password"))))
  ∧ ∀ now, ∃ ph, callers (step s' (Call now)) = callers s' ++ [ph] ∧ ph ≠ Sleeping.
Proof.
  exact (failed_request_releases_lock
           (run (init (JS.lit "user") (JS.lit "secret")) [Call 10]) 0
           (SignInRequest (JS.lit "user") (JS.lit "secret")) 11000
           (AxiosError (Some 401) (JS.lit "Unauthorized"))
           (AuthFail (JS.lit "Invalid username or password"))
           eq_refl eq_refl).
Defined.

End AccessTokens.

(** ** One token request at a time (C5) *)

Section MutualExclusion.

Import Cloud.

Lemma in_flight_app (l1 l2 : list Phase) :
  in_flight (l1 ++ l2) = (in_flight l1 + in_flight l2)%nat.
Proof. induction l1 as [|ph l1 IH]; simpl; [done|]. rewrite IH. lia. Qed.

Lemma in_flight_insert (l : list Phase) (i : nat) (old new : Phase) :
  l !! i = Some old →
  (in_flight (<[i := new]> l) + flight old = in_flight l + flight new)%nat.
Proof.
  revert i. induction l as [|ph l IH]; intros [|i] Hi; simplify_eq/=.
  - unfold flight. lia.
  - specialize (IH i Hi). lia.
Qed.

Lemma attempt_flight (now : Z) (c c' : Client) (ph : Phase) (reqs : list Request) :
  attempt now c = (c', ph, reqs) →
  if accessTokenLock c then c' = c ∧ ph = Sleeping ∧ reqs = []
  else flight ph = (if accessTokenLock c' then 1%nat else 0%nat)
       ∧ length reqs = flight ph.
Proof.
  unfold attempt. destruct (accessTokenLock c) eqn:Hlock; [by intros [= <- <- <-]|].
  simpl. destruct (accessToken c) as [tok|]; repeat case_match;
    by intros [= <- <- <-].
Qed.

Lemma step_lock_invariant (s : System) (e : Event) :
  lock_invariant s → lock_invariant (step s e).
Proof.
  unfold lock_invariant. intros Hinv. destruct e as [now|i now|i now_ms settled]; simpl.
  - destruct (attempt now (client s)) as [[c' ph] reqs] eqn:Hatt.
    apply attempt_flight in Hatt. simpl.
    rewrite in_flight_app. simpl. fold (flight ph).
    destruct (accessTokenLock (client s)) eqn:Hlock.
    + destruct Hatt as (-> & -> & _). simpl. rewrite Hlock. lia.
    + destruct Hatt as [<- _]. lia.
  - destruct (callers s !! i) as [[| |]|] eqn:Hi; try done.
    destruct (attempt now (client s)) as [[c' ph] reqs] eqn:Hatt.
    apply attempt_flight in Hatt. simpl.
    pose proof (in_flight_insert _ _ _ ph Hi) as Hins. unfold flight at 1 in Hins.
    simpl in Hins.
    destruct (accessTokenLock (client s)) eqn:Hlock.
    + destruct Hatt as (-> & -> & _). unfold flight in Hins. simpl in Hins.
      rewrite Hlock. lia.
    + destruct Hatt as [<- _]. lia.
  - destruct (callers s !! i) as [[| |]|] eqn:Hi; try done.
    destruct (resume (asyncGetToken now_ms settled) (client s)) as [c' ph] eqn:Hres.
    simpl.
    assert (accessTokenLock c' = false ∧ flight ph = 0%nat) as [-> Hph].
    { unfold resume in Hres. by destruct (asyncGetToken now_ms settled); simplify_eq. }
    pose proof (in_flight_insert _ _ _ ph Hi) as Hins. unfold flight at 1 in Hins.
    simpl in Hins.
    destruct (accessTokenLock (client s)); lia.
Qed.

Lemma run_snoc (s : System) (events : list Event) (e : Event) :
  run s (events ++ [e]) = step (run s events) e.
Proof. unfold run. by rewrite foldl_app. Qed.

Lemma run_lock_invariant (s : System) (events : list Event) :
  lock_invariant s → lock_invariant (run s events).
Proof.
  intros Hinv. induction events as [|e events IH] using rev_ind; [done|].
  rewrite run_snoc. by apply step_lock_invariant.
Qed.

(** While the lock is held a call that arrives or wakes goes to sleep and
    posts nothing. *)
Lemma locked_step_waits (s : System) (now : Z) :
  accessTokenLock (client s) = true →
  step s (Call now) = mkSystem (client s) (callers s ++ [Sleeping]) (posted s)
  ∧ ∀ i, step s (Wake i now) = s.
Proof.
  intros Hlock. split.
  - simpl. unfold attempt. rewrite Hlock. by rewrite app_nil_r.
  - intros i. simpl. destruct (callers s !! i) as [[| |]|] eqn:Hi; try done.
    unfold attempt. rewrite Hlock. rewrite app_nil_r, list_insert_id by done.
    by destruct s.
Qed.

(** The sleeping callers of a free client with a fresh token return it one
    after the other, and none posts a request. *)
Lemma sleepers_return_token (c : Client) (tok : Auth.AccessToken)
    (wakes : list Z) (done_ : list Phase) (reqs : list Request) :
  accessTokenLock c = false → accessToken c = Some tok →
  Forall (fresh_at tok) wakes →
  run (mkSystem c (done_ ++ replicate (length wakes) Sleeping) reqs)
      (zip_with Wake (seq (length done_) (length wakes)) wakes)
  = mkSystem c (done_ ++ replicate (length wakes) (Returned (Ok (Auth.accessToken tok))))
             reqs.
Proof.
  intros Hlock Htok Hfresh. revert done_.
  induction Hfresh as [|w wakes Hw _ IH]; intros done_; [done|].
  cbn [length seq zip_with replicate run foldl].
  assert (step (mkSystem c (done_ ++ Sleeping :: replicate (length wakes) Sleeping) reqs)
               (Wake (length done_) w)
          = mkSystem c ((done_ ++ [Returned (Ok (Auth.accessToken tok))])
                        ++ replicate (length wakes) Sleeping) reqs) as ->.
  { cbn [step callers client posted].
    rewrite list_lookup_middle by done.
    rewrite (attempt_reuse w c tok Hlock Htok Hw).
    rewrite app_nil_r, <- app_assoc. f_equal.
    rewrite insert_app_r_alt by done. by rewrite Nat.sub_diag. }
  specialize (IH (done_ ++ [Returned (Ok (Auth.accessToken tok))])).
  rewrite length_app, Nat.add_1_r in IH. unfold run in IH. rewrite IH.
  by rewrite <- app_assoc.
Qed.

End MutualExclusion.

Section ConcurrentCallers.

Import Cloud.

Lemma attempt_posts (now : Z) (c : Client) :
  accessTokenLock c = false → needs_request now (accessToken c) = true →
  ∃ req, attempt now c = (set_lock true c, Awaiting req, [req]).
Proof.
  intros Hlock Hneeds. unfold needs_request in Hneeds.
  destruct (accessToken c) as [tok|] eqn:Htok.
  - apply Z.ltb_lt in Hneeds.
    destruct (Z.lt_ge_cases (Auth.expiresAt tok) now).
    + eexists. apply attempt_sign_in; [done|by rewrite Htok].
    + eexists. apply (attempt_refresh now c tok); [done|done|lia].
  - eexists. apply attempt_sign_in; [done|by rewrite Htok].
Qed.

Lemma attempt_posts_nothing (now : Z) (c : Client) :
  accessTokenLock c = false → needs_request now (accessToken c) = false →
  ∃ tok, attempt now c = (c, Returned (Ok (Auth.accessToken tok)), []).
Proof.
  intros Hlock Hneeds. unfold needs_request in Hneeds.
  destruct (accessToken c) as [tok|] eqn:Htok; [|done].
  apply Z.ltb_ge in Hneeds. exists tok. by apply attempt_reuse.
Qed.

Lemma run_app (s : System) (l1 l2 : list Event) :
  run s (l1 ++ l2) = run (run s l1) l2.
Proof. unfold run. by rewrite foldl_app. Qed.

(** Calls that arrive while the lock is held line up asleep. *)
Lemma calls_while_locked (c : Client) (l : list Phase) (reqs : list Request)
    (nows : list Z) :
  accessTokenLock c = true →
  run (mkSystem c l reqs) (Call <$> nows)
  = mkSystem c (l ++ replicate (length nows) Sleeping) reqs.
Proof.
  intros Hlock. revert l.
  induction nows as [|now nows IH]; intros l.
  - simpl. by rewrite app_nil_r.
  - cbn [fmap list_fmap run foldl length replicate].
    destruct (locked_step_waits (mkSystem c l reqs) now Hlock) as [-> _].
    cbn [client callers posted]. unfold run in IH. rewrite IH.
    by rewrite <- app_assoc.
Qed.

(** With the lock free, the code does what the policy says. *)
Lemma attempt_policy (now : Z) (c : Client) :
  accessTokenLock c = false →
  attempt now c
  = (policy_client now c, policy_phase now c, option_list (due_request now c)).
Proof.
  intros Hlock. unfold policy_client, policy_phase, due_request.
  destruct (accessToken c) as [tok|] eqn:Htok.
  - destruct (Z.ltb_spec (Auth.expiresAt tok) now).
    + rewrite attempt_sign_in; [done|done|by rewrite Htok].
    + destruct (Z.ltb_spec (Auth.expiresAt tok) (now + 600)).
      * by rewrite (attempt_refresh now c tok).
      * by rewrite (attempt_reuse now c tok).
  - rewrite attempt_sign_in; [done|done|by rewrite Htok].
Qed.

(** C5, as the code has it. From a new client on, whatever the event loop
    runs, at most one token request is in flight, and one is exactly while
    the lock is held. While it is held, a call that arrives or wakes goes to
    sleep and posts nothing. With the lock free, a call that arrives, and
    a sleeping call that wakes, goes by the policy from the token held and
    the time it reads then: it takes the lock, posts the sign-in or the
    refresh that is due and awaits it, or it returns the access token held
    and posts nothing; a request is posted exactly when that token is
    absent, expired or within ten minutes of expiring. When a call finds
    such a token, further calls arrive while its
    request is in flight, the request succeeds and the sleeping calls wake
    while the new token is at least ten minutes from expiring, one request
    has been posted in all and every call returns the new access token. *)
Theorem one_token_request_at_a_time :
  (∀ u p events,
     let s := run (init u p) events in
     (in_flight (callers s) ≤ 1)%nat
     ∧ (accessTokenLock (client s) = true ↔ in_flight (callers s) = 1%nat))
  ∧ (∀ s now,
       accessTokenLock (client s) = true →
       step s (Call now) = mkSystem (client s) (callers s ++ [Sleeping]) (posted s)
       ∧ ∀ i, step s (Wake i now) = s)
  ∧ (∀ s now,
       accessTokenLock (client s) = false →
       length (posted (step s (Call now)))
       = (length (posted s)
          + if needs_request now (accessToken (client s)) then 1 else 0)%nat)
  ∧ (∀ s now,
       accessTokenLock (client s) = false →
       let c := client s in
       step s (Call now)
       = mkSystem (policy_client now c) (callers s ++ [policy_phase now c])
                  (posted s ++ option_list (due_request now c))
       ∧ ∀ i, callers s !! i = Some Sleeping →
              step s (Wake i now)
              = mkSystem (policy_client now c) (<[i := policy_phase now c]> (callers s))
                         (posted s ++ option_list (due_request now c)))
  ∧ (∀ c now others now_ms status access refresh wakes,
       accessTokenLock c = false →
       needs_request now (accessToken c) = true →
       isSuccess status = true →
       length wakes = length others →
       Forall (λ w, w + 600 ≤ now_ms / 1000 + 3600) wakes →
       let tok := Auth.createAccessToken now_ms access refresh in
       ∃ req,
         run (mkSystem c [] [])
             (Call now :: (Call <$> others)
              ++ Settle 0 now_ms (Responded status access refresh)
              :: zip_with Wake (seq 1 (length wakes)) wakes)
         = mkSystem (mkClient (username c) (password c) (Some tok) false)
                    (replicate (S (length others)) (Returned (Ok access)))
                    [req]).
Proof.
  split; [|split; [|split; [|split]]].
  - intros u p events s.
    pose proof (run_lock_invariant (init u p) events eq_refl) as Hinv.
    fold s in Hinv. unfold lock_invariant in Hinv.
    destruct (accessTokenLock (client s)); rewrite Hinv; split; try done; lia.
  - apply locked_step_waits.
  - intros s now Hlock. cbn [step].
    destruct (needs_request now (accessToken (client s))) eqn:Hneeds.
    + destruct (attempt_posts now (client s) Hlock Hneeds) as [req ->].
      cbn [posted]. by rewrite length_app.
    + destruct (attempt_posts_nothing now (client s) Hlock Hneeds) as [tok ->].
      cbn [posted]. rewrite length_app. simpl. lia.
  - intros s now Hlock c.
    pose proof (attempt_policy now c Hlock) as Hatt. split.
    + cbn [step]. fold c. by rewrite Hatt.
    + intros i Hi. cbn [step]. rewrite Hi. fold c. by rewrite Hatt.
  - intros c now others now_ms status access refresh wakes
      Hlock Hneeds Hok Hlen Hfresh tok.
    destruct (attempt_posts now c Hlock Hneeds) as [req Hatt]. exists req.
    change (Call now :: ?l) with ([Call now] ++ l).
    rewrite run_app. cbn [run foldl step client callers posted].
    rewrite Hatt. cbn [app].
    rewrite run_app, calls_while_locked by done.
    cbn [run foldl step client callers posted app lookup list_lookup].
    unfold asyncGetToken. rewrite Hok. cbn [resume].
    cbn [list_insert insert].
    pose proof (sleepers_return_token
      (set_lock false (set_token tok (set_lock true c))) tok wakes
      [Returned (Ok access)] [req] eq_refl eq_refl Hfresh) as Hs.
    cbn [length app] in Hs. rewrite <- Hlen. unfold run in Hs.
    cbn [Auth.accessToken tok Auth.createAccessToken] in *.
    fold tok. rewrite Hs. by destruct c.
Qed.

(** Two calls made at second 10 on a new client, a sign-in accepted half a
    second later: one request, and both calls return the new access token. *)
Lemma one_token_request_at_a_time_witness :
  ∃ req,
    run (mkSystem (mkClient (JS.lit "user") (JS.lit "secret") None false) [] [])
        (Call 10 :: (Call <$> [10])
         ++ Settle 0 10500 (Responded 200 (JS.lit "access") (JS.lit "refresh"))
         :: zip_with Wake (seq 1 (length [11])) [11])
    = mkSystem (mkClient (JS.lit "user") (JS.lit "secret")
                  (Some (Auth.createAccessToken 10500 (JS.lit "access") (JS.lit "refresh")))
                  false)
               (replicate 2 (Returned (Ok (JS.lit "access"))))
               [req].
Proof.
  refine (proj2 (proj2 (proj2 (proj2 one_token_request_at_a_time)))
            (mkClient (JS.lit "user") (JS.lit "secret") None false)
            10 [10] 10500 200 (JS.lit "access") (JS.lit "refresh") [11] _ _ _ _ _).
  - reflexivity.
  - reflexivity.
  - reflexivity.
  - reflexivity.
  - apply Forall_cons_2; [|apply Forall_nil_2]. vm_compute. discriminate.
Defined.

(** Where "exactly one REST call" fails: two calls on a new client, the
    sign-in of the first refused; the second, once awake, posts a sign-in of
    its own. And with the sign-in accepted, a second call that wakes 55 minutes
    later posts a refresh. *)
Lemma concurrent_callers_counterexample :
  (let s := run (init (JS.lit "user") (JS.lit "secret"))
                [Call 10; Call 10;
                 Settle 0 10500 (AxiosError (Some 401) (JS.lit "Unauthorized"));
                 Wake 1 11] in
   posted s = [SignInRequest (JS.lit "user") (JS.lit "secret");
               SignInRequest (JS.lit "user") (JS.lit "secret")]
   ∧ length (posted s) = 2%nat
   ∧ in_flight (callers s) = 1%nat)
  ∧ (let s := run (init (JS.lit "user") (JS.lit "secret"))
                  [Call 10; Call 10;
                   Settle 0 10500 (Responded 200 (JS.lit "access") (JS.lit "refresh"));
                   Wake 1 3310] in
     posted s = [SignInRequest (JS.lit "user") (JS.lit "secret");
                 RefreshRequest (JS.lit "user") (JS.lit "refresh")]).
Proof. vm_compute. done. Qed.

End ConcurrentCallers.

(** ** Pending commands (C4, C6) *)

Section PendingCommands.

Import Commands.

Lemma resolve_calls_resolve (s : State) (n m : nat) (v : bool) :
  resolve_calls (resolve n v s) m
  = if decide (m = n) then resolve_calls s n ++ [v] else resolve_calls s m.
Proof.
  unfold resolve_calls at 1. unfold resolve. cbn [resolutions].
  destruct (decide (m = n)) as [->|Hne].
  - by rewrite lookup_insert_eq.
  - by rewrite lookup_insert_ne.
Qed.

Lemma resolve_calls_pending_delete (s : State) (i : JS.jsstring) (m : nat) :
  resolve_calls (pending_delete i s) m = resolve_calls s m.
Proof. done. Qed.

Lemma resolve_calls_clearTimeout (s : State) (n m : nat) :
  resolve_calls (clearTimeout n s) m = resolve_calls s m.
Proof. done. Qed.

Lemma calls_resolve (s : State) (n : nat) (v : bool) :
  calls (resolve n v s) = calls s.
Proof. done. Qed.

Lemma wf_init : wf init.
Proof.
  split; unfold resolve_calls; cbn [init pendingCommands timeouts resolutions calls].
  - intros i n Hi. by rewrite lookup_empty in Hi.
  - intros n t Hn. by rewrite lookup_empty in Hn.
  - intros n. rewrite lookup_empty. simpl. lia.
  - intros n _. by rewrite lookup_empty.
Qed.

Lemma wf_executeCommand (now : Z) (cr : CommandResponse) (s : State) :
  wf s → wf (executeCommand now cr s).
Proof.
  intros [Hpend Harmed Honce Hfresh]. unfold executeCommand. cbn [connected calls].
  destruct (connected s); cbn [negb].
  - split; cbn [pendingCommands timeouts calls].
    + intros i n Hi.
      destruct (decide (i = id cr)) as [->|Hne].
      * rewrite lookup_insert_eq in Hi. injection Hi as <-.
        rewrite lookup_insert_eq. by eexists.
      * rewrite lookup_insert_ne in Hi by done.
        destruct (Hpend i n Hi) as [d Hd]. exists d.
        rewrite lookup_insert_ne; [done|].
        intros <-. apply Harmed in Hd as [Hlt _]. lia.
    + intros n t Hn. destruct (decide (n = calls s)) as [->|Hne].
      * split; [lia|]. by apply Hfresh.
      * rewrite lookup_insert_ne in Hn by done.
        apply Harmed in Hn as [Hlt Hnil]. split; [lia|done].
    + done.
    + intros n Hn. apply Hfresh. lia.
  - split.
    + done.
    + intros n t Hn. apply Harmed in Hn as [Hlt Hnil].
      rewrite resolve_calls_resolve, calls_resolve. cbn [calls].
      destruct (decide (n = calls s)); [lia|]. split; [lia|done].
    + intros n. rewrite resolve_calls_resolve.
      destruct (decide (n = calls s)) as [->|]; [|apply Honce].
      unfold resolve_calls at 1. cbn [resolutions].
      change (default [] (resolutions s !! calls s)) with (resolve_calls s (calls s)).
      rewrite Hfresh by lia. simpl. lia.
    + intros n. rewrite calls_resolve. cbn [calls]. intros Hn.
      rewrite resolve_calls_resolve.
      destruct (decide (n = calls s)); [lia|]. apply Hfresh. lia.
Qed.

(** A stored closure, called with a confirmation: the promise of its call
    takes the verdict, its timeout is disarmed, its entry is gone. *)
Lemma notify_command_pending (s : State) (c : CommandResponse) (n : nat) :
  wf s → pendingCommands s !! id c = Some n →
  let s' := notify_command s c in
  resolve_calls s' n = [bool_decide (status c = SUCCESS)]
  ∧ pendingCommands s' = delete (id c) (pendingCommands s)
  ∧ timeouts s' = delete n (timeouts s)
  ∧ calls s' = calls s ∧ connected s' = connected s
  ∧ ∀ m, m ≠ n → resolve_calls s' m = resolve_calls s m.
Proof.
  intros [Hpend Harmed _ _] Hn. unfold notify_command. rewrite Hn.
  destruct (Hpend _ _ Hn) as [d Hd]. apply Harmed in Hd as [_ Hnil].
  unfold pending_resolve.
  destruct (bool_decide (status c = SUCCESS)); cbn zeta;
    (split; [|split; [done|split; [done|split; [done|split; [done|]]]]]).
  - rewrite resolve_calls_pending_delete, resolve_calls_resolve, decide_True by done.
    by rewrite resolve_calls_clearTimeout, Hnil.
  - intros m Hm.
    by rewrite resolve_calls_pending_delete, resolve_calls_resolve, decide_False.
  - rewrite resolve_calls_pending_delete, resolve_calls_resolve, decide_True by done.
    by rewrite resolve_calls_clearTimeout, Hnil.
  - intros m Hm.
    by rewrite resolve_calls_pending_delete, resolve_calls_resolve, decide_False.
Qed.

Lemma notify_command_absent (s : State) (c : CommandResponse) :
  pendingCommands s !! id c = None → notify_command s c = s.
Proof. intros Hnone. unfold notify_command. by rewrite Hnone. Qed.

Lemma wf_notify_command (s : State) (c : CommandResponse) :
  wf s → wf (notify_command s c).
Proof.
  intros Hwf. destruct (pendingCommands s !! id c) as [n|] eqn:Hn;
    [|by rewrite notify_command_absent].
  destruct (notify_command_pending s c n Hwf Hn)
    as (Hres & Hpending & Htimeouts & Hcalls & _ & Hothers).
  destruct Hwf as [Hpend Harmed Honce Hfresh].
  destruct (Hpend _ _ Hn) as [d Hd].
  split.
  - intros i m. rewrite Hpending, Htimeouts. intros Hi.
    apply lookup_delete_Some in Hi as [Hne Hi].
    destruct (Hpend i m Hi) as [d' Hd']. exists d'.
    rewrite lookup_delete_ne; [done|]. intros <-. congruence.
  - intros m t. rewrite Htimeouts, Hcalls. intros Hm.
    apply lookup_delete_Some in Hm as [Hne Hm].
    rewrite Hothers by done. by apply (Harmed m t).
  - intros m. destruct (decide (m = n)) as [->|Hne].
    + rewrite Hres. simpl. lia.
    + rewrite Hothers by done. apply Honce.
  - intros m. rewrite Hcalls. intros Hm.
    apply Harmed in Hd as [Hlt _].
    rewrite Hothers by lia. by apply Hfresh.
Qed.

Lemma wf_parseWebsocketMessage (commands : list CommandResponse) (s : State) :
  wf s → wf (parseWebsocketMessage commands s).
Proof.
  unfold parseWebsocketMessage. revert s.
  induction commands as [|c commands IH]; intros s Hwf; [done|].
  simpl. apply IH. by apply wf_notify_command.
Qed.

(** A timeout that runs: the promise of its call takes [false], the entry
    under the id it closes over is gone, the timeout is spent. *)
Lemma elapse_due (s : State) (now : Z) (n : nat) (t : Timeout) :
  wf s → timeouts s !! n = Some t → due t ≤ now →
  let s' := step s (Elapse now n) in
  resolve_calls s' n = [false]
  ∧ pendingCommands s' = delete (cmd_id t) (pendingCommands s)
  ∧ timeouts s' = delete n (timeouts s)
  ∧ calls s' = calls s ∧ connected s' = connected s
  ∧ ∀ m, m ≠ n → resolve_calls s' m = resolve_calls s m.
Proof.
  intros [_ Harmed _ _] Hn Hdue. cbn [step]. rewrite Hn.
  destruct (Z.leb_spec (due t) now) as [_|]; [|lia].
  apply Harmed in Hn as [_ Hnil].
  unfold timeout_callback. cbn zeta.
  split; [|split; [done|split; [done|split; [done|split; [done|]]]]].
  - rewrite resolve_calls_resolve, decide_True by done.
    by rewrite resolve_calls_pending_delete, resolve_calls_clearTimeout, Hnil.
  - intros m Hm. by rewrite resolve_calls_resolve, decide_False.
Qed.

Lemma elapse_early (s : State) (now : Z) (n : nat) (t : Timeout) :
  timeouts s !! n = Some t → now < due t → step s (Elapse now n) = s.
Proof.
  intros Hn Hearly. cbn [step]. rewrite Hn.
  by destruct (Z.leb_spec (due t) now) as [|_]; [lia|].
Qed.

Lemma elapse_disarmed (s : State) (now : Z) (n : nat) :
  timeouts s !! n = None → step s (Elapse now n) = s.
Proof. intros Hn. cbn [step]. by rewrite Hn. Qed.

Lemma wf_step (s : State) (e : Event) : wf s → wf (step s e).
Proof.
  intros Hwf. destruct e as [now cr|now commands|now n|now up].
  - by apply wf_executeCommand.
  - by apply wf_parseWebsocketMessage.
  - destruct (timeouts s !! n) as [t|] eqn:Hn; [|by rewrite elapse_disarmed].
    destruct (Z.lt_ge_cases now (due t)) as [Hearly|Hdue];
      [by rewrite (elapse_early s now n t)|].
    destruct (elapse_due s now n t Hwf Hn ltac:(lia))
      as (Hres & Hpending & Htimeouts & Hcalls & _ & Hothers).
    destruct Hwf as [Hpend Harmed Honce Hfresh].
    split.
    + intros i m. rewrite Hpending, Htimeouts. intros Hi.
      apply lookup_delete_Some in Hi as [Hne Hi].
      destruct (Hpend i m Hi) as [d' Hd']. exists d'.
      rewrite lookup_delete_ne; [done|]. intros <-.
      rewrite Hn in Hd'. injection Hd' as ->. done.
    + intros m t'. rewrite Htimeouts, Hcalls. intros Hm.
      apply lookup_delete_Some in Hm as [Hne Hm].
      rewrite Hothers by done. by apply (Harmed m t').
    + intros m. destruct (decide (m = n)) as [->|Hne].
      * rewrite Hres. simpl. lia.
      * rewrite Hothers by done. apply Honce.
    + intros m. rewrite Hcalls. intros Hm.
      apply Harmed in Hn as [Hlt _].
      rewrite Hothers by lia. by apply Hfresh.
  - destruct Hwf as [Hpend Harmed Honce Hfresh]. by split.
Qed.

Lemma wf_run (s : State) (events : list Event) : wf s → wf (run s events).
Proof.
  unfold run. revert s. induction events as [|e events IH]; intros s Hwf; [done|].
  simpl. apply IH. by apply wf_step.
Qed.

End PendingCommands.

Section Confirmation.

Import Commands.

(** The values a promise was resolved with are never taken back. *)
Lemma notify_command_prefix (s : State) (c : CommandResponse) (m : nat) :
  resolve_calls s m `prefix_of` resolve_calls (notify_command s c) m.
Proof.
  unfold notify_command. destruct (pendingCommands s !! id c) as [n|]; [|done].
  unfold pending_resolve.
  destruct (bool_decide (status c = SUCCESS)); cbn zeta;
    rewrite resolve_calls_pending_delete, resolve_calls_resolve,
      resolve_calls_clearTimeout;
    (destruct (decide (m = n)) as [->|]; [by apply prefix_app_r|done]).
Qed.

Lemma step_prefix (s : State) (e : Event) (m : nat) :
  resolve_calls s m `prefix_of` resolve_calls (step s e) m.
Proof.
  destruct e as [now cr|now commands|now n|now up]; cbn [step].
  - unfold executeCommand. cbn [connected calls].
    destruct (connected s); cbn [negb]; [done|].
    rewrite resolve_calls_resolve.
    destruct (decide (m = calls s)) as [->|]; [by apply prefix_app_r|done].
  - unfold parseWebsocketMessage. revert s.
    induction commands as [|c commands IH]; intros s; [done|].
    simpl. etrans; [apply (notify_command_prefix s c)|apply IH].
  - destruct (timeouts s !! n) as [t|]; [|done].
    destruct (due t <=? now); [|done].
    unfold timeout_callback. cbn zeta.
    rewrite resolve_calls_resolve, resolve_calls_pending_delete,
      resolve_calls_clearTimeout.
    destruct (decide (m = n)) as [->|]; [by apply prefix_app_r|done].
  - done.
Qed.

Lemma resolved_stays (s : State) (events : list Event) (n : nat) (v : bool) :
  wf s → resolve_calls s n = [v] → resolve_calls (run s events) n = [v].
Proof.
  unfold run. revert s.
  induction events as [|e events IH]; intros s Hwf Hv; [done|].
  simpl. apply IH; [by apply wf_step|].
  pose proof (step_prefix s e n) as [k Hk]. rewrite Hv in Hk.
  pose proof (wf_once _ (wf_step s e Hwf) n) as Hlen.
  rewrite Hk in Hlen |- *. destruct k; [done|]. simpl in Hlen. lia.
Qed.

Lemma registered_issue (s : State) (now : Z) (cr : CommandResponse) :
  wf s → connected s = true →
  (∀ m t, timeouts s !! m = Some t → cmd_id t ≠ id cr) →
  registered (step s (Issue now cr)) (id cr) (calls s) (now + 10000).
Proof.
  intros [_ Harmed _ Hfresh] Hconn Hnew. cbn [step]. unfold executeCommand.
  cbn [connected calls]. rewrite Hconn. cbn [negb].
  split; [|split; [|split]]; cbn [pendingCommands timeouts].
  - apply lookup_insert_eq.
  - apply lookup_insert_eq.
  - by apply Hfresh.
  - intros m t Hm Hid. destruct (decide (m = calls s)) as [|Hne]; [done|].
    rewrite lookup_insert_ne in Hm by done. by destruct (Hnew m t Hm).
Qed.

Lemma registered_notify_other (s : State) (c : CommandResponse)
    (i : JS.jsstring) (n : nat) (d : Z) :
  wf s → registered s i n d → id c ≠ i → registered (notify_command s c) i n d.
Proof.
  intros Hwf (Hi & Hn & Hnil & Huniq) Hne.
  destruct (pendingCommands s !! id c) as [m|] eqn:Hm;
    [|by rewrite notify_command_absent].
  destruct (notify_command_pending s c m Hwf Hm)
    as (_ & Hpending & Htimeouts & _ & _ & Hothers).
  assert (m ≠ n) as Hmn.
  { intros ->. destruct (wf_pending _ Hwf _ _ Hm) as [d' Hd']. congruence. }
  split; [|split; [|split]].
  - rewrite Hpending. by rewrite lookup_delete_ne.
  - rewrite Htimeouts. by rewrite lookup_delete_ne.
  - by rewrite Hothers.
  - intros m' t. rewrite Htimeouts. intros Hm' Hid.
    apply lookup_delete_Some in Hm' as [_ Hm']. by apply (Huniq m' t).
Qed.

Lemma registered_step (s : State) (e : Event) (i : JS.jsstring) (n : nat) (d : Z) :
  wf s → registered s i n d → quiet i n d e → registered (step s e) i n d.
Proof.
  intros Hwf Hreg Hquiet.
  destruct e as [now cr|now commands|now m|now up]; cbn [quiet] in Hquiet.
  - destruct Hreg as (Hi & Hn & Hnil & Huniq).
    destruct (wf_armed _ Hwf _ _ Hn) as [Hlt _].
    cbn [step]. unfold executeCommand. cbn [connected calls].
    destruct (connected s); cbn [negb].
    + split; [|split; [|split]]; cbn [pendingCommands timeouts].
      * by rewrite lookup_insert_ne.
      * rewrite lookup_insert_ne; [done|lia].
      * done.
      * intros m t Hm Hid. destruct (decide (m = calls s)) as [->|Hne].
        -- rewrite lookup_insert_eq in Hm. injection Hm as <-. done.
        -- rewrite lookup_insert_ne in Hm by done. by apply (Huniq m t).
    + split; [done|split; [done|split; [|done]]].
      rewrite resolve_calls_resolve. destruct (decide (n = calls s)); [lia|done].
  - cbn [step]. unfold parseWebsocketMessage. revert s Hwf Hreg.
    induction Hquiet as [|c commands Hc _ IH]; intros s Hwf Hreg; [done|].
    simpl. apply IH; [by apply wf_notify_command|by apply registered_notify_other].
  - destruct (timeouts s !! m) as [t|] eqn:Hm; [|by rewrite elapse_disarmed].
    destruct (Z.lt_ge_cases now (due t)) as [Hearly|Hdue];
      [by rewrite (elapse_early s now m t)|].
    destruct Hreg as (Hi & Hn & Hnil & Huniq).
    assert (m ≠ n) as Hmn.
    { intros ->. rewrite Hn in Hm. injection Hm as <-. simpl in Hdue.
      specialize (Hquiet eq_refl). lia. }
    destruct (elapse_due s now m t Hwf Hm ltac:(lia))
      as (_ & Hpending & Htimeouts & _ & _ & Hothers).
    split; [|split; [|split]].
    + rewrite Hpending. rewrite lookup_delete_ne; [done|].
      intros Hid. by apply Hmn, (Huniq m t).
    + rewrite Htimeouts. by rewrite lookup_delete_ne.
    + by rewrite Hothers.
    + intros m' t'. rewrite Htimeouts. intros Hm' Hid.
      apply lookup_delete_Some in Hm' as [_ Hm']. by apply (Huniq m' t').
  - done.
Qed.

Lemma registered_run (s : State) (events : list Event)
    (i : JS.jsstring) (n : nat) (d : Z) :
  wf s → registered s i n d → Forall (quiet i n d) events →
  registered (run s events) i n d.
Proof.
  intros Hwf Hreg Hquiet. unfold run. revert s Hwf Hreg.
  induction Hquiet as [|e events He _ IH]; intros s Hwf Hreg; [done|].
  simpl. apply IH; [by apply wf_step|by apply registered_step].
Qed.

(** A frame whose first entry for [i] is [c] settles the command under [i]
    with the verdict of [c]. *)
Lemma message_confirms (s : State) (now : Z) (i : JS.jsstring) (n : nat) (d : Z)
    (before after : list CommandResponse) (c : CommandResponse) :
  wf s → registered s i n d → Forall (λ c', id c' ≠ i) before → id c = i →
  let s' := step s (Message now (before ++ c :: after)) in
  resolve_calls s' n = [bool_decide (status c = SUCCESS)]
  ∧ pendingCommands s' !! i = None
  ∧ timeouts s' !! n = None.
Proof.
  intros Hwf Hreg Hbefore Hc. cbn [step]. unfold parseWebsocketMessage.
  rewrite foldl_app. cbn [foldl].
  set (s1 := foldl notify_command s before).
  assert (wf s1 ∧ registered s1 i n d) as [Hwf1 (Hi & Hn & Hnil & Huniq)].
  { subst s1. clear Hc. revert s Hwf Hreg.
    induction Hbefore as [|c' before Hc' _ IH]; intros s Hwf Hreg; [done|].
    simpl. apply IH; [by apply wf_notify_command|by apply registered_notify_other]. }
  rewrite <- Hc in Hi.
  destruct (notify_command_pending s1 c n Hwf1 Hi)
    as (Hres & Hpending & Htimeouts & _ & _ & _).
  set (s2 := notify_command s1 c) in *.
  assert (wf s2) as Hwf2 by (by apply wf_notify_command).
  fold (parseWebsocketMessage after s2).
  assert (∀ s, wf s → pendingCommands s !! i = None → timeouts s !! n = None →
            pendingCommands (parseWebsocketMessage after s) !! i = None
            ∧ timeouts (parseWebsocketMessage after s) !! n = None) as Hafter.
  { unfold parseWebsocketMessage. clear.
    induction after as [|c' after IH]; intros s Hwf Hi Hn; [done|].
    simpl. destruct (pendingCommands s !! id c') as [m|] eqn:Hm;
      [|rewrite notify_command_absent by done; by apply IH].
    destruct (notify_command_pending s c' m Hwf Hm)
      as (_ & Hpending & Htimeouts & _ & _ & _).
    apply IH; [by apply wf_notify_command| |].
    - rewrite Hpending. destruct (decide (id c' = i)) as [->|];
        [apply lookup_delete_eq|by rewrite lookup_delete_ne].
    - rewrite Htimeouts. destruct (decide (m = n)) as [->|];
        [apply lookup_delete_eq|by rewrite lookup_delete_ne]. }
  destruct (Hafter s2 Hwf2) as [Hi' Hn'].
  { rewrite Hpending, Hc. apply lookup_delete_eq. }
  { rewrite Htimeouts. apply lookup_delete_eq. }
  split; [|done].
  apply (resolved_stays s2 [Message now after] n _ Hwf2 Hres).
Qed.

Lemma notify_command_pendingCommands (s : State) (c : CommandResponse) :
  pendingCommands (notify_command s c) = delete (id c) (pendingCommands s).
Proof.
  unfold notify_command. destruct (pendingCommands s !! id c) as [n|] eqn:Hn.
  - unfold pending_resolve. by destruct (bool_decide (status c = SUCCESS)).
  - by rewrite delete_id.
Qed.

Lemma parse_pendingCommands (commands : list CommandResponse) (s : State)
    (i : JS.jsstring) :
  pendingCommands (parseWebsocketMessage commands s) !! i
  = if decide (i ∈ id <$> commands) then None else pendingCommands s !! i.
Proof.
  unfold parseWebsocketMessage. revert s.
  induction commands as [|c commands IH]; intros s.
  - cbn [foldl fmap list_fmap]. case_decide as Hin; [|done].
    by apply elem_of_nil in Hin.
  - cbn [foldl]. rewrite IH, notify_command_pendingCommands. rewrite fmap_cons.
    destruct (decide (i = id c)) as [->|Hne].
    + rewrite lookup_delete_eq.
      destruct (decide (id c ∈ id c :: (id <$> commands))) as [_|Hnot].
      * by destruct (decide _).
      * exfalso. apply Hnot, list_elem_of_here.
    + rewrite lookup_delete_ne by done.
      destruct (decide (i ∈ id <$> commands)) as [Hin|Hnotin];
        destruct (decide (i ∈ id c :: (id <$> commands))) as [Hin'|Hnotin'];
        try done.
      * exfalso. by apply Hnotin', list_elem_of_further.
      * exfalso. apply elem_of_cons in Hin' as [?|?]; done.
Qed.

(** A frame none of whose entries is awaited changes nothing. *)
Lemma parse_unmatched (commands : list CommandResponse) (s : State) :
  Forall (λ c, pendingCommands s !! id c = None) commands →
  parseWebsocketMessage commands s = s.
Proof.
  unfold parseWebsocketMessage.
  induction 1 as [|c commands Hc _ IH]; [done|].
  simpl. by rewrite notify_command_absent.
Qed.

(** The call awaited under [i] takes the verdict of the first entry for
    [i], whatever else the frame lists. *)
Lemma parse_first_entry (s : State) (i : JS.jsstring) (n : nat)
    (before after : list CommandResponse) (c : CommandResponse) :
  wf s → pendingCommands s !! i = Some n →
  Forall (λ c', id c' ≠ i) before → id c = i →
  let s' := parseWebsocketMessage (before ++ c :: after) s in
  resolve_calls s' n = [bool_decide (status c = SUCCESS)]
  ∧ timeouts s' !! n = None.
Proof.
  intros Hwf Hn Hbefore Hc. revert s Hwf Hn.
  induction Hbefore as [|c0 before Hc0 _ IH]; intros s Hwf Hn s'.
  - subst s'. cbn [app]. unfold parseWebsocketMessage. cbn [foldl].
    rewrite <- Hc in Hn.
    destruct (notify_command_pending s c n Hwf Hn) as (Hres & _ & Htimeouts & _).
    pose proof (wf_notify_command s c Hwf) as Hwf'.
    fold (parseWebsocketMessage after (notify_command s c)).
    split.
    + by apply (resolved_stays _ [Message 0 after] n _ Hwf' Hres).
    + assert (∀ s0, timeouts s0 !! n = None →
                timeouts (parseWebsocketMessage after s0) !! n = None) as Hgone.
      { unfold parseWebsocketMessage. clear.
        induction after as [|c' after IH]; intros s0 Hs0; [done|].
        simpl. apply IH. unfold notify_command.
        destruct (pendingCommands s0 !! id c') as [m|]; [|done].
        unfold pending_resolve.
        destruct (bool_decide (status c' = SUCCESS)); cbn;
          (destruct (decide (m = n)) as [->|];
           [apply lookup_delete_eq|by rewrite lookup_delete_ne]). }
      apply Hgone. rewrite Htimeouts. apply lookup_delete_eq.
  - subst s'. cbn [app]. unfold parseWebsocketMessage. cbn [foldl].
    apply (IH (notify_command s c0)).
    + by apply wf_notify_command.
    + rewrite notify_command_pendingCommands. by rewrite lookup_delete_ne.
Qed.

(** The promise of a call that is awaited under none of the ids listed is
    left as it was. *)
Lemma parse_other_calls (commands : list CommandResponse) (s : State) (n : nat) :
  wf s →
  (∀ c, c ∈ commands → pendingCommands s !! id c ≠ Some n) →
  resolve_calls (parseWebsocketMessage commands s) n = resolve_calls s n.
Proof.
  unfold parseWebsocketMessage. revert s.
  induction commands as [|c commands IH]; intros s Hwf Hother; [done|].
  cbn [foldl]. rewrite IH.
  - destruct (pendingCommands s !! id c) as [m|] eqn:Hm;
      [|by rewrite notify_command_absent].
    destruct (notify_command_pending s c m Hwf Hm) as (_ & _ & _ & _ & _ & Hothers).
    apply Hothers. intros ->. by apply (Hother c); [apply list_elem_of_here|].
  - by apply wf_notify_command.
  - intros c' Hc'. rewrite notify_command_pendingCommands.
    intros Hn. apply lookup_delete_Some in Hn as [_ Hn].
    by apply (Hother c'); [apply list_elem_of_further|].
Qed.

(** A frame that names the id of a command in the pending map settles it,
    and its timeout does nothing afterwards. *)
Lemma frame_settles (s : State) (i : JS.jsstring) (n : nat) (now : Z)
    (before after : list CommandResponse) (c : CommandResponse) :
  wf s → pendingCommands s !! i = Some n →
  Forall (λ c', id c' ≠ i) before → id c = i →
  let s' := step s (Message now (before ++ c :: after)) in
  resolve_calls s' n = [bool_decide (status c = SUCCESS)]
  ∧ pendingCommands s' !! i = None
  ∧ (∀ τ, step s' (Elapse τ n) = s')
  ∧ ∀ later, resolve_calls (run s' later) n = [bool_decide (status c = SUCCESS)].
Proof.
  intros Hwf Hn Hbefore Hc s'.
  destruct (parse_first_entry s i n before after c Hwf Hn Hbefore Hc)
    as [Hres Htimeout].
  assert (wf s') as Hwf' by (by apply wf_step).
  split; [done|]. split; [|split].
  - subst s'. cbn [step]. rewrite parse_pendingCommands.
    rewrite decide_True; [done|].
    rewrite fmap_app, fmap_cons, Hc. apply elem_of_app. right.
    apply list_elem_of_here.
  - intros τ. by apply elapse_disarmed.
  - intros later. by apply resolved_stays.
Qed.

(** A timeout that runs due settles its call, and a frame with the id it
    closes over does nothing afterwards. *)
Lemma timeout_settles (s : State) (n : nat) (t : Timeout) (now : Z) :
  wf s → timeouts s !! n = Some t → due t ≤ now →
  let s' := step s (Elapse now n) in
  resolve_calls s' n = [false]
  ∧ pendingCommands s' !! cmd_id t = None
  ∧ (∀ τ c, id c = cmd_id t → step s' (Message τ [c]) = s')
  ∧ ∀ later, resolve_calls (run s' later) n = [false].
Proof.
  intros Hwf Hn Hdue s'.
  destruct (elapse_due s now n t Hwf Hn Hdue) as (Hres & Hpending & _).
  fold s' in Hres, Hpending.
  assert (pendingCommands s' !! cmd_id t = None) as Hgone.
  { rewrite Hpending. apply lookup_delete_eq. }
  split; [done|]. split; [done|]. split.
  - intros τ c Hc. cbn [step]. unfold parseWebsocketMessage. cbn [foldl].
    apply notify_command_absent. by rewrite Hc.
  - intros later. apply resolved_stays; [by apply wf_step|done].
Qed.

End Confirmation.

Section CommandOutcome.

Import Commands.

(** C4, as the code has it. A call of [executeCommand] whose POST was
    answered [cr], made after any history of events. Without a connected websocket its promise is
    resolved [true] at once. With one, and no armed timeout closing over the
    id of [cr] already, the call waits through every event that neither
    names that id nor is its own timeout running due; then a frame whose
    first entry for the id has status [Success] resolves the promise [true],
    one whose first entry for the id has any other status resolves it
    [false], and the timeout, not due before 10000 ms have passed, resolves
    it [false] when it runs first. In each case the entry is gone from the
    pending map and no later event changes the verdict. *)
Theorem executeCommand_outcome (history : list Event) (now : Z) (cr : CommandResponse) :
  let s := run init history in
  let n := calls s in
  let s1 := step s (Issue now cr) in
  (connected s = false → resolve_calls s1 n = [true])
  ∧ (connected s = true →
     (∀ m t, timeouts s !! m = Some t → cmd_id t ≠ id cr) →
     ∀ between, Forall (quiet (id cr) n (now + 10000)) between →
       let s2 := run s1 between in
       resolve_calls s2 n = []
       ∧ (∀ τ, τ < now + 10000 → step s2 (Elapse τ n) = s2)
       ∧ (∀ τ before c after later,
            Forall (λ c', id c' ≠ id cr) before → id c = id cr →
            let s3 := step s2 (Message τ (before ++ c :: after)) in
            resolve_calls (run s3 later) n = [bool_decide (status c = SUCCESS)]
            ∧ pendingCommands s3 !! id cr = None)
       ∧ (∀ τ later, now + 10000 ≤ τ →
            let s3 := step s2 (Elapse τ n) in
            resolve_calls (run s3 later) n = [false]
            ∧ pendingCommands s3 !! id cr = None)).
Proof.
  intros s n s1.
  assert (wf s) as Hwf by apply wf_run, wf_init.
  assert (wf s1) as Hwf1 by (by apply wf_step).
  split.
  - intros Hconn. subst s1. cbn [step]. unfold executeCommand.
    cbn [connected calls]. rewrite Hconn. cbn [negb].
    rewrite resolve_calls_resolve, decide_True by done.
    unfold resolve_calls at 1. cbn [resolutions].
    fold (resolve_calls s (calls s)). by rewrite (wf_fresh _ Hwf).
  - intros Hconn Hnew between Hquiet s2.
    pose proof (registered_issue s now cr Hwf Hconn Hnew) as Hreg.
    pose proof (registered_run _ between _ _ _ Hwf1 Hreg Hquiet) as Hreg2.
    fold s1 n s2 in Hreg2.
    assert (wf s2) as Hwf2 by (by apply wf_run).
    destruct Hreg2 as (Hi & Hn & Hnil & Huniq) eqn:Hreq.
    split; [done|]. split; [|split].
    + intros τ Hearly. by apply (elapse_early s2 τ n _ Hn).
    + intros τ before c after later Hbefore Hc s3.
      destruct (message_confirms s2 τ (id cr) n _ before after c Hwf2
                  (conj Hi (conj Hn (conj Hnil Huniq))) Hbefore Hc)
        as (Hres & Hgone & _).
      fold s3 in Hres, Hgone. split; [|done].
      apply resolved_stays; [by apply wf_step|done].
    + intros τ later Hdue s3.
      destruct (elapse_due s2 τ n _ Hwf2 Hn Hdue) as (Hres & Hpending & _).
      fold s3 in Hres, Hpending. split.
      * apply resolved_stays; [by apply wf_step|done].
      * rewrite Hpending. apply lookup_delete_eq.
Qed.

Lemma executeCommand_outcome_witness :
  let s1 := step (run init [Socket 0 true]) (Issue 100 sample_ack) in
  resolve_calls (run (step s1 (Message 600 ([] ++ sample_confirmation :: []))) []) 0
  = [bool_decide (status sample_confirmation = SUCCESS)]
  ∧ pendingCommands (step s1 (Message 600 ([] ++ sample_confirmation :: [])))
      !! id sample_ack = None.
Proof.
  refine (proj1 (proj2 (proj2 (proj2 (executeCommand_outcome [Socket 0 true] 100 sample_ack)
            eq_refl _ [] (Forall_nil_2 _))))
            600 [] sample_confirmation [] [] (Forall_nil_2 _) eq_refl).
  intros m t Hm. change ((∅ : gmap nat Timeout) !! m = Some t) in Hm.
  by rewrite lookup_empty in Hm.
Defined.

(** Where C4 fails: two calls acknowledged with one id on an open socket.
    The second call, made at 100 ms, waits until 10100 ms; the timeout of
    the first, running at 10000 ms, removes the entry the second call stored
    under the id. The confirmation with status [Success] that comes at
    10050 ms, inside the window of the second call, finds no entry and does
    nothing: the second call is resolved [false] by its own timeout. *)
Lemma executeCommand_repeated_id_counterexample :
  let s := run init [Socket 0 true; Issue 0 sample_ack; Issue 100 sample_ack;
                     Elapse 10000 0] in
  timeouts s !! 1%nat = Some (mkTimeout 10100 (id sample_ack))
  ∧ resolve_calls s 1 = []
  ∧ status sample_confirmation = SUCCESS
  ∧ id sample_confirmation = id sample_ack
  ∧ step s (Message 10050 [sample_confirmation]) = s
  ∧ resolve_calls (run s [Message 10050 [sample_confirmation]; Elapse 10100 1]) 1
    = [false].
Proof. vm_compute. done. Qed.

(** C6, as the code has it. Whatever the event loop has run, no promise of
    a command was resolved twice, and a command in the pending map has its
    timeout armed and its promise unresolved. A frame that names the id of
    such a command resolves its promise once, with the verdict of the first
    entry for the id, removes the entry and disarms the timeout, which does
    nothing if it runs later. A timeout running due resolves the promise of
    its call [false] once and removes the entry under the id it closes over,
    and a frame with that id does nothing if it comes later. A call
    acknowledged on an open socket with an id no armed timeout closes over is
    registered under it. A registered command waits, in the map and
    unresolved, through every event that neither names its id nor is its own
    timeout running due; then the frame that names its id, or its timeout
    running due, whichever comes first, resolves its promise once and removes
    its entry, and the other does nothing afterwards. *)
Theorem pending_command_resolved_once (events : list Event) :
  let s := run init events in
  (∀ n, (length (resolve_calls s n) ≤ 1)%nat)
  ∧ (∀ i n, pendingCommands s !! i = Some n →
       (∃ d, timeouts s !! n = Some (mkTimeout d i)) ∧ resolve_calls s n = [])
  ∧ (∀ i n now before c after,
       pendingCommands s !! i = Some n →
       Forall (λ c', id c' ≠ i) before → id c = i →
       let s' := step s (Message now (before ++ c :: after)) in
       resolve_calls s' n = [bool_decide (status c = SUCCESS)]
       ∧ pendingCommands s' !! i = None
       ∧ (∀ τ, step s' (Elapse τ n) = s')
       ∧ ∀ later, resolve_calls (run s' later) n = [bool_decide (status c = SUCCESS)])
  ∧ (∀ n t now, timeouts s !! n = Some t → due t ≤ now →
       let s' := step s (Elapse now n) in
       resolve_calls s' n = [false]
       ∧ pendingCommands s' !! cmd_id t = None
       ∧ (∀ τ c, id c = cmd_id t → step s' (Message τ [c]) = s')
       ∧ ∀ later, resolve_calls (run s' later) n = [false])
  ∧ (∀ now cr,
       connected s = true →
       (∀ m t, timeouts s !! m = Some t → cmd_id t ≠ id cr) →
       registered (step s (Issue now cr)) (id cr) (calls s) (now + 10000))
  ∧ (∀ i n d between,
       registered s i n d → Forall (quiet i n d) between →
       let s2 := run s between in
       registered s2 i n d
       ∧ (∀ now, now < d → step s2 (Elapse now n) = s2)
       ∧ (∀ now before c after,
            Forall (λ c', id c' ≠ i) before → id c = i →
            let s3 := step s2 (Message now (before ++ c :: after)) in
            resolve_calls s3 n = [bool_decide (status c = SUCCESS)]
            ∧ pendingCommands s3 !! i = None
            ∧ (∀ τ, step s3 (Elapse τ n) = s3)
            ∧ ∀ later, resolve_calls (run s3 later) n
                       = [bool_decide (status c = SUCCESS)])
       ∧ (∀ now, d ≤ now →
            let s3 := step s2 (Elapse now n) in
            resolve_calls s3 n = [false]
            ∧ pendingCommands s3 !! i = None
            ∧ (∀ τ c, id c = i → step s3 (Message τ [c]) = s3)
            ∧ ∀ later, resolve_calls (run s3 later) n = [false])).
Proof.
  intros s.
  assert (wf s) as Hwf by apply wf_run, wf_init.
  split; [apply (wf_once _ Hwf)|]. split; [|split; [|split; [|split]]].
  - intros i n Hi. destruct (wf_pending _ Hwf _ _ Hi) as [d Hd].
    split; [by exists d|]. by apply (wf_armed _ Hwf _ _ Hd).
  - intros i n now before c after Hn Hbefore Hc.
    by apply frame_settles.
  - intros n t now Hn Hdue. by apply timeout_settles.
  - intros now cr Hconn Hnew. by apply registered_issue.
  - intros i n d between Hreg Hquiet s2.
    assert (wf s2) as Hwf2 by (by apply wf_run).
    pose proof (registered_run s between i n d Hwf Hreg Hquiet) as Hreg2.
    fold s2 in Hreg2. destruct Hreg2 as (Hi & Hn & Hnil & Huniq) eqn:Hreq.
    split; [done|]. split; [|split].
    + intros now Hearly. by apply (elapse_early s2 now n _ Hn).
    + intros now before c after Hbefore Hc. by apply frame_settles.
    + intros now Hdue.
      by apply (timeout_settles s2 n (mkTimeout d i) now).
Qed.

(** A command acknowledged at 100 ms on an open socket and confirmed at
    600 ms: its promise is resolved [true], once, whatever comes later. *)
Lemma pending_command_resolved_once_witness :
  let s := run init [Socket 0 true; Issue 100 sample_ack] in
  let s' := step s (Message 600 ([] ++ sample_confirmation :: [])) in
  resolve_calls s' 0 = [bool_decide (status sample_confirmation = SUCCESS)]
  ∧ pendingCommands s' !! id sample_ack = None
  ∧ (∀ τ, step s' (Elapse τ 0) = s')
  ∧ ∀ later, resolve_calls (run s' later) 0
             = [bool_decide (status sample_confirmation = SUCCESS)].
Proof.
  exact (proj1 (proj2 (proj2 (pending_command_resolved_once
                                [Socket 0 true; Issue 100 sample_ack])))
           (id sample_ack) 0%nat 600 [] sample_confirmation []
           eq_refl (Forall_nil_2 _) eq_refl).
Defined.

(** Where C6 fails: two calls acknowledged with one id on an open socket.
    The second call stores its entry over that of the first. When the
    timeout of the first call runs it removes that entry, which is the second
    call's: the command of the second call is gone from the map with its
    promise unresolved and its timeout armed, and the confirmation that comes
    next, before that timeout, is dropped. And when the confirmation comes
    before either timeout it settles the second call only: the first call,
    whose id it carries, is left to its timeout. *)
Lemma pending_entry_removed_unresolved_counterexample :
  let s0 := run init [Socket 0 true; Issue 0 sample_ack; Issue 100 sample_ack] in
  let s1 := step s0 (Elapse 10000 0) in
  let s2 := step s0 (Message 200 [sample_confirmation]) in
  pendingCommands s0 !! id sample_ack = Some 1%nat
  ∧ pendingCommands s1 !! id sample_ack = None
  ∧ resolve_calls s1 1 = []
  ∧ timeouts s1 !! 1%nat = Some (mkTimeout 10100 (id sample_ack))
  ∧ step s1 (Message 10050 [sample_confirmation]) = s1
  ∧ resolve_calls s2 1 = [true]
  ∧ resolve_calls s2 0 = []
  ∧ resolve_calls (step s2 (Elapse 10000 0)) 0 = [false].
Proof. vm_compute. done. Qed.

End CommandOutcome.

(** ** The reconnect loop (C7) *)

Section ReconnectLoop.

Import Reconnect.

(** The loop sleeps after a handshake that fails. *)
Lemma websocketConnect_sleeps_after_failure (cc dc : bool) (rest : list Connection) :
  (websocketConnect cc dc true (HandshakeFails :: rest)).1
  = [NewWebSocket; LogConnectionError; Sleep 5000]
    ++ (websocketConnect cc dc true rest).1.
Proof. done. Qed.

(** C7, where the code departs from it. After a connection that closes once
    its handshake is complete, the loop opens the next socket at once: a run
    over such connections never sleeps. With auto-reconnect off the function
    returns before it opens any socket. *)
Theorem websocketConnect_no_backoff_after_close :
  websocketConnect true true true [ClosesAfterHandshake; ClosesAfterHandshake]
  = ([NewWebSocket; ConnectCallback; DisconnectCallback;
      NewWebSocket; ConnectCallback; DisconnectCallback], Loops)
  ∧ (∀ cc dc n ms,
       Sleep ms ∉ (websocketConnect cc dc true (replicate n ClosesAfterHandshake)).1)
  ∧ (∀ cc dc script, websocketConnect cc dc false script = ([], Returns)).
Proof.
  split; [done|]. split.
  - intros cc dc n ms. induction n as [|n IH]; [apply not_elem_of_nil|].
    cbn [replicate websocketConnect negb fst].
    rewrite !not_elem_of_app. split; [|split; [|split]]; [| | |exact IH].
    + apply not_elem_of_cons. split; [done|apply not_elem_of_nil].
    + destruct cc; [|apply not_elem_of_nil].
      apply not_elem_of_cons. split; [done|apply not_elem_of_nil].
    + destruct dc; [|apply not_elem_of_nil].
      apply not_elem_of_cons. split; [done|apply not_elem_of_nil].
  - intros cc dc script. by destruct script.
Qed.

End ReconnectLoop.

(** ** Generated installation keys *)

Section InstallationKeys.

Import Auth.

Lemma be32_length (x : Z) : length (Sha256.be32 x) = 4%nat.
Proof. done. Qed.

Lemma be32_octets (x : Z) : Forall JS.is_byte (Sha256.be32 x).
Proof.
  unfold Sha256.be32. repeat apply Forall_cons_2; try apply Forall_nil_2;
    (apply Z.mod_pos_bound; lia).
Qed.

(** A digest is 32 octets, whatever was hashed. *)
Lemma digest_length (msg : list Z) : length (Sha256.digest msg) = 32%nat.
Proof. unfold Sha256.digest. cbv zeta. by rewrite !length_app, !be32_length. Qed.

Lemma digest_octets (msg : list Z) : Forall JS.is_byte (Sha256.digest msg).
Proof.
  unfold Sha256.digest. cbv zeta. rewrite !Forall_app.
  repeat split; apply be32_octets.
Qed.

(** The Base64 text of a buffer of [n] octets has [4 * ceil (n / 3)] units. *)
Lemma base64_encode_fuel_length (fuel : nat) (bytes : list Z) :
  (length bytes ≤ fuel)%nat →
  length (Base64.encode_fuel fuel bytes) = (4 * ((length bytes + 2) / 3))%nat.
Proof.
  revert bytes. induction fuel as [|fuel IH]; intros bytes Hlen.
  - destruct bytes; [done|simpl in Hlen; lia].
  - destruct bytes as [|a [|b [|c rest]]]; try done.
    cbn [Base64.encode_fuel app length]. rewrite IH by (simpl in Hlen; lia).
    replace (S (S (S (length rest))) + 2)%nat with (1 * 3 + (length rest + 2))%nat by lia.
    rewrite Nat.div_add_l by done. lia.
Qed.

Lemma base64_encode_32 (bytes : list Z) :
  length bytes = 32%nat →
  length (Base64.encode bytes) = 44%nat
  ∧ last (Base64.encode bytes) = Some Base64.pad_char.
Proof.
  intros Hlen. split.
  - unfold Base64.encode. by rewrite base64_encode_fuel_length, Hlen.
  - do 33 (destruct bytes as [|? bytes]; [done|]). done.
Qed.

Lemma generateRequestProof_buffer (message : JS.jsstring) (secret : list Z) :
  proof_buffer secret →
  generateRequestProof message secret = Ok (reference_proof message secret).
Proof.
  intros [Hlen Hall]. unfold generateRequestProof, reference_proof, b64.
  rewrite Hlen. cbn [Nat.eqb negb]. cbv zeta.
  rewrite Buffer_from_octets by done.
  by rewrite proof_loop_reference; [|split|apply utf8_encode_octets].
Qed.

(** X1. Whatever the installation id and the key pair, the secret of a generated
    installation key is 32 octets, so that every proof made with it exists:
    [generateRequestProof] does not throw on it, for the registration string
    or any other message. *)
Theorem generated_key_makes_proofs (installationId : JS.jsstring)
    (privateKey pubBytes publicKeyDer : JS.Buffer) (message : JS.jsstring) :
  let key := generateInstallationKey installationId privateKey pubBytes in
  length (secret key) = 32%nat
  ∧ Forall JS.is_byte (secret key)
  ∧ generateRequestProof message (secret key)
    = Ok (reference_proof message (secret key))
  ∧ generateRequestProof (getBaseString key publicKeyDer) (secret key)
    = Ok (reference_proof (getBaseString key publicKeyDer) (secret key)).
Proof.
  intros key.
  assert (proof_buffer (secret key)) as Hbuf.
  { split; [apply digest_length|apply digest_octets]. }
  split; [apply Hbuf|]. split; [apply Hbuf|].
  split; by apply generateRequestProof_buffer.
Qed.

(** X2. A proof is a Base64 text of 44 units, the last one the padding sign. *)
Theorem request_proof_has_44_units (message : JS.jsstring) (secret32 : list Z)
    (proof : JS.jsstring) :
  generateRequestProof message secret32 = Ok proof →
  length proof = 44%nat ∧ last proof = Some Base64.pad_char.
Proof.
  unfold generateRequestProof.
  destruct (negb (length secret32 =? 32)%nat); [done|].
  cbv zeta. intros [= <-]. unfold b64.
  apply base64_encode_32, digest_length.
Qed.

Lemma request_proof_has_44_units_witness :
  length (JS.lit "+dorOLiMeJBfMBH8Jks2nJnh9zCN9W3lDST07YiCPyc=") = 44%nat
  ∧ last (JS.lit "+dorOLiMeJBfMBH8Jks2nJnh9zCN9W3lDST07YiCPyc=") = Some Base64.pad_char.
Proof.
  apply (request_proof_has_44_units
           (JS.lit "installation.nonce.1700000000000") sample_secret).
  vm_compute. reflexivity.
Defined.

End InstallationKeys.

(** ** Decoding any frame *)

Section Decoding.

Import Str Stomp.

Lemma find_unit_Some (c : Z) (s : JS.jsstring) (i : nat) :
  Str.find [c] s = Some i →
  ∃ pre post, s = pre ++ c :: post ∧ (c ∉ pre) ∧ length pre = i.
Proof.
  revert i. induction s as [|x s IH]; intros i; [done|].
  rewrite find_cons, startsWith_unit. case_bool_decide as Hx.
  - intros [= <-]. subst x. exists [], s. split; [done|]. split; [|done].
    apply not_elem_of_nil.
  - destruct (Str.find [c] s) as [j|] eqn:Hj; [|done].
    intros [= <-]. destruct (IH j eq_refl) as (pre & post & -> & Hpre & <-).
    exists (x :: pre), post. split; [done|]. split; [|done].
    apply not_elem_of_cons. split; [congruence|done].
Qed.

Lemma find_unit_None (c : Z) (s : JS.jsstring) : Str.find [c] s = None → c ∉ s.
Proof.
  induction s as [|x s IH]; [intros _; apply not_elem_of_nil|].
  rewrite find_cons, startsWith_unit. case_bool_decide as Hx; [done|].
  destruct (Str.find [c] s) as [j|] eqn:Hj; [done|]. intros _.
  apply not_elem_of_cons. split; [congruence|by apply IH].
Qed.

(** The text before the first [c] is determined. *)
Lemma first_unit_unique (c : Z) (a b x y : JS.jsstring) :
  (c ∉ a) → (c ∉ b) → a ++ c :: x = b ++ c :: y → a = b ∧ x = y.
Proof.
  revert b. induction a as [|u a IH]; intros [|v b] Ha Hb Heq.
  - by injection Heq as ->.
  - injection Heq as <- _. by apply not_elem_of_cons in Hb as [? _].
  - injection Heq as -> _. by apply not_elem_of_cons in Ha as [? _].
  - injection Heq as -> Heq.
    apply not_elem_of_cons in Ha as [_ Ha]. apply not_elem_of_cons in Hb as [_ Hb].
    by destruct (IH b Ha Hb Heq) as [-> ->].
Qed.

Lemma startsWith_app (s pre : JS.jsstring) :
  Str.startsWith s pre = true ↔ ∃ post, s = pre ++ post.
Proof.
  unfold Str.startsWith. rewrite bool_decide_eq_true. split.
  - intros Htake. exists (drop (length pre) s).
    by rewrite <- Htake at 1; rewrite take_drop.
  - intros [post ->]. apply take_app_length.
Qed.

(** A header line read for a key that is not empty, holds no colon and is
    not [__proto__]: the line sets the key when it starts with the key and a
    colon, and leaves it alone otherwise. *)
Lemma decode_header_line_lookup (m : gmap JS.jsstring JS.jsstring)
    (line key : JS.jsstring) :
  key ≠ [] → (Str.COLON ∉ key) → key ≠ JS.lit "__proto__" →
  decode_header_line m line !! key
  = match header_value key line with
    | Some v => Some v
    | None => m !! key
    end.
Proof.
  intros Hne Hcolon Hproto. unfold decode_header_line, Str.indexOf, header_value.
  destruct (Str.find [Str.COLON] line) as [i|] eqn:Hfind.
  - destruct (find_unit_Some _ _ _ Hfind) as (pre & post & -> & Hpre & <-).
    destruct (Str.startsWith (pre ++ Str.COLON :: post) (key ++ [Str.COLON])) eqn:Hstart.
    + apply startsWith_app in Hstart as [post' Heq].
      rewrite <- app_assoc in Heq. cbn [app] in Heq.
      destruct (first_unit_unique _ _ _ _ _ Hpre Hcolon Heq) as [-> ->].
      assert (0 < Z.of_nat (length key)) as Hpos by (destruct key; [done|simpl; lia]).
      destruct (Z.ltb_spec 0 (Z.of_nat (length key))) as [_|]; [|lia].
      unfold Str.substring, Str.substring_from, set_property.
      rewrite Nat2Z.id. change (Z.to_nat 0) with 0%nat. rewrite drop_0.
      rewrite take_app_length, bool_decide_eq_false_2 by done.
      rewrite lookup_insert_eq. do 2 f_equal. lia.
    + assert (pre ≠ key) as Hother.
      { intros ->. apply not_true_iff_false in Hstart. apply Hstart.
        apply startsWith_app. exists post. by rewrite <- app_assoc. }
      destruct (Z.ltb_spec 0 (Z.of_nat (length pre))) as [Hpos|]; [|done].
      unfold Str.substring, set_property.
      rewrite Nat2Z.id. change (Z.to_nat 0) with 0%nat. rewrite drop_0.
      rewrite take_app_length. case_bool_decide; [done|].
      by rewrite lookup_insert_ne.
  - cbn [Z.ltb Z.compare].
    destruct (Str.startsWith line (key ++ [Str.COLON])) eqn:Hstart; [|done].
    apply startsWith_app in Hstart as [post ->].
    apply find_unit_None in Hfind. exfalso. apply Hfind.
    rewrite !elem_of_app. left. right. apply list_elem_of_singleton. done.
Qed.

(** Read for any other key, a header line changes nothing: no header has an
    empty key, a key with a colon, or the key [__proto__]. *)
Lemma decode_header_line_no_key (m : gmap JS.jsstring JS.jsstring)
    (line key : JS.jsstring) :
  key = [] ∨ Str.COLON ∈ key ∨ key = JS.lit "__proto__" →
  decode_header_line m line !! key = m !! key.
Proof.
  intros Hkey. unfold decode_header_line, Str.indexOf.
  destruct (Str.find [Str.COLON] line) as [i|] eqn:Hfind; [|done].
  destruct (find_unit_Some _ _ _ Hfind) as (pre & post & -> & Hpre & <-).
  destruct (Z.ltb_spec 0 (Z.of_nat (length pre))) as [Hpos|]; [|done].
  unfold Str.substring, set_property.
  rewrite Nat2Z.id. change (Z.to_nat 0) with 0%nat. rewrite drop_0.
  rewrite take_app_length. case_bool_decide as Hproto; [done|].
  apply lookup_insert_ne. intros ->.
  destruct Hkey as [->|[?|?]]; [simpl in Hpos; lia|done|done].
Qed.

Lemma decode_header_lines_lookup (lines : list JS.jsstring)
    (m : gmap JS.jsstring JS.jsstring) (key : JS.jsstring) :
  key ≠ [] → (Str.COLON ∉ key) → key ≠ JS.lit "__proto__" →
  foldl decode_header_line m lines !! key
  = match last (omap (header_value key) lines) with
    | Some v => Some v
    | None => m !! key
    end.
Proof.
  intros Hne Hcolon Hproto.
  induction lines as [|line lines IH] using rev_ind; [done|].
  rewrite foldl_app. cbn [foldl].
  rewrite decode_header_line_lookup by done.
  rewrite omap_app.
  assert (omap (header_value key) [line]
          = match header_value key line with Some v => [v] | None => [] end) as ->
    by done.
  destruct (header_value key line) as [v|].
  - by rewrite last_snoc.
  - by rewrite app_nil_r.
Qed.

Lemma decode_header_lines_no_key (lines : list JS.jsstring)
    (m : gmap JS.jsstring JS.jsstring) (key : JS.jsstring) :
  key = [] ∨ Str.COLON ∈ key ∨ key = JS.lit "__proto__" →
  foldl decode_header_line m lines !! key = m !! key.
Proof.
  intros Hkey. revert m. induction lines as [|line lines IH]; intros m; [done|].
  simpl. rewrite IH. by apply decode_header_line_no_key.
Qed.

(** The layout [decodeStompWsMessage] reads: a first line, header lines, the
    first blank line, and a rest that holds no other. *)
Lemma decode_layout (t : JS.jsstring) (lines : list JS.jsstring) (rest : JS.jsstring) :
  Forall is_line (t :: lines) → Str.find [Str.LF; Str.LF] rest = None →
  decodeStompWsMessage (Str.join [Str.LF] (t :: lines) ++ [Str.LF; Str.LF] ++ rest)
  = mkFrame t (foldl decode_header_line ∅ lines) (frame_body rest).
Proof.
  intros Hlines Hrest. unfold decodeStompWsMessage.
  rewrite split_blank_frame; [|by apply join_lines_blank_free|done].
  cbn [lookup list_lookup default]. unfold id.
  assert (Str.split (Str.join [Str.LF] (t :: lines)) [Str.LF] = t :: lines) as ->.
  { unfold Str.split. apply split_join_lines; [done| |done].
    eapply Forall_impl; [exact Hlines|]. by intros x [_ ?]. }
  cbn [lookup list_lookup default]. unfold id.
  change (drop 1 (t :: lines)) with lines.
  f_equal. unfold frame_body, Str.endsWith, Str.slice_but_last.
  destruct rest as [|c rest]; [done|]. cbn [Str.truthy].
  by case_bool_decide.
Qed.

Lemma split_limit_no_separator (msg sep : JS.jsstring) (limit : nat) :
  Str.find sep msg = None → Str.split_limit msg sep (S limit) = [msg].
Proof.
  intros Hnone. unfold Str.split_limit, Str.split.
  assert (Str.split_fuel (length msg) msg sep = [msg]) as ->.
  { destruct (length msg); [done|]. simpl. by rewrite Hnone. }
  simpl. by rewrite take_nil.
Qed.

(** X3. What [decodeStompWsMessage] reads off any frame laid out as a first
    line, header lines, a blank line and a rest that holds no other blank
    line. The type is the first line as it stands. The body is [null] when
    the rest is empty, else the rest less one closing NUL. A key that is not
    empty, has no colon and is not [__proto__] maps to what follows its first
    colon in the last line that starts with the key and a colon, if there is
    one: later lines override earlier ones and a value may hold colons. No
    other key is ever present. *)
Theorem decode_reads_frame (t : JS.jsstring) (lines : list JS.jsstring)
    (rest key : JS.jsstring) :
  Forall is_line (t :: lines) → Str.find [Str.LF; Str.LF] rest = None →
  let f := decodeStompWsMessage
             (Str.join [Str.LF] (t :: lines) ++ [Str.LF; Str.LF] ++ rest) in
  msgType f = t
  ∧ data f = frame_body rest
  ∧ (key ≠ [] → (Str.COLON ∉ key) → key ≠ JS.lit "__proto__" →
     headers f !! key = last (omap (header_value key) lines))
  ∧ (key = [] ∨ Str.COLON ∈ key ∨ key = JS.lit "__proto__" →
     headers f !! key = None).
Proof.
  intros Hlines Hrest f. subst f. rewrite decode_layout by done.
  cbn [msgType data headers]. split; [done|]. split; [done|]. split.
  - intros Hne Hcolon Hproto. rewrite decode_header_lines_lookup by done.
    rewrite lookup_empty. by destruct (last (omap (header_value key) lines)).
  - intros Hkey. by rewrite decode_header_lines_no_key.
Qed.

Lemma decode_reads_frame_witness :
  let f := decodeStompWsMessage
             (Str.join [Str.LF] (JS.lit "MESSAGE" :: sample_frame_lines)
              ++ [Str.LF; Str.LF] ++ (JS.lit "{}" ++ [Str.NUL])) in
  msgType f = JS.lit "MESSAGE"
  ∧ data f = frame_body (JS.lit "{}" ++ [Str.NUL])
  ∧ (JS.lit "destination" ≠ [] → (Str.COLON ∉ JS.lit "destination") →
     JS.lit "destination" ≠ JS.lit "__proto__" →
     headers f !! JS.lit "destination"
     = last (omap (header_value (JS.lit "destination")) sample_frame_lines))
  ∧ (JS.lit "destination" = [] ∨ Str.COLON ∈ JS.lit "destination"
     ∨ JS.lit "destination" = JS.lit "__proto__" →
     headers f !! JS.lit "destination" = None).
Proof.
  apply (decode_reads_frame (JS.lit "MESSAGE") sample_frame_lines
           (JS.lit "{}" ++ [Str.NUL]) (JS.lit "destination")).
  - repeat apply Forall_cons_2; try apply Forall_nil_2;
      (split; [by vm_compute|apply (bool_decide_unpack _); vm_compute; exact I]).
  - reflexivity.
Defined.

(** The values the sample frame decodes to. *)
Example decode_sample_frame :
  let f := decodeStompWsMessage
             (Str.join [Str.LF] (JS.lit "MESSAGE" :: sample_frame_lines)
              ++ [Str.LF; Str.LF] ++ (JS.lit "{}" ++ [Str.NUL])) in
  headers f !! JS.lit "destination" = Some (JS.lit "/queue/other")
  ∧ headers f !! JS.lit "message-id" = Some (JS.lit "7:1")
  ∧ headers f !! JS.lit "receipt" = None
  ∧ data f = Some (JS.lit "{}").
Proof. vm_compute. done. Qed.

(** Without a body, or with the empty string for one, the terminator alone
    follows the blank line. *)
Lemma encode_bodyless (t : StompMessageType)
    (h : list (JS.jsstring * JS.jsstring)) (body : option JS.jsstring) :
  body = None ∨ body = Some [] →
  encodeStompWsMessage t h body
  = Str.join [Str.LF] (toString t :: (header_line <$> h))
    ++ [Str.LF; Str.LF] ++ [Str.NUL].
Proof.
  intros Hbody. unfold encodeStompWsMessage.
  destruct Hbody as [-> | ->]; cbn zeta; cbn [Str.truthy]; by rewrite <- app_assoc.
Qed.

Lemma header_lines_are_lines (t : StompMessageType)
    (h : list (JS.jsstring * JS.jsstring)) :
  Forall header_ok h → Forall Str.is_line (toString t :: (header_line <$> h)).
Proof.
  intros Hok. apply Forall_cons. split; [apply toString_line|].
  apply Forall_fmap. eapply Forall_impl; [exact Hok|].
  intros kv Hkv. by apply header_line_is_line.
Qed.

(** X4. A frame encoded without a body, or with the empty string for one,
    decodes to its type, its headers and the empty string for a body: the
    terminator alone follows the blank line, and is stripped after the test
    that turns an absent body into [null]. *)
Theorem decode_encode_without_body (t : StompMessageType)
    (h : list (JS.jsstring * JS.jsstring)) (body : option JS.jsstring) :
  NoDup h.*1 → Forall header_ok h → body = None ∨ body = Some [] →
  decodeStompWsMessage (encodeStompWsMessage t h body)
  = mkFrame (toString t) (list_to_map h) (Some []).
Proof.
  intros Hnodup Hok Hbody. rewrite encode_bodyless by done.
  rewrite decode_layout; [|by apply header_lines_are_lines|done].
  rewrite decode_header_lines by done.
  by rewrite (right_id_L ∅ (∪)).
Qed.

Lemma decode_encode_without_body_witness :
  decodeStompWsMessage (encodeStompWsMessage CONNECT connect_headers None)
  = mkFrame (toString CONNECT) (list_to_map connect_headers) (Some []).
Proof.
  apply (decode_encode_without_body CONNECT connect_headers None).
  - apply (bool_decide_unpack _). vm_compute. exact I.
  - repeat apply Forall_cons_2; try apply Forall_nil_2;
      (apply (bool_decide_unpack _); vm_compute; exact I).
  - by left.
Defined.

(** X5. A text with no blank line in it decodes with a [null] body, whatever
    its lines. *)
Theorem decode_without_blank_line (msg : JS.jsstring) :
  Str.find [Str.LF; Str.LF] msg = None →
  data (decodeStompWsMessage msg) = None
  ∧ msgType (decodeStompWsMessage msg) = default [] (Str.split msg [Str.LF] !! 0%nat).
Proof.
  intros Hnone. unfold decodeStompWsMessage.
  by rewrite split_limit_no_separator.
Qed.

Lemma decode_without_blank_line_witness :
  data (decodeStompWsMessage (JS.lit "CONNECTED")) = None
  ∧ msgType (decodeStompWsMessage (JS.lit "CONNECTED"))
    = default [] (Str.split (JS.lit "CONNECTED") [Str.LF] !! 0%nat).
Proof. apply (decode_without_blank_line (JS.lit "CONNECTED")). reflexivity. Defined.

End Decoding.

(** ** Frames that list several commands *)

Section Frames.

Import Commands.

(** X6. Whatever the event loop has run before, a frame that lists several
    commands is matched by id: every id it lists is gone from the pending map
    and no other entry is; the call awaited under an id takes the verdict of
    the first entry for that id and has its timeout disarmed; a call awaited
    under none of the ids keeps its promise as it was; and a frame that lists
    no awaited id leaves the client unchanged. *)
Theorem frame_confirms_by_id (events : list Event) (commands : list CommandResponse) :
  let s := run init events in
  let s' := parseWebsocketMessage commands s in
  (∀ i, pendingCommands s' !! i
        = if decide (i ∈ id <$> commands) then None else pendingCommands s !! i)
  ∧ (∀ i n before c after,
       pendingCommands s !! i = Some n →
       commands = before ++ c :: after →
       Forall (λ c', id c' ≠ i) before → id c = i →
       resolve_calls s' n = [bool_decide (status c = SUCCESS)]
       ∧ timeouts s' !! n = None)
  ∧ (∀ n, (∀ c, c ∈ commands → pendingCommands s !! id c ≠ Some n) →
          resolve_calls s' n = resolve_calls s n)
  ∧ (Forall (λ c, pendingCommands s !! id c = None) commands → s' = s).
Proof.
  intros s s'. assert (wf s) as Hwf by apply wf_run, wf_init.
  split; [apply parse_pendingCommands|]. split; [|split].
  - intros i n before c after Hn -> Hbefore Hc.
    by apply (parse_first_entry s i n before after c).
  - intros n Hother. by apply parse_other_calls.
  - apply parse_unmatched.
Qed.

(** Two commands issued on an open socket, confirmed in one frame in the
    reverse order, the second refused: each call takes its own verdict. *)
Example frame_confirms_out_of_order :
  let s := run init
             [Socket 0 true;
              Issue 10 (mkCommandResponse (JS.lit "a") (JS.lit "Pending") None);
              Issue 20 (mkCommandResponse (JS.lit "b") (JS.lit "Pending") None);
              Message 30 [mkCommandResponse (JS.lit "b") (JS.lit "Error") None;
                          mkCommandResponse (JS.lit "a") (JS.lit "Success") None]] in
  resolve_calls s 0 = [true] ∧ resolve_calls s 1 = [false]
  ∧ pendingCommands s = ∅.
Proof. vm_compute. done. Qed.

End Frames.

(** ** Dashboard frames *)

Section DashboardFrames.

Import Receive.

Context {Output : Type}.

Lemma widget_step_own (o : ConfigObject Output) (w : Widget Output)
    (key : JS.jsstring) :
  key ≠ [] → key ≠ JS.lit "__proto__" →
  own (widget_step o w) !! key
  = match output_under key w with
    | Some out => Some out
    | None => own o !! key
    end.
Proof.
  intros Hne Hproto. unfold widget_step, output_under, set_output.
  destruct (code w) as [|c cs] eqn:Hcode; cbn [Str.truthy].
  - by rewrite bool_decide_eq_false_2 by done.
  - destruct (output w) as [out|].
    + case_bool_decide as Hp.
      * rewrite bool_decide_eq_false_2; [done|]. by rewrite Hp.
      * cbn [own]. case_bool_decide as Hk.
        -- rewrite Hk. apply lookup_insert_eq.
        -- by rewrite lookup_insert_ne.
    + by case_bool_decide.
Qed.


Lemma widget_step_proto (o : ConfigObject Output) (w : Widget Output) :
  proto (widget_step o w)
  = match output_under (JS.lit "__proto__") w with
    | Some out => Some out
    | None => proto o
    end.
Proof.
  unfold widget_step, output_under, set_output.
  destruct (code w) as [|c cs] eqn:Hcode; cbn [Str.truthy].
  - by rewrite bool_decide_eq_false_2 by done.
  - destruct (output w) as [out|]; by case_bool_decide.
Qed.

Lemma last_omap_snoc {A B : Type} (f : A → option B) (l : list A) (x : A) :
  last (omap f (l ++ [x]))
  = match f x with Some y => Some y | None => last (omap f l) end.
Proof.
  rewrite omap_app.
  assert (omap f [x] = match f x with Some y => [y] | None => [] end) as -> by done.
  destruct (f x) as [y|]; [by rewrite last_snoc|by rewrite app_nil_r].
Qed.

Lemma widgets_config_own (ws : list (Widget Output)) (key : JS.jsstring) :
  key ≠ [] → key ≠ JS.lit "__proto__" →
  own (widgets_config ws) !! key = last (omap (output_under key) ws).
Proof.
  unfold widgets_config. intros Hne Hproto.
  induction ws as [|w ws IH] using rev_ind; [done|].
  rewrite foldl_app, last_omap_snoc. cbn [foldl].
  rewrite widget_step_own by done. by rewrite IH.
Qed.

Lemma widgets_config_proto (ws : list (Widget Output)) :
  proto (widgets_config ws) = last (omap (output_under (JS.lit "__proto__")) ws).
Proof.
  unfold widgets_config. induction ws as [|w ws IH] using rev_ind; [done|].
  rewrite foldl_app, last_omap_snoc. cbn [foldl].
  by rewrite widget_step_proto, IH.
Qed.


End DashboardFrames.

(** ** Frames and their bodies *)

Section FrameBodies.

Import Receive.

Context {number : Type}.
Variable number_truthy : number → bool.
Variable other_key : value number → option JS.jsstring.
Variable JSON_parse : JS.jsstring → option (value number).





End FrameBodies.

Section SampleFrame.

Import Receive.


End SampleFrame.

(** ** The life of a token *)

Section TokenLifetime.

Import Cloud.

(** X9. Once a token request has succeeded, at the millisecond [now_ms], the
    calls that find the lock free go by the second [made] the token was made
    in: up to [made + 3000] a call returns the new access token and posts
    nothing; after that and up to [made + 3600] it posts a refresh that
    carries the new refresh token; later it posts a sign-in with the
    credentials of the client. *)
Theorem token_reused_then_refreshed (s : System) (i : nat) (req : Request)
    (now_ms status : Z) (access refresh : JS.jsstring) (now : Z) :
  callers s !! i = Some (Awaiting req) → isSuccess status = true →
  let s1 := step s (Settle i now_ms (Responded status access refresh)) in
  let s2 := step s1 (Call now) in
  let made := now_ms / 1000 in
  (now ≤ made + 3000 →
     s2 = mkSystem (client s1) (callers s1 ++ [Returned (Ok access)]) (posted s))
  ∧ (made + 3000 < now ≤ made + 3600 →
     posted s2 = posted s ++ [RefreshRequest (username (client s)) refresh]
     ∧ callers s2
       = callers s1 ++ [Awaiting (RefreshRequest (username (client s)) refresh)])
  ∧ (made + 3600 < now →
     posted s2
     = posted s ++ [SignInRequest (username (client s)) (password (client s))]
     ∧ callers s2
       = callers s1
         ++ [Awaiting (SignInRequest (username (client s)) (password (client s)))]).
Proof.
  intros Hi Hok s1 s2 made.
  assert (s1 = mkSystem
                 (mkClient (username (client s)) (password (client s))
                           (Some (Auth.createAccessToken now_ms access refresh)) false)
                 (<[i := Returned (Ok access)]> (callers s)) (posted s)) as Hs1.
  { subst s1. cbn [step]. rewrite Hi. unfold asyncGetToken. by rewrite Hok. }
  subst s2. rewrite Hs1. cbn [step client callers posted].
  set (c := mkClient _ _ _ _).
  assert (Auth.expiresAt (Auth.createAccessToken now_ms access refresh)
          = made + 3600) as Hexp by done.
  split; [|split]; intros Hnow.
  - rewrite (attempt_reuse now c (Auth.createAccessToken now_ms access refresh));
      [|done|done|rewrite Hexp; lia].
    by rewrite app_nil_r.
  - rewrite (attempt_refresh now c (Auth.createAccessToken now_ms access refresh));
      [done|done|done|rewrite Hexp; lia].
  - rewrite (attempt_sign_in now c); [done|done|].
    change (accessToken c) with (Some (Auth.createAccessToken now_ms access refresh)).
    cbv beta iota. rewrite Hexp. lia.
Qed.

Lemma token_reused_then_refreshed_witness :
  let s := run (init (JS.lit "user") (JS.lit "secret")) [Call 10] in
  let s1 := step s (Settle 0 1000000 (Responded 200 (JS.lit "access") (JS.lit "refresh"))) in
  posted (step s1 (Call 4100))
  = posted s ++ [RefreshRequest (JS.lit "user") (JS.lit "refresh")]
  ∧ step s1 (Call 4000)
    = mkSystem (client s1) (callers s1 ++ [Returned (Ok (JS.lit "access"))]) (posted s).
Proof.
  intros s s1. split.
  - refine (proj1 (proj1 (proj2 (token_reused_then_refreshed s 0
                      (SignInRequest (JS.lit "user") (JS.lit "secret"))
                      1000000 200 (JS.lit "access") (JS.lit "refresh") 4100 _ _)) _)).
    + reflexivity.
    + reflexivity.
    + vm_compute. split; [reflexivity|discriminate].
  - refine (proj1 (token_reused_then_refreshed s 0
                      (SignInRequest (JS.lit "user") (JS.lit "secret"))
                      1000000 200 (JS.lit "access") (JS.lit "refresh") 4000 _ _) _).
    + reflexivity.
    + reflexivity.
    + vm_compute. discriminate.
Defined.

End TokenLifetime.

(** ** The reconnect loop, whatever the connections do *)

Section ReconnectRuns.

Import Reconnect.

Lemma count_app {A : Type} (p : A → bool) (l1 l2 : list A) :
  count p (l1 ++ l2) = (count p l1 + count p l2)%nat.
Proof. unfold count. by rewrite List.filter_app, length_app. Qed.

Lemma sleeps_app (l1 l2 : list Action) : sleeps (l1 ++ l2) = sleeps l1 ++ sleeps l2.
Proof. apply omap_app. Qed.

(** X10. With auto-reconnect on, as it is by default, [websocketConnect] never
    returns: when the connections listed have ended it is in its loop still,
    unless a handshake neither completed nor failed, on which it waits for
    ever. It opens one socket for every connection it gets to; it sleeps
    5000 ms once for every handshake that failed and at no other time; and
    each callback given runs once for every connection whose handshake
    completed, so that the disconnect callback never runs for a connection
    that failed to come up. *)
Theorem websocketConnect_never_returns (cc dc : bool) (script : list Connection) :
  let r := websocketConnect cc dc true script in
  r.2 ≠ Returns
  ∧ (r.2 = Hangs ↔ HandshakeHangs ∈ script)
  ∧ count opens r.1 = length (attempted script)
  ∧ sleeps r.1 = replicate (count fails (attempted script)) 5000
  ∧ count connects r.1 = (if cc then count completes (attempted script) else 0%nat)
  ∧ count disconnects r.1
    = (if dc then count completes (attempted script) else 0%nat).
Proof.
  induction script as [|conn script IH]; cbn zeta.
  - cbn. split; [done|]. split; [|by destruct cc, dc].
    split; [done|]. intros Hin. by apply elem_of_nil in Hin.
  - cbn zeta in IH. destruct IH as (Hret & Hhang & Hopen & Hsleep & Hcc & Hdc).
    cbn [websocketConnect negb].
    destruct conn; cbn [fst snd attempted].
    + (* the handshake fails *)
      split; [done|]. split.
      { rewrite Hhang. rewrite elem_of_cons. split; [by right|]. by intros [|]. }
      rewrite !count_app, sleeps_app, Hopen, Hsleep, Hcc, Hdc.
      split; [done|]. split; [done|]. by destruct cc, dc.
    + (* the handshake completes *)
      split; [done|]. split.
      { rewrite Hhang. rewrite elem_of_cons. split; [by right|]. by intros [|]. }
      rewrite !count_app, !sleeps_app, Hopen, Hsleep, Hcc, Hdc.
      split; [by destruct cc, dc|]. split; [by destruct cc, dc|].
      by destruct cc, dc.
    + (* the handshake hangs *)
      split; [done|]. split; [|by destruct cc, dc].
      split; [intros _; apply list_elem_of_here|done].
Qed.

(** A failure, a connection that comes up and closes, a handshake that
    hangs, and one more connection the run never gets to. *)
Example websocketConnect_mixed_run :
  websocketConnect true true true
    [HandshakeFails; ClosesAfterHandshake; HandshakeHangs; ClosesAfterHandshake]
  = ([NewWebSocket; LogConnectionError; Sleep 5000;
      NewWebSocket; ConnectCallback; DisconnectCallback;
      NewWebSocket], Hangs).
Proof. reflexivity. Qed.

End ReconnectRuns.

(** ** The websocket session *)

Section WebsocketSession.

Import Session.

Lemma decode_first_line (t : JS.jsstring) (lines : list JS.jsstring)
    (rest : JS.jsstring) :
  Forall Str.is_line (t :: lines) → Str.find [Str.LF; Str.LF] rest = None →
  Stomp.msgType (Stomp.decodeStompWsMessage
                   (Str.join [Str.LF] (t :: lines) ++ [Str.LF; Str.LF] ++ rest)) = t.
Proof. intros Hlines Hrest. by rewrite decode_layout. Qed.

Lemma subscribe_headers_ok (serialNumber subscriptionId : JS.jsstring) :
  (Str.LF ∉ serialNumber) → (Str.LF ∉ subscriptionId) →
  NoDup (subscribe_headers serialNumber subscriptionId).*1
  ∧ Forall Stomp.header_ok (subscribe_headers serialNumber subscriptionId).
Proof.
  intros Hserial Hid. split.
  - apply (bool_decide_unpack _). by vm_compute.
  - unfold subscribe_headers.
    repeat apply Forall_cons_2; try apply Forall_nil_2;
      (split; [by vm_compute|]);
      (split; [apply (bool_decide_unpack _); by vm_compute|]);
      (split; [apply (bool_decide_unpack _); by vm_compute|]);
      (split; [by vm_compute|]); cbn [snd].
    + rewrite !not_elem_of_app. split; [|split; [done|]];
        apply (bool_decide_unpack _); by vm_compute.
    + apply (bool_decide_unpack _); by vm_compute.
    + done.
    + apply (bool_decide_unpack _); by vm_compute.
Qed.

(** X11. The session from the open event to the disconnect. On the open event
    the CONNECT frame is sent. A frame whose first line is not CONNECTED
    leaves the setup waiting and sends nothing. The CONNECTED frame has the
    SUBSCRIBE frame sent, which names the dashboard of the serial number and
    the subscription id, resolves the setup and makes the client's websocket
    a connected one; later frames do not reach the handler. The disconnect
    then sends one UNSUBSCRIBE frame carrying the same subscription id and
    closes the socket, after which the websocket is not connected and a
    second disconnect does nothing. *)
Theorem session_subscribes_and_unsubscribes
    (accessToken serialNumber subscriptionId : JS.jsstring)
    (lines : list JS.jsstring) (rest : JS.jsstring) :
  (Str.LF ∉ serialNumber) → (Str.LF ∉ subscriptionId) →
  Forall Str.is_line lines → Str.find [Str.LF; Str.LF] rest = None →
  let connected_frame :=
    Str.join [Str.LF] (Stomp.toString Stomp.CONNECTED :: lines)
    ++ [Str.LF; Str.LF] ++ rest in
  let s1 := on_open accessToken setup in
  let s2 := messageHandler serialNumber subscriptionId connected_frame s1 in
  let ws3 := disconnect (websocket s2) (socket s2) in
  sent (socket s1) = [connectMsg accessToken]
  ∧ (∀ data id',
       Stomp.msgType (Stomp.decodeStompWsMessage data)
       ≠ Stomp.toString Stomp.CONNECTED →
       messageHandler serialNumber id' data s1 = s1)
  ∧ sent (socket s2)
    = [connectMsg accessToken; subscribeMsg serialNumber subscriptionId]
  ∧ resolved s2 = true
  ∧ connected (websocket s2) (socket s2) = true
  ∧ (∀ data id', messageHandler serialNumber id' data s2 = s2)
  ∧ Stomp.decodeStompWsMessage (subscribeMsg serialNumber subscriptionId)
    = Stomp.mkFrame (Stomp.toString Stomp.SUBSCRIBE)
        (list_to_map (subscribe_headers serialNumber subscriptionId)) (Some [])
  ∧ sent ws3 = sent (socket s2) ++ [disconnectMsg subscriptionId]
  ∧ Stomp.decodeStompWsMessage (disconnectMsg subscriptionId)
    = Stomp.mkFrame (Stomp.toString Stomp.UNSUBSCRIBE)
        {[ JS.lit "id" := subscriptionId ]} (Some [])
  ∧ connected (websocket s2) ws3 = false
  ∧ disconnect (websocket s2) ws3 = ws3.
Proof.
  intros Hserial Hid Hlines Hrest connected_frame s1 s2 ws3.
  assert (s2 = mkSetup
                 (mkWebSocket OPEN [connectMsg accessToken;
                                    subscribeMsg serialNumber subscriptionId])
                 (mkWebSocketDetails true (Some subscriptionId)) false true) as Hs2.
  { subst s2 s1 connected_frame. unfold messageHandler.
    cbn [on_open setup listening negb].
    rewrite decode_first_line; [|by apply Forall_cons; split; [apply toString_line|]|done].
    by rewrite bool_decide_eq_true_2. }
  split; [done|]. split.
  { intros data id' Hother. unfold messageHandler. cbn [s1 on_open setup listening negb].
    by rewrite bool_decide_eq_false_2. }
  rewrite Hs2. split; [done|]. split; [done|]. split; [done|]. split; [done|].
  split.
  { destruct (subscribe_headers_ok serialNumber subscriptionId Hserial Hid).
    unfold subscribeMsg. rewrite encode_bodyless by (by left).
    rewrite decode_layout; [|by apply header_lines_are_lines|done].
    rewrite decode_header_lines by done. by rewrite (right_id_L ∅ (∪)). }
  subst ws3. rewrite Hs2. split; [done|]. split; [|done].
  assert (Forall Stomp.header_ok [(JS.lit "id", subscriptionId)]) as Hok.
  { apply Forall_cons_2; [|apply Forall_nil_2].
    split; [by vm_compute|].
    split; [apply (bool_decide_unpack _); by vm_compute|].
    split; [apply (bool_decide_unpack _); by vm_compute|].
    split; [by vm_compute|done]. }
  unfold disconnectMsg. rewrite encode_bodyless by (by left).
  rewrite decode_layout; [|by apply header_lines_are_lines|done].
  assert (NoDup [(JS.lit "id", subscriptionId)].*1) as Hnodup.
  { cbn. apply NoDup_singleton. }
  rewrite decode_header_lines by done.
  rewrite (right_id_L ∅ (∪)). cbn [list_to_map foldr]. by rewrite insert_empty.
Qed.

Lemma session_subscribes_and_unsubscribes_witness :
  let s2 := messageHandler (JS.lit "AB123") (JS.lit "sub-1")
              (Str.join [Str.LF] [Stomp.toString Stomp.CONNECTED; JS.lit "version:1.2"]
               ++ [Str.LF; Str.LF] ++ [Str.NUL])
              (on_open (JS.lit "token") setup) in
  sent (socket s2)
  = [connectMsg (JS.lit "token"); subscribeMsg (JS.lit "AB123") (JS.lit "sub-1")]
  ∧ sent (disconnect (websocket s2) (socket s2))
    = sent (socket s2) ++ [disconnectMsg (JS.lit "sub-1")]
  ∧ connected (websocket s2) (disconnect (websocket s2) (socket s2)) = false.
Proof.
  intros s2.
  destruct (session_subscribes_and_unsubscribes (JS.lit "token") (JS.lit "AB123")
              (JS.lit "sub-1") [JS.lit "version:1.2"] [Str.NUL])
    as (_ & _ & Hsent & _ & _ & _ & _ & Hunsubscribed & _ & Hclosed & _).
  - apply (bool_decide_unpack _). by vm_compute.
  - apply (bool_decide_unpack _). by vm_compute.
  - apply Forall_cons_2; [|apply Forall_nil_2].
    split; [by vm_compute|apply (bool_decide_unpack _); by vm_compute].
  - reflexivity.
  - split; [exact Hsent|]. split; [exact Hunsubscribed|exact Hclosed].
Defined.

End WebsocketSession.

(** ** The machine: model checks and dashboard updates *)

Section Machines.

Import Device.

Context {number : Type}.

Lemma checkModelSupported_refuses (d : ThingDashboardConfig)
    (supportedModels : list Const.ModelCode) :
  (modelCode d ∉ (λ m, Some (Const.code m)) <$> supportedModels) →
  checkModelSupported d supportedModels
  = Raise (UnsupportedModel
             (JS.lit "This functionality is only supported on: "
              ++ Str.join (JS.lit ", ") (Const.code <$> supportedModels)
              ++ JS.lit ".")).
Proof. intros Hnot. unfold checkModelSupported. by rewrite bool_decide_eq_false_2. Qed.

Lemma checkModelSupported_accepts (d : ThingDashboardConfig)
    (supportedModels : list Const.ModelCode) :
  modelCode d ∈ (λ m, Some (Const.code m)) <$> supportedModels →
  checkModelSupported d supportedModels = Return tt.
Proof. intros Hin. unfold checkModelSupported. by rewrite bool_decide_eq_true_2. Qed.

(** X12. The four methods that are kept to some models check the model code of
    the dashboard before anything else. When the code is not one of theirs
    the method throws [UnsupportedModel] with the list of the codes, makes no
    call of the cloud client and changes nothing, with or without a cloud
    client. A machine just constructed has no model code: until its
    dashboard is fetched each of the four throws so, whatever the machine
    is. Once the code is one of theirs, a machine without a cloud client
    throws [CloudOnlyFunctionality]. *)
Theorem unsupported_model_sends_nothing (m : LaMarzoccoMachine) (h : Heap number)
    (level : SteamTargetLevel) (temperature value : number) (mode dose : DoseMode)
    (answer : result bool) :
  let micra := [Const.LINEA_MICRA; Const.LINEA_MINI_R] in
  let gs3 := [Const.GS3; Const.GS3_AV; Const.GS3_MP] in
  let mini := [Const.LINEA_MINI; Const.LINEA_MINI_R] in
  let codes (l : list Const.ModelCode) := (λ c, Some (Const.code c)) <$> l in
  ((modelCode (dashboard m) ∉ codes micra) →
     setSteamLevel level answer m h
     = (Raise (UnsupportedModel
                 (JS.lit "This functionality is only supported on: LINEAMICRA, LINEAMINIR.")),
        h, []))
  ∧ ((modelCode (dashboard m) ∉ codes gs3) →
     setSteamTargetTemperature temperature answer m h
     = (Raise (UnsupportedModel
                 (JS.lit "This functionality is only supported on: GS3, GS3AV, GS3MP.")),
        h, []))
  ∧ ((modelCode (dashboard m) ∉ codes mini) →
     let refused : completion bool * Heap number * list (CloudCall number) :=
       (Raise (UnsupportedModel
                 (JS.lit "This functionality is only supported on: LINEAMINI, LINEAMINIR.")),
        h, []) in
     setBrewByWeightDoseMode mode answer m h = refused
     ∧ setBrewByWeightDose dose value answer m h = refused)
  ∧ (∀ client l, modelCode (dashboard (new_machine client)) ∉ codes l)
  ∧ (cloudClient m = false →
     (modelCode (dashboard m) ∈ codes micra →
        setSteamLevel level answer m h = (Raise CloudOnlyFunctionality, h, []))
     ∧ (modelCode (dashboard m) ∈ codes gs3 →
        setSteamTargetTemperature temperature answer m h
        = (Raise CloudOnlyFunctionality, h, []))
     ∧ (modelCode (dashboard m) ∈ codes mini →
        setBrewByWeightDoseMode mode answer m h = (Raise CloudOnlyFunctionality, h, [])
        ∧ setBrewByWeightDose dose value answer m h
          = (Raise CloudOnlyFunctionality, h, []))).
Proof.
  cbv zeta. split; [|split; [|split; [|split]]].
  - intros Hnot. unfold setSteamLevel.
    by rewrite (checkModelSupported_refuses _ _ Hnot).
  - intros Hnot. unfold setSteamTargetTemperature.
    by rewrite (checkModelSupported_refuses _ _ Hnot).
  - intros Hnot. unfold setBrewByWeightDoseMode, setBrewByWeightDose.
    by rewrite (checkModelSupported_refuses _ _ Hnot).
  - intros client l Hin.
    apply list_elem_of_fmap in Hin as (? & ? & _). done.
  - intros Hclient. split; [|split]; intros Hin.
    + unfold setSteamLevel.
      by rewrite (checkModelSupported_accepts _ _ Hin), Hclient.
    + unfold setSteamTargetTemperature.
      by rewrite (checkModelSupported_accepts _ _ Hin), Hclient.
    + unfold setBrewByWeightDoseMode, setBrewByWeightDose.
      by rewrite (checkModelSupported_accepts _ _ Hin), Hclient.
Qed.

Ltac setter_cases :=
  repeat match goal with
         | |- context [negb ?b] => destruct b; cbn [negb]
         | |- context [checkModelSupported ?d ?l] => destruct (checkModelSupported d l)
         | |- context [update_widget ?h ?d ?k ?f ?v] => destruct (update_widget h d k f v)
         | |- context [stored_dose ?h ?b ?w] => destruct (stored_dose h b w)
         | |- context [match ?x with _ => _ end] => destruct x
         end.

(** X13. Every setter of the machine reports what the cloud client reported. It
    makes one call of the cloud client at most. It returns [true] only when
    that call answered [true], and only then does it change an object of the
    dashboard: a command that failed, timed out or was never sent leaves the
    dashboard as it was. What the call threw is thrown on unchanged. Without
    a cloud client no setter makes a call or changes anything: each throws
    [CloudOnlyFunctionality], or [UnsupportedModel] when it checks the model
    first. *)
Theorem setters_report_the_cloud (m : LaMarzoccoMachine) (h : Heap number)
    (answer : result bool) (enabled : bool) (level : SteamTargetLevel)
    (temperature value : number) (mode dose : DoseMode) :
  let outcomes :=
    [setPower enabled answer m h;
     setSteam enabled answer m h;
     setSteamLevel level answer m h;
     setCoffeeTargetTemperature temperature answer m h;
     setSteamTargetTemperature temperature answer m h;
     setBrewByWeightDoseMode mode answer m h;
     setBrewByWeightDose dose value answer m h] in
  Forall (reports_the_cloud answer h) outcomes
  ∧ (cloudClient m = false →
     Forall (λ out, out.2 = [] ∧ out.1.2 = h
                    ∧ (out.1.1 = Raise CloudOnlyFunctionality
                       ∨ ∃ msg, out.1.1 = Raise (UnsupportedModel msg)))
            outcomes).
Proof.
  cbv zeta. split.
  - repeat apply Forall_cons_2; try apply Forall_nil_2;
      unfold reports_the_cloud, setPower, setSteam, setSteamLevel,
        setCoffeeTargetTemperature, setSteamTargetTemperature,
        setBrewByWeightDoseMode, setBrewByWeightDose, awaited;
      (split_and!; setter_cases; cbn [fst snd length];
       try done; try lia; try (intros; simplify_eq; done);
       try (intros; split; done)).
  - intros Hclient.
    repeat apply Forall_cons_2; try apply Forall_nil_2;
      unfold setPower, setSteam, setSteamLevel,
        setCoffeeTargetTemperature, setSteamTargetTemperature,
        setBrewByWeightDoseMode, setBrewByWeightDose, checkModelSupported;
      rewrite Hclient; cbn [negb];
      try case_bool_decide; cbn [fst snd]; eauto.
Qed.

Lemma no_proto_widget (ws : list (Receive.Widget loc)) :
  Forall (λ w, Receive.code w ≠ JS.lit "__proto__") ws →
  Receive.proto (Receive.widgets_config ws) = None.
Proof.
  rewrite widgets_config_proto.
  induction ws as [|w ws IH] using rev_ind; [done|].
  intros [Hws Hw]%Forall_app. rewrite Forall_singleton in Hw.
  rewrite last_omap_snoc. unfold Receive.output_under at 1.
  rewrite bool_decide_eq_false_2 by done. by apply IH.
Qed.

(** A machine whose table was built from the widgets [ws]. *)
Lemma setPower_on_table (m : LaMarzoccoMachine) (ws : list (Receive.Widget loc))
    (enabled : bool) (h : Heap number) :
  cloudClient m = true →
  config (dashboard m) = Some (Receive.widgets_config ws) →
  Forall (λ w, Receive.code w ≠ JS.lit "__proto__") ws →
  setPower enabled (Ok true) m h
  = match last (omap (Receive.output_under (widget_code CM_MACHINE_STATUS)) ws) with
    | Some l =>
      (Return true,
       <[l := <[JS.lit "mode" := VString (machine_mode enabled)]> (fields h l)]> h,
       [CallSetPower enabled])
    | None => (Return true, h, [CallSetPower enabled])
    end.
Proof.
  intros Hclient Hconfig Hws. unfold setPower, update_widget, has_property, get_property.
  rewrite Hclient, Hconfig. cbn [negb].
  rewrite widgets_config_own by done. rewrite no_proto_widget by done.
  by destruct (last _).
Qed.

(** X14. After the dashboard was fetched, or pushed over the websocket, with the
    widgets [ws], none of them coded [__proto__], a [setPower] that the
    machine confirms writes the new mode into the output object of the last
    widget coded [CMMachineStatus] that has an output: the object is the one
    the widgets array holds, so the array shows the new mode as the table
    does. No other object changes, and when no widget carries the code
    nothing is written. *)
Theorem setPower_writes_the_widget (m : LaMarzoccoMachine)
    (fetched : ThingDashboardConfig)
    (pushed : Receive.ThingDashboardWebsocketConfig loc)
    (ws : list (Receive.Widget loc)) (enabled : bool) (h : Heap number) :
  cloudClient m = true →
  widgets fetched = Some ws → Receive.widgets pushed = Some ws →
  Forall (λ w, Receive.code w ≠ JS.lit "__proto__") ws →
  let after_fetch := (getDashboard (Ok fetched) m).2 in
  let after_push :=
    websocketDashboardUpdateReceived (Receive.transform_widgets pushed) m in
  let status := last (omap (Receive.output_under (widget_code CM_MACHINE_STATUS)) ws) in
  setPower enabled (Ok true) after_fetch h = setPower enabled (Ok true) after_push h
  ∧ widgets (dashboard after_fetch) = Some ws
  ∧ widgets (dashboard after_push) = Some ws
  ∧ match status with
    | Some l =>
      setPower enabled (Ok true) after_fetch h
      = (Return true,
         <[l := <[JS.lit "mode" := VString (machine_mode enabled)]> (fields h l)]> h,
         [CallSetPower enabled])
      ∧ ∃ w, w ∈ ws ∧ Receive.code w = widget_code CM_MACHINE_STATUS
             ∧ Receive.output w = Some l
    | None =>
      setPower enabled (Ok true) after_fetch h
      = (Return true, h, [CallSetPower enabled])
    end.
Proof.
  intros Hclient Hfetched Hpushed Hws after_fetch after_push status.
  assert (config (dashboard after_fetch) = Some (Receive.widgets_config ws)
          ∧ widgets (dashboard after_fetch) = Some ws
          ∧ cloudClient after_fetch = true) as (Hc1 & Hw1 & Hcl1).
  { subst after_fetch. unfold getDashboard, getThingDashboard.
    rewrite Hclient, Hfetched. done. }
  assert (config (dashboard after_push) = Some (Receive.widgets_config ws)
          ∧ widgets (dashboard after_push) = Some ws
          ∧ cloudClient after_push = true) as (Hc2 & Hw2 & Hcl2).
  { subst after_push. unfold websocketDashboardUpdateReceived, Receive.transform_widgets.
    rewrite Hpushed. done. }
  rewrite !(setPower_on_table _ ws) by done.
  split; [done|]. split; [done|]. split; [done|].
  fold status. destruct status as [l|] eqn:Hstatus; [|done].
  split; [done|].
  subst status. apply last_Some in Hstatus as [outs Houts].
  assert (l ∈ omap (Receive.output_under (widget_code CM_MACHINE_STATUS)) ws) as Hin.
  { rewrite Houts. apply elem_of_app. right. apply list_elem_of_here. }
  apply list_elem_of_omap in Hin as (w & Hw & Hout).
  exists w. split; [done|]. unfold Receive.output_under in Hout.
  case_bool_decide; [done|done].
Qed.

(** X15. A command the machine confirms, on a dashboard that has no table: the
    setter throws a [TypeError] after the call was made, where a command that
    failed returns [false]. The dashboard has no table on a machine just
    constructed, and after a fetch or a websocket frame that brought no
    widgets array and no table of its own: such a frame erases the table
    held before. *)
Theorem confirmed_command_without_table_throws (m : LaMarzoccoMachine)
    (h : Heap number) (enabled : bool) (temperature : number) :
  cloudClient m = true → config (dashboard m) = None →
  setPower enabled (Ok true) m h = (Raise TypeError, h, [CallSetPower enabled])
  ∧ setSteam enabled (Ok true) m h = (Raise TypeError, h, [CallSetSteam enabled])
  ∧ setCoffeeTargetTemperature temperature (Ok true) m h
    = (Raise TypeError, h, [CallSetCoffeeTargetTemperature temperature])
  ∧ setPower enabled (Ok false) m h = (Return false, h, [CallSetPower enabled])
  ∧ (∀ client, config (dashboard (new_machine client)) = None)
  ∧ (∀ update m0,
       Receive.widgets update = None → Receive.config update = None →
       config (dashboard (websocketDashboardUpdateReceived
                            (Receive.transform_widgets update) m0)) = None)
  ∧ (∀ fetched m0,
       cloudClient m0 = true → widgets fetched = None → config fetched = None →
       config (dashboard (getDashboard (Ok fetched) m0).2) = None).
Proof.
  intros Hclient Hconfig.
  unfold setPower, setSteam, setCoffeeTargetTemperature, update_widget.
  rewrite Hclient, Hconfig. cbn [negb].
  split; [done|]. split; [done|]. split; [done|]. split; [done|].
  split; [done|]. split.
  - intros update m0 Hwidgets Hnone. unfold Receive.transform_widgets.
    by rewrite Hwidgets.
  - intros fetched m0 Hclient0 Hwidgets Hnone. unfold getDashboard, getThingDashboard.
    by rewrite Hclient0, Hwidgets.
Qed.

End Machines.

Section SampleMachine.

Import Device.

Lemma setPower_writes_the_widget_witness :
  setPower true (Ok true) (getDashboard (Ok sample_fetched) (new_machine true)).2
           sample_heap
  = (Return true,
     <[1%nat := <[JS.lit "mode" := VString (machine_mode true)]>
                  (fields sample_heap 1%nat)]> sample_heap,
     [CallSetPower true]).
Proof.
  pose proof (setPower_writes_the_widget (new_machine true) sample_fetched
                sample_pushed sample_widgets true sample_heap) as Hthm.
  cbv zeta in Hthm.
  destruct Hthm as (_ & _ & _ & Hstatus).
  - reflexivity.
  - reflexivity.
  - reflexivity.
  - repeat apply Forall_cons_2; try apply Forall_nil_2; by vm_compute.
  - change (last _) with (Some 1%nat) in Hstatus. exact (proj1 Hstatus).
Defined.

Lemma confirmed_command_without_table_throws_witness :
  setPower true (Ok true) (new_machine true) sample_heap
  = (Raise TypeError, sample_heap, [CallSetPower true])
  ∧ setPower true (Ok false) (new_machine true) sample_heap
    = (Return false, sample_heap, [CallSetPower true]).
Proof.
  destruct (confirmed_command_without_table_throws (new_machine true) sample_heap
              true 930 eq_refl eq_refl) as (Hthrows & _ & _ & Hfalse & _).
  split; [exact Hthrows|exact Hfalse].
Defined.

End SampleMachine.

(** ** Model names *)

Section ModelNames.

Import Const.

Lemma upper_not_space (c : Z) : is_space (upper c) = is_space c.
Proof.
  unfold upper. destruct ((97 <=? c) && (c <=? 122)) eqn:Hletter; [|done].
  apply andb_true_iff in Hletter as [Hlo Hhi].
  apply Z.leb_le in Hlo. apply Z.leb_le in Hhi.
  unfold is_space.
  repeat match goal with
         | |- context [?a <=? ?b] => destruct (Z.leb_spec a b); try lia
         | |- context [?a =? ?b] => destruct (Z.eqb_spec a b); try lia
         end; done.
Qed.

Lemma upper_upper (c : Z) : upper (upper c) = upper c.
Proof.
  unfold upper. destruct ((97 <=? c) && (c <=? 122)) eqn:Hletter.
  - apply andb_true_iff in Hletter as [Hlo Hhi].
    apply Z.leb_le in Hlo. apply Z.leb_le in Hhi.
    destruct (Z.leb_spec 97 (c - 32)); [lia|done].
  - by rewrite Hletter.
Qed.

Lemma key_of_upper (text : JS.jsstring) :
  remove_spaces (toUpperCase (toUpperCase text)) = remove_spaces (toUpperCase text).
Proof.
  unfold toUpperCase. rewrite <- list_fmap_compose. f_equal.
  apply list_fmap_ext. intros _ c _. apply upper_upper.
Qed.

Lemma key_without_space (a b : JS.jsstring) (c : Z) :
  is_space c = true →
  remove_spaces (toUpperCase (a ++ c :: b)) = remove_spaces (toUpperCase (a ++ b)).
Proof.
  intros Hspace. unfold remove_spaces, toUpperCase.
  rewrite !fmap_app, fmap_cons, !List.filter_app. cbn [List.filter].
  by rewrite upper_not_space, Hspace.
Qed.

(** X16. [modelNameFromString] on the strings of the library's own enumerations.
    Of the eight model codes it resolves six: for [LINEAMINIR] and [GS3] it
    throws. Of the eight model names it resolves four, Linea Mini, Linea
    Micra, GS3 MP and GS3 AV; for the other four it throws. On ASCII text
    the lookup ignores the case of the letters and white space anywhere, and
    a text that is resolved is, so reduced, one of the eight keys of the
    mapping. *)
Theorem modelNameFromString_resolves :
  (∀ m, modelNameFromString (code m)
        = match m with
          | LINEA_MINI_R | GS3 => Throw (Error (JS.lit "Invalid model name: " ++ code m))
          | _ => Ok m
          end)
  ∧ (∀ m, modelNameFromString (name m)
          = match m with
            | LINEA_MINI | LINEA_MICRA | GS3_MP | GS3_AV => Ok m
            | _ => Throw (Error (JS.lit "Invalid model name: " ++ name m))
            end)
  ∧ (∀ text m, ascii text →
       (modelNameFromString (toUpperCase text) = Ok m
        ↔ modelNameFromString text = Ok m))
  ∧ (∀ a b c m, ascii (a ++ c :: b) → is_space c = true →
       (modelNameFromString (a ++ c :: b) = Ok m
        ↔ modelNameFromString (a ++ b) = Ok m))
  ∧ (∀ text m, ascii text → modelNameFromString text = Ok m →
       (remove_spaces (toUpperCase text), m) ∈ mapping).
Proof.
  split; [by intros []|]. split; [by intros []|]. split; [|split].
  - intros text m _. unfold modelNameFromString. rewrite key_of_upper.
    by destruct (assoc _ mapping).
  - intros a b c m _ Hspace. unfold modelNameFromString.
    rewrite key_without_space by done. by destruct (assoc _ mapping).
  - intros text m _. unfold modelNameFromString.
    generalize (remove_spaces (toUpperCase text)). intros key.
    assert (∀ l, assoc key l = Some m → (key, m) ∈ l) as Hassoc.
    { induction l as [|[k m'] l IH]; [done|]. cbn [assoc].
      case_bool_decide as Hk.
      - intros [= ->]. subst k. apply list_elem_of_here.
      - intros Hl. apply list_elem_of_further. by apply IH. }
    destruct (assoc key mapping) as [m'|] eqn:Hkey; [|done].
    intros [= ->]. by apply Hassoc.
Qed.

End ModelNames.

(** ** The setup and the token it waits for *)

Section SetupRaces.

Import Session.

Lemma socket_run_snoc (host : Host) (serialNumber : JS.jsstring) (c : Connecting)
    (events : list SocketEvent) (e : SocketEvent) :
  socket_run host serialNumber c (events ++ [e])
  = socket_step host serialNumber (socket_run host serialNumber c events) e.
Proof. unfold socket_run. by rewrite foldl_app. Qed.

Lemma existsb_snoc {A : Type} (p : A → bool) (l : list A) (x : A) :
  existsb p (l ++ [x]) = existsb p l || p x.
Proof. rewrite existsb_app. simpl. by rewrite orb_false_r. Qed.

Lemma not_ended (host : Host) (c : Connecting) :
  uncaught c = false → unhandled_rejection c = false → ended host c = false.
Proof. intros Hun Hrej. unfold ended. by rewrite Hun, Hrej. Qed.

Lemma ended_stays (host : Host) (serialNumber : JS.jsstring) (c : Connecting)
    (events : list SocketEvent) :
  ended host c = true → socket_run host serialNumber c events = c.
Proof.
  intros Hended. induction events as [|e events IH]; [done|].
  unfold socket_run in *. cbn [foldl]. unfold socket_step at 2.
  by rewrite Hended.
Qed.

Ltac kept :=
  rewrite ?orb_false_r, ?orb_true_r; repeat split; first [assumption|reflexivity].

(** The socket opened before the token came. *)
Lemma open_then_token (host : Host) (serialNumber accessToken : JS.jsstring)
    (events : list SocketEvent) :
  Forall no_CONNECTED events →
  let c := socket_run host serialNumber connecting
             (Opened :: TokenReturned accessToken :: events) in
  silent c ∧ handlers c = Some accessToken ∧ awaiting_token c = false
  ∧ uncaught c = false ∧ unhandled_rejection c = false
  ∧ rejected c = existsb is_error events.
Proof.
  intros Hevents. cbv zeta.
  induction events as [|e events IH] using rev_ind; [done|].
  apply Forall_app in Hevents as [Hevents He]. rewrite Forall_singleton in He.
  destruct (IH Hevents)
    as ((Hopen & Hsent & Hres & Hlisten) & Hhandlers & Hawait & Hun & Hunh & Hrej).
  change (Opened :: TokenReturned accessToken :: events ++ [e])
    with ([Opened; TokenReturned accessToken] ++ (events ++ [e])).
  rewrite app_assoc, socket_run_snoc, existsb_snoc.
  change (([Opened; TokenReturned accessToken] ++ events))
    with (Opened :: TokenReturned accessToken :: events).
  set (c := socket_run host serialNumber connecting _) in *.
  unfold silent, socket_step. rewrite (not_ended host c Hun Hunh).
  destruct e as [t| | |id data|]; cbn [is_error].
  - rewrite Hawait. kept.
  - rewrite Hawait. kept.
  - rewrite Hopen. kept.
  - rewrite Hhandlers.
    cbn [progress handlers uncaught rejected awaiting_token unhandled_rejection].
    unfold messageHandler. rewrite Hlisten. cbn [negb].
    rewrite bool_decide_eq_false_2 by done. kept.
  - rewrite Hhandlers.
    cbn [progress handlers uncaught rejected awaiting_token unhandled_rejection].
    rewrite Hres. cbn [negb]. kept.
Qed.

(** The token never came, in a process that goes on. *)
Lemma token_thrown (host : Host) (serialNumber : JS.jsstring)
    (events : list SocketEvent) :
  let c := socket_run host serialNumber connecting (TokenThrown :: events) in
  handlers c = None ∧ awaiting_token c = false
  ∧ sent (socket (progress c)) = [] ∧ resolved (progress c) = false
  ∧ rejected c = false ∧ unhandled_rejection c = true.
Proof.
  cbv zeta. induction events as [|e events IH] using rev_ind; [done|].
  destruct IH as (Hhandlers & Hawait & Hsent & Hres & Hrej & Hunh).
  change (TokenThrown :: events ++ [e]) with ([TokenThrown] ++ (events ++ [e])).
  rewrite app_assoc, socket_run_snoc.
  change ([TokenThrown] ++ events) with (TokenThrown :: events).
  set (c := socket_run host serialNumber connecting _) in *.
  unfold socket_step. destruct (ended host c); [kept|].
  destruct e as [t| | |id data|].
  - rewrite Hawait. kept.
  - rewrite Hawait. kept.
  - rewrite Hhandlers.
    destruct (readyState (socket (progress c))); cbn; kept.
  - rewrite Hhandlers. kept.
  - rewrite Hhandlers. cbn. kept.
Qed.

(** X17. [setupWebsocketConnection] sets its handlers only after the access
    token has come. When the socket opens first, the open event finds no
    listener: the CONNECT frame is never sent, and as long as the server,
    which was not greeted, sends no CONNECTED frame the setup is never
    resolved; it is rejected exactly when an error event follows. When
    [asyncGetAccessToken] throws, the executor's promise is rejected with no
    handler on it and no handler of the socket is ever set. In a process
    without hooks, as Node runs by default, that ends the process: no later
    event is handled. In a process that goes on, nothing is ever sent and
    the setup is neither resolved nor rejected, whatever happens on the
    socket, so that the reconnect loop waits on it for ever. *)
Theorem setup_needs_token_before_open (host : Host)
    (serialNumber accessToken : JS.jsstring) (events : list SocketEvent) :
  (Forall no_CONNECTED events →
   let c := socket_run host serialNumber connecting
              (Opened :: TokenReturned accessToken :: events) in
   sent (socket (progress c)) = []
   ∧ resolved (progress c) = false
   ∧ rejected c = existsb is_error events)
  ∧ (let c := socket_run host serialNumber connecting (TokenThrown :: events) in
     unhandled_rejection c = true
     ∧ sent (socket (progress c)) = []
     ∧ resolved (progress c) = false
     ∧ rejected c = false)
  ∧ (let c := socket_run default_host serialNumber connecting [TokenThrown] in
     ended default_host c = true
     ∧ socket_run default_host serialNumber connecting (TokenThrown :: events) = c).
Proof.
  split; [|split].
  - intros Hevents.
    destruct (open_then_token host serialNumber accessToken events Hevents)
      as ((_ & Hsent & Hres & _) & _ & _ & _ & _ & Hrej).
    done.
  - destruct (token_thrown host serialNumber events)
      as (_ & _ & Hsent & Hres & Hrej & Hunh).
    done.
  - cbv zeta. split; [done|].
    change (TokenThrown :: events) with ([TokenThrown] ++ events).
    unfold socket_run at 1. rewrite foldl_app.
    by apply (ended_stays default_host serialNumber).
Qed.

(** The token first, then the open event and the CONNECTED frame: the setup
    is resolved; the other way round it is not. *)
Example setup_orders :
  let frame := Stomp.toString Stomp.CONNECTED ++ [Str.LF; Str.LF; Str.NUL] in
  resolved (progress (socket_run default_host (JS.lit "AB123") connecting
                        [TokenReturned (JS.lit "token"); Opened;
                         Received (JS.lit "sub-1") frame])) = true
  ∧ resolved (progress (socket_run default_host (JS.lit "AB123") connecting
                          [Opened; TokenReturned (JS.lit "token")])) = false
  ∧ sent (socket (progress (socket_run default_host (JS.lit "AB123") connecting
                              [Opened; TokenReturned (JS.lit "token")]))) = [].
Proof. by vm_compute. Qed.

End SetupRaces.
